(** * baojimi: key-rotation dispatch engine, shallow embedding

    Sources embedded here:
    - [src/pages/api/v1/chat/completions-edge.ts] (two handler variants:
      the current one, lines 1-612, and the legacy one, lines 613-1095),
    - [src/pages/api/v1/chat/completions.ts] (the serverless handler),
    - [lib/converter], [lib/settings-manager], [lib/key-manager],
      [lib/config] and the models endpoint.

    JavaScript strings are modelled as [string] where only substring
    tests matter, and as lists of UTF-16 code units where indices matter
    (the fake-stream splitter).  Upstream calls, the clock and the random
    generator are explicit parameters. *)

From Stdlib Require Import List String Ascii Bool Arith ZArith QArith Lia.
From Stdlib Require Import Permutation DecimalString.
Import ListNotations.

Local Close Scope Q_scope.
Local Open Scope string_scope.

(* ===================================================================== *)
(** ** JavaScript values used by the handlers                             *)
(* ===================================================================== *)

Module Js.

(** [String.prototype.includes]. *)
Fixpoint includes (needle hay : string) : bool :=
  if String.prefix needle hay then true
  else match hay with
       | EmptyString => false
       | String _ rest => includes needle rest
       end.

(** The values an error's [code] / [status] property can hold. *)
Inductive Val : Type :=
| VUndefined
| VNum (n : Z)
| VStr (s : string).

Definition truthy (v : Val) : bool :=
  match v with
  | VUndefined => false
  | VNum n => negb (n =? 0)%Z
  | VStr s => negb (s =? "")%string
  end.

(** [a || b] *)
Definition or (a b : Val) : Val := if truthy a then a else b.

(** [v === n] for a number literal [n]. *)
Definition strictEqNum (v : Val) (n : Z) : bool :=
  match v with
  | VNum m => (m =? n)%Z
  | _ => false
  end.

(** A thrown object.  [message] is [None] when the property is absent;
    [toStr] is what [toString()] yields; [apiStatus] is [Some code]
    exactly when the object is an [instanceof ApiError]. *)
Record ErrorObj : Type := mkErr {
  message : option string;
  toStr : string;
  code : Val;
  status : Val;
  apiStatus : option Z
}.

(** Anything a [catch] clause can bind: [None] is a thrown
    [null]/[undefined] (and the initial [lastError = null]). *)
Definition Error : Type := option ErrorObj.

(** [s || t] on strings. *)
Definition strOr (s t : string) : string :=
  if (s =? "")%string then t else s.

(** [error.message || error.toString()] *)
Definition messageOf (e : ErrorObj) : string :=
  match message e with
  | Some m => strOr m (toStr e)
  | None => toStr e
  end.

(** [error?.message || error?.toString() || ''] *)
Definition errorMsg (e : Error) : string :=
  match e with
  | None => ""
  | Some o => strOr (messageOf o) ""
  end.

(** [error.code || error.status] *)
Definition errorCode (e : ErrorObj) : Val := or (code e) (status e).

End Js.

(* ===================================================================== *)
(** ** Retryability classifier ([isRetryableError], all three handlers)   *)
(* ===================================================================== *)

Definition isRetryableError (error : Js.Error) : bool :=
  match error with
  | None => false                                     (* if (!error) return false *)
  | Some e =>
      let errorMessage := Js.messageOf e in
      let errorCode := Js.errorCode e in
      if Js.strictEqNum errorCode 401 then false
      else if Js.strictEqNum errorCode 403
              && negb (Js.includes "API key" errorMessage)
              && negb (Js.includes "API_KEY" errorMessage)
      then false
      else true
  end.

(* ===================================================================== *)
(** ** Streaming configuration and strategy selection                     *)
(* ===================================================================== *)

Record StreamingConfig : Type := mkConfig {
  enabled : bool;
  fake_stream_enabled : bool
}.

(** The three delivery functions of the edge file. *)
Inductive Strategy : Type :=
| handleRealStream
| handleFakeStream
| handleNonStream.

(** What a strategy hands back on success: the stream strategies return a
    [Response] carrying an event stream, [handleNonStream] returns a plain
    completion object that the handler serialises as one JSON body. *)
Inductive Payload : Type :=
| EventStream (frames : list string)
| Completion (text : string).

Inductive Outcome : Type :=
| Returned (p : Payload)
| Thrown (e : Js.Error).

Record GeminiKey : Type := mkKey {
  id : string;
  api_key : string
}.

(** One row handed to [logApiCall]. *)
Record LogData : Type := mkLog {
  gemini_key_id : string;
  response_status_code : Z;
  is_stream : bool;
  error_message : option string
}.

(** Status written into the failure log row. *)
Definition logStatus (errorMsg : string) : Z :=
  if Js.includes "quota" errorMsg then 429
  else if Js.includes "API_KEY_INVALID" errorMsg then 401
  else if Js.includes "Not Found" errorMsg then 404
  else 500.

(** The test guarding [markKeyAsInvalid]. *)
Definition looksInvalidKey (errorMsg : string) : bool :=
  Js.includes "API_KEY_INVALID" errorMsg
  || Js.includes "Invalid API key" errorMsg
  || Js.includes "API key not valid" errorMsg.

(** [ApiError] of [lib/config]: only the explicit-message constructor is
    used by the dispatch path. *)
Record ApiError : Type := mkApiError {
  statusCode : Z;
  apiMessage : string
}.

Definition natToString (n : nat) : string :=
  NilEmpty.string_of_uint (Nat.to_uint n).

(** The tail of every handler: turning [lastError] into the surfaced
    error.  [emptyBranch] tells whether the handler has the
    ['Empty response'] case (only the current edge handler does). *)
Definition exhaustionError (emptyBranch : bool) (lastError : Js.Error)
    (tried : nat) : ApiError :=
  match lastError with
  | Some {| Js.apiStatus := Some sc; Js.message := m; Js.toStr := t |} =>
      (* lastError instanceof ApiError *)
      mkApiError sc (match m with Some s => s | None => t end)
  | _ =>
      let errorMsg := Js.errorMsg lastError in
      if Js.includes "quota" errorMsg || Js.includes "QUOTA_EXCEEDED" errorMsg
      then mkApiError 429 "All API keys have exceeded quota limits"
      else if Js.includes "API_KEY_INVALID" errorMsg
              || Js.includes "Invalid API key" errorMsg
      then mkApiError 401 "All API keys are invalid"
      else if emptyBranch && Js.includes "Empty response" errorMsg
      then mkApiError 502 "All API keys returned empty responses"
      else mkApiError 503
             ("All " ++ natToString tried ++ " API keys failed. Last error: "
              ++ errorMsg)
  end.

(** What the caller receives. *)
Inductive Reply : Type :=
| Ok200 (p : Payload)
| Failed (e : ApiError).

(* ===================================================================== *)
(** ** The polling loop                                                   *)
(* ===================================================================== *)

Section Polling.

(** The upstream provider: a strategy run with a key against the current
    state of the outside world. *)
Variable World : Type.
Variable upstream : Strategy -> GeminiKey -> World -> Outcome * World.

(** Loop state: the handler's locals plus the observable side effects. *)
Record Poll : Type := mkPoll {
  world : World;
  calls : list (Strategy * string);   (* upstream calls made, in order *)
  triedKeys : list string;
  lastError : Js.Error;
  usage : list string;                (* updateKeyUsage(key.id) *)
  logs : list LogData;                (* logApiCall(...) *)
  invalid : list string               (* markKeyAsInvalid(key.id, ...) *)
}.

Definition start (w : World) : Poll :=
  mkPoll w [] [] None [] [] [].

(** One upstream call, recorded. *)
Definition call (s : Strategy) (key : GeminiKey) (st : Poll)
  : Outcome * Poll :=
  let (r, w') := upstream s key (world st) in
  (r, mkPoll w' (calls st ++ [(s, id key)]) (triedKeys st) (lastError st)
              (usage st) (logs st) (invalid st)).

(** Current edge handler, lines 463-486. *)
Definition selectStrategy (isStream : bool) (cfg : StreamingConfig)
  : Strategy :=
  if isStream then
    if enabled cfg && negb (fake_stream_enabled cfg) then handleRealStream
    else if negb (enabled cfg) && fake_stream_enabled cfg then handleFakeStream
    else if negb (enabled cfg) && negb (fake_stream_enabled cfg) then handleNonStream
    else handleRealStream
  else handleNonStream.

Definition attemptEdge (isStream : bool) (cfg : StreamingConfig)
    (key : GeminiKey) (st : Poll) : Outcome * Poll :=
  call (selectStrategy isStream cfg) key st.

(** Legacy edge handler, lines 945-972, including the inner
    [try]/[catch] around the real stream. *)
Definition attemptLegacy (isStream : bool) (cfg : StreamingConfig)
    (key : GeminiKey) (st : Poll) : Outcome * Poll :=
  if isStream && enabled cfg then
    if enabled cfg && negb (fake_stream_enabled cfg) then
      match call handleRealStream key st with
      | (Thrown e, st') =>
          if fake_stream_enabled cfg then call handleFakeStream key st'
          else (Thrown e, st')
      | r => r
      end
    else call handleFakeStream key st
  else if isStream && fake_stream_enabled cfg then
    call handleFakeStream key st
  else call handleNonStream key st.

(** Serverless handler: [callGeminiWithKey] streams iff [isStream].  The
    outcome is what [callGeminiWithKey] hands back to the loop,
    [{ success: true }] or [{ success: false, error }]; when it streams
    it writes head and body to the response itself before it hands
    anything back ([ServerlessStream] below). *)
Definition attemptServerless (isStream : bool) (key : GeminiKey)
    (st : Poll) : Outcome * Poll :=
  call (if isStream then handleRealStream else handleNonStream) key st.

(** The [for (const key of ...)] loop shared by the three handlers,
    over the attempt each of them makes per key. *)
Section Loop.

Variable attempt : GeminiKey -> Poll -> Outcome * Poll.
Variable isStream : bool.

Definition enter (key : GeminiKey) (st : Poll) : Poll :=
  mkPoll (world st) (calls st) (triedKeys st ++ [id key]) (lastError st)
         (usage st ++ [id key]) (logs st) (invalid st).

Definition onSuccess (key : GeminiKey) (st : Poll) : Poll :=
  mkPoll (world st) (calls st) (triedKeys st) (lastError st) (usage st)
         (logs st ++ [mkLog (id key) 200 isStream None]) (invalid st).

Definition onFailure (key : GeminiKey) (e : Js.Error) (st : Poll) : Poll :=
  let errorMsg := Js.errorMsg e in
  mkPoll (world st) (calls st) (triedKeys st) e (usage st)
         (logs st ++ [mkLog (id key) (logStatus errorMsg) isStream
                            (Some errorMsg)])
         (if isRetryableError e && looksInvalidKey errorMsg
          then invalid st ++ [id key] else invalid st).

Fixpoint poll (keys : list GeminiKey) (st : Poll) : option Payload * Poll :=
  match keys with
  | [] => (None, st)
  | key :: rest =>
      match attempt key (enter key st) with
      | (Returned p, st1) => (Some p, onSuccess key st1)       (* return *)
      | (Thrown e, st1) =>
          let st2 := onFailure key e st1 in
          if isRetryableError e then poll rest st2              (* continue *)
          else (None, st2)                                      (* break *)
      end
  end.

End Loop.

Definition finish (emptyBranch : bool) (r : option Payload * Poll)
  : Reply * Poll :=
  match r with
  | (Some p, st) => (Ok200 p, st)
  | (None, st) =>
      (Failed (exhaustionError emptyBranch (lastError st)
                 (List.length (triedKeys st))), st)
  end.

(** [[...availableKeys].sort(() => Math.random() - 0.5)].  The
    comparator ignores its arguments, so all the sort ever sees is the
    sign of the k-th draw: [coin k] is [true] when that draw is
    negative.  The engine's algorithm is implementation-defined; it is
    taken to be an insertion sort, the answers being whatever the
    coin says.  Which order a given sequence of answers leads to
    differs from engine to engine; what they share is that the result
    is a permutation, and every permutation is the result for some coin
    ([shuffledKeys_any_order]), so that a statement for every coin
    covers every engine. *)
Section Shuffle.

Variable coin : nat -> bool.

Fixpoint insertBy {A : Type} (x : A) (sorted : list A) (k : nat)
  : list A * nat :=
  match sorted with
  | [] => ([x], k)
  | y :: ys =>
      if coin k then (x :: y :: ys, S k)
      else let (r, k') := insertBy x ys (S k) in (y :: r, k')
  end.

Fixpoint sortBy {A : Type} (l : list A) (k : nat) : list A * nat :=
  match l with
  | [] => ([], k)
  | x :: xs => let (s, k1) := sortBy xs k in insertBy x s k1
  end.

Definition shuffledKeys (availableKeys : list GeminiKey) : list GeminiKey :=
  fst (sortBy availableKeys 0).

End Shuffle.

(** The three handlers from the point where [availableKeys] and the
    streaming configuration have been loaded.  The reply is what the
    handler hands to its response at the end.  The edge handlers return
    it; the serverless handler writes it with [res.status(...).json(...)],
    which reaches the client unless a streaming attempt has written the
    head before ([ServerlessStream.delivered]). *)
Definition handlerEdge (coin : nat -> bool) (isStream : bool)
    (cfg : StreamingConfig) (availableKeys : list GeminiKey) (w : World)
  : Reply * Poll :=
  finish true
    (poll (attemptEdge isStream cfg) isStream
          (shuffledKeys coin availableKeys) (start w)).

Definition handlerLegacy (isStream : bool) (cfg : StreamingConfig)
    (availableKeys : list GeminiKey) (w : World) : Reply * Poll :=
  finish false
    (poll (attemptLegacy isStream cfg) isStream availableKeys (start w)).

Definition handlerServerless (isStream : bool)
    (availableKeys : list GeminiKey) (w : World) : Reply * Poll :=
  finish false
    (poll (attemptServerless isStream) isStream availableKeys (start w)).

End Polling.

Arguments world {World}.
Arguments calls {World}.
Arguments triedKeys {World}.
Arguments lastError {World}.
Arguments usage {World}.
Arguments logs {World}.
Arguments invalid {World}.

(* ===================================================================== *)
(** ** Fake-stream splitters                                              *)
(* ===================================================================== *)

Module FakeStream.

Local Open Scope nat_scope.

(** A JavaScript string as its UTF-16 code units. *)
Definition Text : Type := list Z.

(** [\s] of a JavaScript regular expression, which is also what
    [trim()] strips. *)
Definition isSpace (c : Z) : bool :=
  ((9 <=? c) && (c <=? 13) || (c =? 32) || (c =? 160) || (c =? 5760)
   || (8192 <=? c) && (c <=? 8202) || (c =? 8232) || (c =? 8233)
   || (c =? 8239) || (c =? 8287) || (c =? 12288) || (c =? 65279))%Z.

(** [/[\s\.,!?;:]/.test(ch)] *)
Definition isBreak (c : Z) : bool :=
  (isSpace c || (c =? 46) || (c =? 44) || (c =? 33) || (c =? 63)
   || (c =? 59) || (c =? 58))%Z.

(** [text.slice(a, b)] for [a <= b]. *)
Definition slice (t : Text) (a b : nat) : Text := firstn (b - a) (skipn a t).

(** [chunkText.trim()] is the empty (falsy) string. *)
Definition blank (chunk : Text) : bool := forallb isSpace chunk.

Definition isHighSurrogate (c : Z) : bool := ((55296 <=? c) && (c <=? 56319))%Z.
Definition isLowSurrogate (c : Z) : bool := ((56320 <=? c) && (c <=? 57343))%Z.

(** A cut at index [b] separates the two halves of a surrogate pair. *)
Definition splitsPair (t : Text) (b : nat) : bool :=
  match b with
  | O => false
  | S a =>
      match nth_error t a, nth_error t b with
      | Some h, Some l => isHighSurrogate h && isLowSurrogate l
      | _, _ => false
      end
  end.

(** *** Current edge handler (lines 213-259) *)

Definition chunkSize (fullText : Text) : nat :=
  Nat.max 15 (List.length fullText / 15).

(** The inner [while]: walk [endIndex] back while it is above
    [currentIndex] and sits on a non-ASCII, non-separator unit. *)
Fixpoint seekBack (fullText : Text) (currentIndex endIndex : nat) : nat :=
  match endIndex with
  | O => O
  | S e' =>
      if (currentIndex <? endIndex)
         && match nth_error fullText endIndex with
            | Some c => (127 <? c)%Z && negb (isBreak c)
            | None => false
            end
      then seekBack fullText currentIndex e'
      else endIndex
  end.

(** The value of [endIndex] when [chunkText] is sliced. *)
Definition nextEnd (fullText : Text) (currentIndex : nat) : nat :=
  let endIndex := Nat.min (currentIndex + chunkSize fullText)
                          (List.length fullText) in
  if endIndex <? List.length fullText then
    match nth_error fullText endIndex with
    | Some c =>
        if (127 <? c)%Z then
          let e := seekBack fullText currentIndex endIndex in
          if (currentIndex <? e)
             && match nth_error fullText e with
                | Some c' => isBreak c'
                | None => false
                end
          then S e else e
        else endIndex
    | None => endIndex
    end
  else endIndex.

(** The outer [while (currentIndex < fullText.length && !streamClosed)]
    with the client staying connected; the result lists the index
    ranges sliced, [None] when the fuel runs out first. *)
Fixpoint ranges (fuel : nat) (fullText : Text) (currentIndex : nat)
  : option (list (nat * nat)) :=
  if List.length fullText <=? currentIndex then Some []
  else match fuel with
       | O => None
       | S fuel' =>
           let endIndex := nextEnd fullText currentIndex in
           option_map (cons (currentIndex, endIndex))
                      (ranges fuel' fullText endIndex)
       end.

Definition pieces (fullText : Text) (rs : list (nat * nat)) : list Text :=
  map (fun r => slice fullText (fst r) (snd r)) rs.

(** [if (chunkText.trim()) { ... enqueue ... }] *)
Definition emitted (ps : list Text) : list Text :=
  filter (fun chunk => negb (blank chunk)) ps.

(** *** Legacy edge handler (lines 777-821) *)

(** [sendChunk], rescheduled by [setTimeout] until the text is used up;
    [if (chunkText)] drops an empty slice only. *)
Fixpoint sendChunk (fuel : nat) (fullText : Text) (currentIndex : nat)
  : option (list Text) :=
  if currentIndex <? List.length fullText then
    match fuel with
    | O => None
    | S fuel' =>
        let chunkText := slice fullText currentIndex (currentIndex + 3) in
        option_map
          (fun rest => match chunkText with [] => rest | _ => chunkText :: rest end)
          (sendChunk fuel' fullText (currentIndex + 3))
    end
  else Some [].

End FakeStream.

(* ===================================================================== *)
(** ** Credential pool ([lib/key-manager])                                *)
(* ===================================================================== *)

Module KeyManager.

(** What one supabase query yields: the [{ data, error }] pair, or an
    exception out of the client. *)
Inductive DbReply : Type :=
| DbData (data : option (list GeminiKey))
| DbError
| DbThrows.

Inductive KvReply : Type :=
| KvValue (cachedKeys : option (list GeminiKey))
| KvThrows.

(** The surroundings of one call: [NODE_ENV], the answer to the n-th
    database query of the call, the cache read, and whether the cache
    write fails. *)
Record Env : Type := mkEnv {
  development : bool;
  db : nat -> DbReply;
  kvGet : KvReply;
  kvSetexThrows : bool
}.

(** A computation that may throw: [inl] carries what was thrown. *)
Inductive Thrown : Type :=
| ThrownApiError (statusCode : Z)
| ThrownOther.

Definition fetchKeysFromDb (reply : DbReply) : Thrown + list GeminiKey :=
  match reply with
  | DbError => inr []                        (* if (error) { ...; return []; } *)
  | DbData (Some data) => inr data
  | DbData None => inr []                    (* data || [] *)
  | DbThrows => inl ThrownOther
  end.

(** The body of the outer [try] up to the assignment of [keys]; the
    inner [try] remembers how many database queries it has made, so
    that its [catch] issues the next one. *)
Definition loadKeys (env : Env) : Thrown + list GeminiKey :=
  if development env then fetchKeysFromDb (db env 0%nat)
  else
    let cached : (Thrown + list GeminiKey) * nat :=
      match kvGet env with
      | KvThrows => (inl ThrownOther, 0%nat)
      | KvValue (Some (k :: ks)) => (inr (k :: ks), 0%nat)
      | KvValue _ =>
          match fetchKeysFromDb (db env 0%nat) with
          | inl t => (inl t, 1%nat)
          | inr keys =>
              if (0 <? List.length keys)%nat && kvSetexThrows env
              then (inl ThrownOther, 1%nat)
              else (inr keys, 1%nat)
          end
      end in
    match cached with
    | (inr keys, _) => inr keys
    | (inl _, queries) => fetchKeysFromDb (db env queries)   (* catch (cacheError) *)
    end.

Definition getAllAvailableGeminiKeys (env : Env) : Thrown + list GeminiKey :=
  match loadKeys env with
  | inr [] => inl (ThrownApiError 503)          (* keys.length === 0 *)
  | inr keys => inr keys
  | inl (ThrownApiError sc) => inl (ThrownApiError sc)
  | inl ThrownOther => inl (ThrownApiError 500)
  end.

End KeyManager.

(* ===================================================================== *)
(** ** Request converter ([lib/converter], [lib/settings-manager])        *)
(* ===================================================================== *)

Module Converter.

Record Message : Type := mkMessage {
  role : string;
  content : string
}.

(** [max_tokens] / [temperature]: absent, or a JSON number. *)
Record OpenAIRequest : Type := mkRequest {
  messages : list Message;
  max_tokens : option Q;
  temperature : option Q
}.

Record Content : Type := mkContent {
  geminiRole : string;
  text : string                       (* parts: [{ text }] *)
}.

Record GenerationConfig : Type := mkGenerationConfig {
  maxOutputTokens : Q;
  geminiTemperature : Q
}.

Record GeminiRequest : Type := mkGeminiRequest {
  contents : list Content;
  generationConfig : GenerationConfig
}.

(** [x || d] on an optional number: [undefined] and [0] are falsy. *)
Definition numOr (x : option Q) (d : Q) : Q :=
  match x with
  | Some q => if Qeq_bool q 0 then d else q
  | None => d
  end.

Definition chars : string :=
  "ABCDEFGHIJKLMNOPQRSTUVWXYZabcdefghijklmnopqrstuvwxyz0123456789".

(** [chars.charAt(i)]: the empty string out of range. *)
Definition charAt (s : string) (i : nat) : string :=
  match String.get i s with
  | Some c => String c EmptyString
  | None => EmptyString
  end.

(** [generateDisguiseString]; [draw i] is the value of
    [Math.floor(Math.random() * chars.length)] in round [i]. *)
Fixpoint disguiseLoop (draw : nat -> nat) (i rounds : nat) (result : string)
  : string :=
  match rounds with
  | O => result
  | S rounds' => disguiseLoop draw (S i) rounds' (result ++ charAt chars (draw i))
  end.

Definition generateDisguiseString (draw : nat -> nat) : string :=
  disguiseLoop draw 0 6 "".

(** [messages.findIndex(m => m.role === 'user')], [None] for [-1]. *)
Fixpoint findIndexFrom (i : nat) (ms : list Message) : option nat :=
  match ms with
  | [] => None
  | m :: rest => if (role m =? "user")%string then Some i
                 else findIndexFrom (S i) rest
  end.

Definition firstUserMessageIndex (ms : list Message) : option nat :=
  findIndexFrom 0 ms.

Definition isIndex (o : option nat) (i : nat) : bool :=
  match o with
  | Some j => Nat.eqb i j
  | None => false
  end.

(** The local [content] after the disguise step of the [map] callback. *)
Definition disguised (disguiseEnabled : bool) (draw : nat -> nat)
    (first : option nat) (index : nat) (msg : Message) : string :=
  if disguiseEnabled && (role msg =? "user")%string && isIndex first index
  then content msg ++ " [" ++ generateDisguiseString draw ++ "]"
  else content msg.

(** The [map] callback; [None] is the [null] that [filter(Boolean)]
    removes. *)
Definition convertMessage (disguiseEnabled : bool) (draw : nat -> nat)
    (first : option nat) (index : nat) (msg : Message) : option Content :=
  let content := disguised disguiseEnabled draw first index msg in
  if (role msg =? "system")%string then Some (mkContent "user" ("System: " ++ content))
  else if (role msg =? "user")%string then Some (mkContent "user" content)
  else if (role msg =? "assistant")%string then Some (mkContent "model" content)
  else None.

Fixpoint convertFrom (disguiseEnabled : bool) (draw : nat -> nat)
    (first : option nat) (index : nat) (ms : list Message) : list Content :=
  match ms with
  | [] => []
  | msg :: rest =>
      match convertMessage disguiseEnabled draw first index msg with
      | Some c => c :: convertFrom disguiseEnabled draw first (S index) rest
      | None => convertFrom disguiseEnabled draw first (S index) rest
      end
  end.

Definition convertOpenAItoGemini (disguiseEnabled : bool) (draw : nat -> nat)
    (openaiRequest : OpenAIRequest) : GeminiRequest :=
  let first := firstUserMessageIndex (messages openaiRequest) in
  mkGeminiRequest
    (convertFrom disguiseEnabled draw first 0 (messages openaiRequest))
    (mkGenerationConfig (numOr (max_tokens openaiRequest) 2048)
                        (numOr (temperature openaiRequest) (7 # 10))).

(** Current edge handler, lines 426-436: the last message, when it is a
    user message, gets a request tag appended; [tag] stands for
    [req_${Date.now()}_${Math.random().toString(36).substr(2, 9)}]. *)
Fixpoint enhanceMessages (tag : string) (ms : list Message) : list Message :=
  match ms with
  | [] => []
  | [lastMessage] =>
      if (role lastMessage =? "user")%string
      then [mkMessage (role lastMessage)
              (content lastMessage
               ++ String (ascii_of_nat 10) ("<!-- " ++ tag ++ " -->"))]
      else [lastMessage]
  | m :: rest => m :: enhanceMessages tag rest
  end.

(** The request the current edge handler hands to the strategies. *)
Definition edgeRequest (disguiseEnabled : bool) (draw : nat -> nat)
    (tag : string) (requestBody : OpenAIRequest) : GeminiRequest :=
  convertOpenAItoGemini disguiseEnabled draw
    (mkRequest (enhanceMessages tag (messages requestBody))
               (max_tokens requestBody) (temperature requestBody)).

End Converter.

(* ===================================================================== *)
(** ** Models endpoint                                                    *)
(* ===================================================================== *)

Module Models.

Local Open Scope Z_scope.

(** The supabase query for one active key. *)
Inductive DbReply : Type :=
| DbThrows
| DbResult (error : bool) (geminiKeys : option (list string)).

Record GoogleModel : Type := mkGoogleModel {
  name : option string
}.

(** The call to Google: it throws, or it yields a response whose
    [json()] throws ([None]) or parses to an object with or without a
    [models] array. *)
Inductive FetchReply : Type :=
| FetchThrows
| FetchResponse (ok : bool) (json : option (option (list GoogleModel))).

Record Model : Type := mkModel {
  id : string;
  object : string;
  created : Z;
  owned_by : string;
  root : string
}.

Inductive Body : Type :=
| ListBody (data : list Model)          (* { object: 'list', data } *)
| ErrorBody (error : string).

(** [s.replace(pat, by)] with a string pattern: the first occurrence. *)
Fixpoint replaceFirst (pat by_ s : string) : string :=
  if String.prefix pat s
  then by_ ++ String.substring (String.length pat)
                               (String.length s - String.length pat)%nat s
  else match s with
       | EmptyString => EmptyString
       | String c rest => String c (replaceFirst pat by_ rest)
       end.

Definition reshape (now : Z) (model : GoogleModel) : option Model :=
  match name model with
  | Some n =>
      if negb (n =? "")%string && Js.includes "gemini" n then
        let modelId := replaceFirst "models/" "" n in
        Some (mkModel modelId "model" (now / 1000) "google" modelId)
      else None
  | None => None
  end.

Fixpoint reshapeAll (now : Z) (models : list GoogleModel) : list Model :=
  match models with
  | [] => []
  | m :: rest =>
      match reshape now m with
      | Some x => x :: reshapeAll now rest
      | None => reshapeAll now rest
      end
  end.

Definition handler (method : string) (db : DbReply)
    (fetch : string -> FetchReply) (now : Z) : Z * Body :=
  if negb (method =? "GET")%string then (405, ErrorBody "Method not allowed")
  else
    match db with
    | DbThrows => (200, ListBody [])                      (* catch *)
    | DbResult true _ => (200, ListBody [])
    | DbResult false None => (200, ListBody [])
    | DbResult false (Some []) => (200, ListBody [])
    | DbResult false (Some (apiKey :: _)) =>
        match fetch apiKey with
        | FetchThrows => (200, ListBody [])               (* catch *)
        | FetchResponse false _ => (200, ListBody [])     (* !response.ok *)
        | FetchResponse true None => (200, ListBody [])   (* catch *)
        | FetchResponse true (Some models) =>
            (200, ListBody (reshapeAll now
                              (match models with Some l => l | None => [] end)))
        end
    end.

End Models.

(* ===================================================================== *)
(** ** Specification vocabulary                                           *)
(* ===================================================================== *)

(** The two signals of section 4.5: a 401 code, or a 403 code together
    with a message that mentions neither ["API key"] nor ["API_KEY"]. *)
Definition terminalSignal (e : Js.ErrorObj) : Prop :=
  Js.errorCode e = Js.VNum 401
  \/ (Js.errorCode e = Js.VNum 403
      /\ Js.includes "API key" (Js.messageOf e) = false
      /\ Js.includes "API_KEY" (Js.messageOf e) = false).

(** The same on anything a [catch] can bind: a thrown [null] carries no
    signal at all. *)
Definition carriesTerminalSignal (error : Js.Error) : Prop :=
  match error with
  | Some e => terminalSignal e
  | None => False
  end.

(** [lastError instanceof ApiError] *)
Definition isApiError (error : Js.Error) : bool :=
  match error with
  | Some e => match Js.apiStatus e with Some _ => true | None => false end
  | None => false
  end.

Definition quotaText (m : string) : bool :=
  Js.includes "quota" m || Js.includes "QUOTA_EXCEEDED" m.

Definition invalidKeyText (m : string) : bool :=
  Js.includes "API_KEY_INVALID" m || Js.includes "Invalid API key" m.

Definition emptyText (m : string) : bool := Js.includes "Empty response" m.

(** The selection table of section 4.3. *)
Definition tableStrategy (wantsStream realEnabled fakeEnabled : bool) : Strategy :=
  match wantsStream, realEnabled, fakeEnabled with
  | false, _, _ => handleNonStream
  | true, true, false => handleRealStream
  | true, false, true => handleFakeStream
  | true, false, false => handleNonStream
  | true, true, true => handleRealStream
  end.

(** The strategy the legacy handler ends up calling (see
    [attemptLegacy_single_call]). *)
Definition legacyStrategy (isStream : bool) (cfg : StreamingConfig) : Strategy :=
  if isStream && enabled cfg && fake_stream_enabled cfg then handleFakeStream
  else tableStrategy isStream (enabled cfg) (fake_stream_enabled cfg).

(** How many messages the converter's disguise step changes. *)
Definition mutatedCount (disguiseEnabled : bool) (draw : nat -> nat)
    (ms : list Converter.Message) : nat :=
  List.length
    (filter (fun im =>
               negb (Converter.disguised disguiseEnabled draw
                       (Converter.firstUserMessageIndex ms) (fst im) (snd im)
                     =? Converter.content (snd im))%string)
            (combine (seq 0 (List.length ms)) ms)).

Definition hasUserMessage (ms : list Converter.Message) : bool :=
  existsb (fun m => (Converter.role m =? "user")%string) ms.

(** The role mapping of section 4.2, with the contents left as they are:
    system messages become user turns behind the marker ["System: "],
    user stays user, assistant becomes model, anything else is dropped. *)
Fixpoint plainContents (ms : list Converter.Message) : list Converter.Content :=
  match ms with
  | [] => []
  | m :: rest =>
      if (Converter.role m =? "system")%string
      then Converter.mkContent "user" ("System: " ++ Converter.content m)
           :: plainContents rest
      else if (Converter.role m =? "user")%string
      then Converter.mkContent "user" (Converter.content m) :: plainContents rest
      else if (Converter.role m =? "assistant")%string
      then Converter.mkContent "model" (Converter.content m) :: plainContents rest
      else plainContents rest
  end.

(** The list with [suffix] appended to the content of its [i]-th message. *)
Fixpoint appendAt (i : nat) (suffix : string) (ms : list Converter.Message)
  : list Converter.Message :=
  match ms, i with
  | [], _ => []
  | m :: rest, O =>
      Converter.mkMessage (Converter.role m) (Converter.content m ++ suffix) :: rest
  | m :: rest, S i' => m :: appendAt i' suffix rest
  end.

(** Every step of the current splitter moves forward on this text. *)
Definition advances (fullText : FakeStream.Text) : Prop :=
  forall currentIndex,
    (currentIndex < List.length fullText)%nat ->
    (currentIndex < FakeStream.nextEnd fullText currentIndex)%nat.

(** Sample texts for the splitters. *)
Module Texts.

(** ["Hello, world!!!\n"] *)
Definition hello : FakeStream.Text :=
  [72; 101; 108; 108; 111; 44; 32; 119; 111; 114; 108; 100; 33; 33; 33; 10]%Z.

(** Seventeen times U+4E2D. *)
Definition zhong17 : FakeStream.Text := repeat 20013%Z 17.

(** Ten times U+4E2D, a comma, ten times U+4E2D. *)
Definition zhongComma : FakeStream.Text :=
  (repeat 20013%Z 10 ++ [44%Z] ++ repeat 20013%Z 10)%list.

(** ["ab"] followed by U+1F600 as a surrogate pair. *)
Definition smiley : FakeStream.Text := [97; 98; 55357; 56832]%Z.

End Texts.

Section RunVocabulary.

Context {World : Type}.
Variable attempt : GeminiKey -> Poll World -> Outcome * Poll World.
Variable isStream : bool.

(** [FailedThrough pre st st']: started in [st], the loop attempts every
    key of [pre] in turn, each attempt throws a retryable error, and
    the loop stands in [st'] before the next key. *)
Inductive FailedThrough : list GeminiKey -> Poll World -> Poll World -> Prop :=
| ft_nil : forall st, FailedThrough [] st st
| ft_cons : forall key rest st e st1 st',
    attempt key (enter World key st) = (Thrown e, st1) ->
    isRetryableError e = true ->
    FailedThrough rest (onFailure World isStream key e st1) st' ->
    FailedThrough (key :: rest) st st'.

(** [EndsFailing order pre key e w]: started afresh in world [w], the
    loop over [order] ends without a payload at [key]: the keys before
    it, [pre], each threw a retryable error, and the attempt on [key]
    threw [e], after which the loop stops, [e] being not retryable or
    [key] being the last of [order]. *)
Definition EndsFailing (order pre : list GeminiKey) (key : GeminiKey)
    (e : Js.Error) (w : World) : Prop :=
  exists post st_k st1,
    order = (pre ++ key :: post)%list
    /\ FailedThrough pre (start World w) st_k
    /\ attempt key (enter World key st_k) = (Thrown e, st1)
    /\ (isRetryableError e = true -> post = []).

End RunVocabulary.

(** A small upstream used to exercise the loop: the world counts the
    calls; the key named ["key-3"] answers ["Hello"], every other key is
    out of quota. *)
Module Demo.

Definition quotaError : Js.ErrorObj :=
  Js.mkErr (Some "quota exceeded") "Error: quota exceeded"
           Js.VUndefined (Js.VNum 429) None.

Definition emptyError : Js.ErrorObj :=
  Js.mkErr (Some "Empty response from Gemini API")
           "Error: Empty response from Gemini API"
           Js.VUndefined Js.VUndefined None.

Definition upstream (s : Strategy) (key : GeminiKey) (w : nat)
  : Outcome * nat :=
  if (id key =? "key-3")%string
  then (Returned (Completion "Hello"), S w)
  else (Thrown (Some quotaError), S w).

Definition allEmpty (s : Strategy) (key : GeminiKey) (w : nat)
  : Outcome * nat :=
  (Thrown (Some emptyError), S w).

Definition invalidKeyError : Js.ErrorObj :=
  Js.mkErr (Some "API_KEY_INVALID") "Error: API_KEY_INVALID"
           Js.VUndefined (Js.VNum 400) None.

Definition allInvalid (s : Strategy) (key : GeminiKey) (w : nat)
  : Outcome * nat :=
  (Thrown (Some invalidKeyError), S w).

Definition k1 := mkKey "key-1" "AIza-1".
Definition k2 := mkKey "key-2" "AIza-2".
Definition k3 := mkKey "key-3" "AIza-3".
Definition k4 := mkKey "key-4" "AIza-4".

End Demo.

(** Sample surroundings of the credential pool. *)
Module PoolCases.

Import KeyManager.

(** Storage answers every query with an error; nothing is cached. *)
Definition storageFails : Env :=
  mkEnv false (fun _ => DbError) (KvValue None) false.

(** Storage works and holds no eligible key; nothing is cached. *)
Definition noEligibleKeys : Env :=
  mkEnv false (fun _ => DbData (Some [])) (KvValue None) false.

(** Storage holds one eligible key; nothing is cached. *)
Definition oneKey : Env :=
  mkEnv false (fun _ => DbData (Some [Demo.k1])) (KvValue None) false.

End PoolCases.

(* ===================================================================== *)
(** ** Further sample surroundings                                        *)
(* ===================================================================== *)

(** An upstream on which the key named ["key-2"] is refused with a 401
    and every other key is out of quota. *)
Module Refusing.

Definition unauthorized : Js.ErrorObj :=
  Js.mkErr (Some "API_KEY_INVALID: request is unauthorized")
           "Error: API_KEY_INVALID: request is unauthorized"
           Js.VUndefined (Js.VNum 401) None.

Definition upstream (s : Strategy) (key : GeminiKey) (w : nat)
  : Outcome * nat :=
  if (id key =? "key-2")%string
  then (Thrown (Some unauthorized), S w)
  else (Thrown (Some Demo.quotaError), S w).

End Refusing.

(** The statuses [logStatus] can write into a failure row. *)
Definition failureStatus (sc : Z) : Prop :=
  sc = 429%Z \/ sc = 401%Z \/ sc = 404%Z \/ sc = 500%Z.

(** A row written on the failure path: a failure status and the error
    text. *)
Definition failureRow (row : LogData) : Prop :=
  failureStatus (response_status_code row)
  /\ exists m, error_message row = Some m
               /\ response_status_code row = logStatus m.

(** Every key the loop has entered left exactly one usage update, one
    upstream call and one log row, and the keys entered are an initial
    stretch of the order followed. *)
Definition recordedOnce {World : Type} (order : list GeminiKey)
    (st : Poll World) : Prop :=
  (exists done rest, order = (done ++ rest)%list /\ triedKeys st = map id done)
  /\ usage st = triedKeys st
  /\ map snd (calls st) = triedKeys st
  /\ map gemini_key_id (logs st) = triedKeys st.

(** The rows behind a reply: failure rows only, closed by a single
    success row when the reply is a 200. *)
Definition rowsMatchReply {World : Type} (isStream : bool)
    (r : Reply * Poll World) : Prop :=
  match fst r with
  | Ok200 _ =>
      exists rows key,
        logs (snd r) = (rows ++ [mkLog (id key) 200 isStream None])%list
        /\ Forall failureRow rows
  | Failed _ => Forall failureRow (logs (snd r))
  end.

(** A key id marked invalid goes back to an upstream call on a key of
    the pool that threw a retryable error with invalid-key text. *)
Definition markedForCause {World : Type}
    (upstream : Strategy -> GeminiKey -> World -> Outcome * World)
    (availableKeys : list GeminiKey) (k : string) : Prop :=
  exists s key e w w',
    In key availableKeys /\ id key = k
    /\ upstream s key w = (Thrown e, w')
    /\ isRetryableError e = true
    /\ looksInvalidKey (Js.errorMsg e) = true.

(** The upstream never throws an [ApiError] instance. *)
Definition throwsNoApiError {World : Type}
    (upstream : Strategy -> GeminiKey -> World -> Outcome * World) : Prop :=
  forall s key w e w', upstream s key w = (Thrown e, w') -> isApiError e = false.

Definition statusOf (r : Reply) : Z :=
  match r with
  | Ok200 _ => 200%Z
  | Failed e => statusCode e
  end.

(* ===================================================================== *)
(** ** Delivery strategies of the current edge handler                    *)
(* ===================================================================== *)

Module Edge.

Local Open Scope nat_scope.

Definition Text : Type := FakeStream.Text.

(** What [controller.enqueue] is given.  [Delta] is the serialised
    [convertGeminiStreamToOpenAI({ text }, model)], [Finish] the chunk
    with an empty delta and a [finish_reason]; the [id] and [created]
    stamps of the chunks are not recorded. *)
Inductive Frame : Type :=
| Connected                          (* ': connected\n\n' *)
| Delta (content : Text)
| Finish (finish_reason : string)
| Done.                              (* 'data: [DONE]\n\n' *)

(** [generateContent] followed by [response.text()]. *)
Inductive Generated : Type :=
| GenThrows (e : Js.Error)
| GenText (text : Text).

(** [new Error('Empty response from Gemini API')] *)
Definition emptyResponse : Js.ErrorObj :=
  Js.mkErr (Some "Empty response from Gemini API")
           "Error: Empty response from Gemini API"
           Js.VUndefined Js.VUndefined None.

(** [!text || !text.trim()] *)
Definition isEmpty (text : Text) : bool :=
  match text with
  | [] => true
  | _ => FakeStream.blank text
  end.

(** [handleNonStream], lines 329-375: the content of the completion
    object, or what is thrown. *)
Definition handleNonStream (g : Generated) : Js.Error + Text :=
  match g with
  | GenThrows e => inl e
  | GenText text =>
      if isEmpty text then inl (Some emptyResponse) else inr text
  end.

(** The frames of the fake stream, lines 213-278, with the client
    staying connected; [None] when the splitting loop never ends, so
    that the stream is never closed. *)
Definition fakeFrames (fullText : Text) : option (list Frame) :=
  option_map
    (fun rs =>
       Connected
       :: map Delta (FakeStream.emitted (FakeStream.pieces fullText rs))
       ++ [Finish "stop"; Done])
    (FakeStream.ranges (List.length fullText) fullText 0).

(** [handleFakeStream], lines 185-326. *)
Definition handleFakeStream (g : Generated) : Js.Error + option (list Frame) :=
  match g with
  | GenThrows e => inl e
  | GenText fullText =>
      if isEmpty fullText then inl (Some emptyResponse)
      else inr (fakeFrames fullText)
  end.

(** [generateContentStream]: it throws, or it opens a stream.  A stream
    is the clock reading at [streamStartTime] and, for every round of
    the [for await], the clock reading at the timeout test together with
    what [chunk.text()] gives ([None] when the chunk, or the iterator
    itself, throws). *)
Inductive Opened : Type :=
| OpenThrows (e : Js.Error)
| OpenStream (streamStartTime : Z) (chunks : list (Z * option Text)).

Definition maxStreamDuration : Z := 25000.

(** The texts forwarded by the [for await] loop, lines 83-106. *)
Fixpoint forwarded (streamStartTime : Z) (chunks : list (Z * option Text))
  : list Text :=
  match chunks with
  | [] => []
  | (now, text) :: rest =>
      if (maxStreamDuration <? now - streamStartTime)%Z then []     (* break *)
      else match text with
           | None => []                                   (* catch (streamError) *)
           | Some [] => forwarded streamStartTime rest    (* if (text) *)
           | Some t => t :: forwarded streamStartTime rest
           end
  end.

(** "抱歉，我无法生成回复。请稍后再试。" *)
Definition fallbackText : Text :=
  [25265; 27465; 65292; 25105; 26080; 27861; 29983; 25104; 22238; 22797;
   12290; 35831; 31245; 21518; 20877; 35797; 12290]%Z.

(** The frames of the real stream, lines 72-133, with the client staying
    connected. *)
Definition realFrames (streamStartTime : Z) (chunks : list (Z * option Text))
  : list Frame :=
  let texts := forwarded streamStartTime chunks in
  let hasContent := match texts with [] => false | _ => true end in
  let accumulatedText := List.concat texts in
  Connected
  :: map Delta texts
  ++ (if negb hasContent || FakeStream.blank accumulatedText
      then [Delta fallbackText] else [])
  ++ [Finish "stop"; Done].

(** [handleRealStream], lines 53-182. *)
Definition handleRealStream (o : Opened) : Js.Error + list Frame :=
  match o with
  | OpenThrows e => inl e
  | OpenStream streamStartTime chunks => inr (realFrames streamStartTime chunks)
  end.

(** The text a client reads off a stream: its deltas, in order. *)
Fixpoint contentOf (frames : list Frame) : Text :=
  match frames with
  | [] => []
  | Delta content :: rest => (content ++ contentOf rest)%list
  | _ :: rest => contentOf rest
  end.

(** Every round is inside the time guard and yields its text. *)
Definition undisturbed (streamStartTime : Z) (chunks : list (Z * option Text))
  : Prop :=
  Forall (fun c => (fst c - streamStartTime <= maxStreamDuration)%Z
                   /\ snd c <> None) chunks.

(** The texts the upstream sent, in order. *)
Fixpoint sent (chunks : list (Z * option Text)) : list Text :=
  match chunks with
  | [] => []
  | (_, Some t) :: rest => t :: sent rest
  | (_, None) :: rest => sent rest
  end.

End Edge.

(** A text with its whitespace taken out. *)
Definition unspaced (text : FakeStream.Text) : FakeStream.Text :=
  filter (fun c => negb (FakeStream.isSpace c)) text.

(* ===================================================================== *)
(** ** The credential table and its cache, as [lib/key-manager] uses them *)
(* ===================================================================== *)

Module KeyStore.

(** A row of [gemini_keys], with the columns the dispatch path reads or
    writes. *)
Record Row : Type := mkRow {
  key : GeminiKey;
  is_active : bool;
  is_valid : bool
}.

(** The table, the entry under [CACHE_KEY] in the key-value store, and
    [NODE_ENV === 'development']. *)
Record Store : Type := mkStore {
  rows : list Row;
  cache : option (list GeminiKey);
  development : bool
}.

(** What goes wrong during one call. *)
Record Faults : Type := mkFaults {
  selectErrors : bool;       (* the select answers { error } *)
  kvGetThrows : bool;
  kvSetexThrows : bool
}.

Definition noFaults : Faults := mkFaults false false false.

(** [.select('id, api_key').eq('is_active', true).eq('is_valid', true)] *)
Definition eligible (table : list Row) : list GeminiKey :=
  map key (filter (fun r => is_active r && is_valid r) table).

(** The surroundings [getAllAvailableGeminiKeys] finds. *)
Definition envOf (s : Store) (f : Faults) : KeyManager.Env :=
  KeyManager.mkEnv (development s)
    (fun _ => if selectErrors f then KeyManager.DbError
              else KeyManager.DbData (Some (eligible (rows s))))
    (if kvGetThrows f then KeyManager.KvThrows
     else KeyManager.KvValue (cache s))
    (kvSetexThrows f).

Definition listing (s : Store) (f : Faults)
  : KeyManager.Thrown + list GeminiKey :=
  KeyManager.getAllAvailableGeminiKeys (envOf s f).

(** The store after [getAllAvailableGeminiKeys]: the cache is written by
    [kv.setex] on a miss that found keys, and nowhere else. *)
Definition afterListing (s : Store) (f : Faults) : Store :=
  if development s then s
  else if kvGetThrows f then s
  else match cache s with
       | Some (_ :: _) => s
       | _ =>
           match KeyManager.fetchKeysFromDb (KeyManager.db (envOf s f) 0%nat) with
           | inr (k :: ks) =>
               if kvSetexThrows f then s
               else mkStore (rows s) (Some (k :: ks)) (development s)
           | _ => s
           end
       end.




(** The handler of the admin route for one key: [PUT { id, is_active }]
    writes the flag and leaves the cache alone. *)
Definition setActive (keyId : string) (active : bool) (s : Store) : Store :=
  mkStore
    (map (fun r => if (id (key r) =? keyId)%string
                   then mkRow (key r) active (is_valid r) else r)
         (rows s))
    (cache s) (development s).

End KeyStore.

(* ===================================================================== *)
(** ** Settings ([lib/settings-manager] and the admin settings route)     *)
(* ===================================================================== *)

Module Settings.

(** The [system_settings] rows the code reads and writes, by key; a
    value is the text stored in [setting_value]. *)
Record Table : Type := mkTable {
  streaming_config : option string;
  disguise_enabled : option string
}.

(** What one [select ... .single()] yields. *)
Inductive Lookup : Type :=
| LookupThrows
| LookupError                     (* { error } *)
| LookupNoData                    (* neither error nor data *)
| LookupValue (setting_value : string).

(** A working store: a missing row is an error of [.single()]. *)
Definition read (value : option string) : Lookup :=
  match value with
  | Some v => LookupValue v
  | None => LookupError
  end.

Section Json.

(** [JSON.parse] on a stored streaming configuration: [None] when it
    throws, [Some None] when the parsed value is falsy, otherwise the
    truthiness of the two fields.  [JSON.stringify] is its counterpart
    on writing. *)
Variable parse : string -> option (option StreamingConfig).
Variable stringify : StreamingConfig -> string.

(** [getSystemSetting<StreamingConfig>('streaming_config')] *)
Definition getSystemSetting (l : Lookup) : option StreamingConfig :=
  match l with
  | LookupThrows => None                           (* catch *)
  | LookupError => None
  | LookupNoData => None
  | LookupValue v =>
      match parse v with
      | Some parsed => parsed
      | None => None                               (* catch *)
      end
  end.

Definition defaultConfig : StreamingConfig := mkConfig true false.

(** [getStreamingConfig]: [config || { enabled: true, ... }] *)
Definition getStreamingConfig (l : Lookup) : StreamingConfig :=
  match getSystemSetting l with
  | Some config => config
  | None => defaultConfig
  end.

(** [updateSystemSetting('streaming_config', config, ...)]: the upsert
    either writes the row or answers an error (or throws); the result
    says which. *)
Definition updateStreamingConfig (config : StreamingConfig) (upsertOk : bool)
    (t : Table) : bool * Table :=
  if upsertOk
  then (true, mkTable (Some (stringify config)) (disguise_enabled t))
  else (false, t).

End Json.

(** [getDisguiseEnabled] *)
Definition getDisguiseEnabled (l : Lookup) : bool :=
  match l with
  | LookupThrows => true                           (* catch: default on *)
  | LookupError => true
  | LookupNoData => false                          (* undefined === 'true' *)
  | LookupValue v => (v =? "true")%string
  end.

(** [enabled.toString()] *)
Definition boolToString (b : bool) : string := if b then "true" else "false".

(** [updateDisguiseEnabled] *)
Definition updateDisguiseEnabled (enabled : bool) (upsertOk : bool)
    (t : Table) : bool * Table :=
  if upsertOk
  then (true, mkTable (streaming_config t) (Some (boolToString enabled)))
  else (false, t).

(** The admin settings route, [PUT] branch.  A body field is [Some b]
    when its [typeof] is ['boolean'], [None] otherwise. *)
Record PutBody : Type := mkPutBody {
  put_enabled : option bool;
  put_fake_stream_enabled : option bool;
  put_disguise_enabled : option bool
}.

Inductive PutReply : Type :=
| PutOk (enabled fake_stream_enabled disguise : bool)       (* 200 *)
| PutError (status : Z) (message : string).

Section Put.

Variable stringify : StreamingConfig -> string.

Definition handlePut (body : PutBody) (streamingUpsertOk disguiseUpsertOk : bool)
    (t : Table) : PutReply * Table :=
  match put_enabled body with
  | None => (PutError 400 "enabled must be a boolean", t)
  | Some enabled =>
      match put_fake_stream_enabled body with
      | None => (PutError 400 "fake_stream_enabled must be a boolean", t)
      | Some fake =>
          match put_disguise_enabled body with
          | None => (PutError 400 "disguise_enabled must be a boolean", t)
          | Some disguise =>
              if enabled && fake
              then (PutError 400 "真实流式传输和伪装流式传输不能同时启用", t)
              else
                let (streamingSuccess, t1) :=
                  updateStreamingConfig stringify (mkConfig enabled fake)
                                        streamingUpsertOk t in
                let (disguiseSuccess, t2) :=
                  updateDisguiseEnabled disguise disguiseUpsertOk t1 in
                if negb streamingSuccess || negb disguiseSuccess
                then (PutError 500 "Failed to update configuration", t2)
                else (PutOk enabled fake disguise, t2)
          end
      end
  end.

End Put.

End Settings.

(* ===================================================================== *)
(** ** Errors ([lib/config]) and the front of the current edge handler    *)
(* ===================================================================== *)

Module Config.

Definition quote : string := String (ascii_of_nat 34) EmptyString.

(** [ERROR_MESSAGES[statusCode]]: the type and the message, when the
    status is in the table. *)
Definition ERROR_MESSAGES (statusCode : Z) : option (string * string) :=
  if (statusCode =? 401)%Z then
    Some ("invalid_api_key", "你这调用密钥不对，我很难帮你办事啊~")
  else if (statusCode =? 429)%Z then
    Some ("rate_limit_exceeded",
          "您已触发" ++ quote ++ "激情调用" ++ quote
          ++ "模式，请冷静。我们已为您启动强制冷却系统，稍后再试。")
  else if (statusCode =? 500)%Z then
    Some ("internal_error",
          "要么是你网络问题，要么是你发的请求有问题，反正Google不理你咯")
  else if (statusCode =? 503)%Z then
    Some ("no_available_keys",
          "弹尽粮绝！我们所有的Gemini Key都在休息或已被封印。等刷新额度吧！555~")
  else if (statusCode =? 400)%Z then
    Some ("invalid_request_body",
          "请求参数好像不太对劲，再看一眼，不行，AI真看不懂")
  else if (statusCode =? 403)%Z then
    Some ("gemini_api_key_invalid",
          "你提供的某个Gemini Key被Google封印了，它现在只是一串无用的字符。快去后台检查一下吧！")
  else None.

(** [new ApiError(statusCode, message)]:
    [message || errorConfig?.message || 'Unknown error'] *)
Definition newApiError (statusCode : Z) (message : option string) : ApiError :=
  let fromTable :=
    match ERROR_MESSAGES statusCode with
    | Some (_, m) => Js.strOr m "Unknown error"
    | None => "Unknown error"
    end in
  mkApiError statusCode
    (match message with
     | Some m => Js.strOr m fromTable
     | None => fromTable
     end).

(** [this.type = errorConfig?.type || 'unknown_error'] *)
Definition typeOf (e : ApiError) : string :=
  match ERROR_MESSAGES (statusCode e) with
  | Some (t, _) => Js.strOr t "unknown_error"
  | None => "unknown_error"
  end.

End Config.

Module Front.

(** What the [access_keys] query yields. *)
Inductive AccessReply : Type :=
| AccessThrows
| AccessResult (error : bool) (data : option string).

(** [validateAccessKey] of the key manager. *)
Definition validateAccessKey (apiKey : string)
    (query : string -> AccessReply) : option string :=
  if (apiKey =? "")%string || negb (String.prefix "sk-" apiKey) then None
  else match query apiKey with
       | AccessThrows => None                        (* catch *)
       | AccessResult true _ => None
       | AccessResult false None => None
       | AccessResult false (Some accessKeyId) => Some accessKeyId
       end.

(** [requestBody.messages], by what the handlers can do with it. *)
Inductive Messages : Type :=
| MessagesFalsy      (* absent, [null], [false], [0] or the empty string *)
| MessagesText       (* a string that is not empty *)
| MessagesOpaque     (* a number other than 0, [true] or a plain object *)
| MessagesArray (elements : list (option Converter.Message)).
                     (* an array; [None] is a [null] element *)

(** The elements of an array when none of them is [null]: reading the
    [role] of a [null] element throws a [TypeError].  An element without
    a [role] is a message of an unknown role. *)
Fixpoint allPresent (elements : list (option Converter.Message))
  : option (list Converter.Message) :=
  match elements with
  | [] => Some []
  | Some m :: rest =>
      match allPresent rest with
      | Some ms => Some (m :: ms)
      | None => None
      end
  | None :: _ => None
  end.

(** Lines 426-441 of the current edge handler, up to the tag:
    [[...(requestBody.messages || [])]], then [lastMessage.role] and the
    [msg.role] of every element in the converter.  [None] is a
    [TypeError].  A string is spread into its characters, which have no
    [role] and are all dropped by the converter, as if there were no
    message. *)
Definition edgeMessages (m : Messages) : option (list Converter.Message) :=
  match m with
  | MessagesFalsy => Some []
  | MessagesText => Some []
  | MessagesOpaque => None                         (* not iterable *)
  | MessagesArray elements => allPresent elements
  end.

(** The serverless handler hands [requestBody] to the converter as it
    is: [messages.findIndex] and [messages.map] exist on arrays only. *)
Definition serverlessMessages (m : Messages)
  : option (list Converter.Message) :=
  match m with
  | MessagesArray elements => allPresent elements
  | _ => None
  end.

(** The fields of the parsed body the handler reads; [stream] is the
    truthiness of [requestBody.stream].  A body that is a number, a
    string or a boolean has none of the fields. *)
Record RequestBody : Type := mkBody {
  model : option string;
  stream : bool;
  messages : Messages;
  max_tokens : option Q;
  temperature : option Q
}.

(** [await request.json()]: it throws, it gives [null], or it gives a
    value whose fields can be read. *)
Inductive Body : Type :=
| BodyThrows
| BodyNull
| BodyValue (requestBody : RequestBody).

Record Request : Type := mkRequest {
  method : string;
  authorization : option string;
  body : Body
}.

Section Handler.

Variable World : Type.

(** Everything the handler consults besides the request. *)
Record Env : Type := mkEnv {
  accessQuery : string -> AccessReply;
  parse : string -> option (option StreamingConfig);
  streamingLookup : Settings.Lookup;
  pool : KeyManager.Env;
  disguiseLookup : Settings.Lookup;
  draw : nat -> nat;
  tag : string;
  coin : nat -> bool;
  provider : Converter.GeminiRequest -> string -> Strategy -> GeminiKey
             -> World -> Outcome * World
}.

(** [authHeader.substring(7)] *)
Definition substringFrom (n : nat) (s : string) : string :=
  String.substring n (String.length s - n) s.

Definition refuse (statusCode : Z) (message : option string) (w : World)
  : Reply * Poll World :=
  (Failed (Config.newApiError statusCode message), start World w).

(** The current edge handler, lines 377-612. *)
Definition handler (env : Env) (request : Request) (w : World)
  : Reply * Poll World :=
  if negb (method request =? "POST")%string
  then refuse 405 (Some "Method not allowed") w
  else
    match authorization request with
    | None => refuse 401 None w
    | Some authHeader =>
        if (authHeader =? "")%string
           || negb (String.prefix "Bearer " authHeader)
        then refuse 401 None w
        else
          match validateAccessKey (substringFrom 7 authHeader)
                                  (accessQuery env) with
          | None => refuse 401 None w
          | Some accessKeyId =>
              if (accessKeyId =? "")%string then refuse 401 None w
              else
                match body request with
                | BodyThrows => refuse 400 None w
                | parsed =>
                    let streamingConfig :=
                      Settings.getStreamingConfig (parse env)
                                                  (streamingLookup env) in
                    match KeyManager.getAllAvailableGeminiKeys (pool env) with
                    | inl (KeyManager.ThrownApiError sc) => refuse sc None w
                    | inl KeyManager.ThrownOther => refuse 500 None w
                    | inr availableKeys =>
                        match parsed with
                        | BodyValue requestBody =>
                            let model :=
                              match model requestBody with
                              | Some m => Js.strOr m "gemini-pro"
                              | None => "gemini-pro"
                              end in
                            let isStream := stream requestBody in
                            match edgeMessages (messages requestBody) with
                            | None => refuse 500 None w     (* TypeError *)
                            | Some originalMessages =>
                                let geminiRequest :=
                                  Converter.edgeRequest
                                    (Settings.getDisguiseEnabled
                                       (disguiseLookup env))
                                    (draw env) (tag env)
                                    (Converter.mkRequest originalMessages
                                       (max_tokens requestBody)
                                       (temperature requestBody)) in
                                handlerEdge World
                                  (provider env geminiRequest model)
                                  (coin env) isStream streamingConfig
                                  availableKeys w
                            end
                        | _ => refuse 500 None w   (* [null].model: TypeError *)
                        end
                    end
                end
          end
    end.

(** The request passes every check in front of the loop, and its
    messages can be read. *)
Definition accepted (env : Env) (request : Request) : Prop :=
  method request = "POST"
  /\ exists apiKey accessKeyId requestBody availableKeys,
       authorization request = Some ("Bearer " ++ apiKey)
       /\ String.prefix "sk-" apiKey = true
       /\ accessQuery env apiKey = AccessResult false (Some accessKeyId)
       /\ accessKeyId <> ""
       /\ body request = BodyValue requestBody
       /\ KeyManager.getAllAvailableGeminiKeys (pool env) = inr availableKeys
       /\ edgeMessages (messages requestBody) <> None.

End Handler.

End Front.

(** Sample surroundings of the handler: one access key, one eligible
    Gemini key, settings that cannot be read. *)
Module FrontCases.

Definition env : Front.Env nat :=
  Front.mkEnv nat
    (fun apiKey => if (apiKey =? "sk-good")%string
                   then Front.AccessResult false (Some "access-1")
                   else Front.AccessResult false None)
    (fun _ => None) Settings.LookupError
    PoolCases.oneKey
    (Settings.LookupValue "false") (fun _ => 0%nat) "req_1_a" (fun _ => false)
    (fun _ _ => Demo.upstream).

Definition hello : Front.RequestBody :=
  Front.mkBody (Some "gemini-pro") false
    (Front.MessagesArray [Some (Converter.mkMessage "user" "hi")]) None None.

Definition good : Front.Request :=
  Front.mkRequest "POST" (Some "Bearer sk-good") (Front.BodyValue hello).

Definition wrongPrefix : Front.Request :=
  Front.mkRequest "POST" (Some "Bearer AIza-1") (Front.BodyValue hello).

(** A body that parses and whose only message is [null]. *)
Definition nullMessage : Front.Request :=
  Front.mkRequest "POST" (Some "Bearer sk-good")
    (Front.BodyValue
       (Front.mkBody (Some "gemini-pro") false
          (Front.MessagesArray [None]) None None)).

(** The body [null], with no key left in the pool. *)
Definition emptyPool : Front.Env nat :=
  Front.mkEnv nat
    (Front.accessQuery nat env)
    (fun _ => None) Settings.LookupError
    PoolCases.noEligibleKeys
    (Settings.LookupValue "false") (fun _ => 0%nat) "req_1_a" (fun _ => false)
    (fun _ _ => Demo.upstream).

Definition nullBody : Front.Request :=
  Front.mkRequest "POST" (Some "Bearer sk-good") Front.BodyNull.

End FrontCases.

(** ASCII letters and digits. *)
Definition isAlnum (c : ascii) : bool :=
  let n := nat_of_ascii c in
  ((48 <=? n) && (n <=? 57) || (65 <=? n) && (n <=? 90)
   || (97 <=? n) && (n <=? 122))%nat.

Fixpoint allChars (p : ascii -> bool) (s : string) : bool :=
  match s with
  | EmptyString => true
  | String c rest => p c && allChars p rest
  end.

(** The roles the converter knows, and what it makes of them. *)
Definition knownRole (m : Converter.Message) : bool :=
  (Converter.role m =? "system")%string || (Converter.role m =? "user")%string
  || (Converter.role m =? "assistant")%string.

Definition upstreamRole (m : Converter.Message) : string :=
  if (Converter.role m =? "assistant")%string then "model" else "user".

(* ===================================================================== *)
(** ** Call log retention ([lib/logging])                                 *)
(* ===================================================================== *)

Module Logging.

Local Open Scope nat_scope.

(** A row of [call_logs]: its primary key and its timestamp in
    milliseconds. *)
Record Row : Type := mkRow {
  rowId : nat;
  timestamp : Z
}.

(** How a database operation ends: done, answered with an error (which
    [logApiCall] never looks at), or a rejected promise. *)
Inductive Op : Type :=
| OpDone
| OpError
| OpThrows.

Record Faults : Type := mkFaults {
  insertOp : Op;
  selectOp : Op;
  deleteOp : Op
}.

Definition noFaults : Faults := mkFaults OpDone OpDone OpDone.

(** [.range(from, to)]: the rows at positions [from] to [to], both
    included. *)
Definition range (from to : nat) (l : list Row) : list Row :=
  firstn (S to - from) (skipn from l).

(** [.in('id', idsToDelete)] *)
Definition inIds (ids : list nat) (r : Row) : bool :=
  existsb (Nat.eqb (rowId r)) ids.

(** One ordering by descending timestamp: rows of equal timestamp stay
    in the order of the table. *)
Fixpoint insertNewest (r : Row) (sorted : list Row) : list Row :=
  match sorted with
  | [] => [r]
  | x :: rest =>
      if (timestamp x <? timestamp r)%Z then r :: x :: rest
      else x :: insertNewest r rest
  end.

Fixpoint newestFirst (table : list Row) : list Row :=
  match table with
  | [] => []
  | r :: rest => insertNewest r (newestFirst rest)
  end.

Section Log.

Variable MAX_LOG_COUNT : nat.

(** [.order('timestamp', { ascending: false })] as the database resolves
    it, ties included. *)
Variable ordered : list Row -> list Row.

(** The rows the cleanup selects. *)
Definition oldLogs (table : list Row) : list Row :=
  range MAX_LOG_COUNT (MAX_LOG_COUNT + 100) (ordered table).

(** [logApiCall] on the table: the row is inserted, then the rows at
    positions [MAX_LOG_COUNT .. MAX_LOG_COUNT + 100] of the ordered
    table are deleted by id. *)
Definition logApiCall (faults : Faults) (newRow : Row) (table : list Row)
  : list Row :=
  match insertOp faults with
  | OpThrows => table                                        (* catch *)
  | inserted =>
      let table1 :=
        match inserted with
        | OpDone => newRow :: table
        | _ => table
        end in
      match selectOp faults with
      | OpThrows => table1                                   (* catch *)
      | OpError => table1                                    (* data: null *)
      | OpDone =>
          if 0 <? List.length (oldLogs table1) then
            let idsToDelete := map rowId (oldLogs table1) in
            match deleteOp faults with
            | OpDone => filter (fun r => negb (inIds idsToDelete r)) table1
            | _ => table1
            end
          else table1
      end
  end.

End Log.

(** A table of five rows and a sixth to come. *)
Definition sample : list Row :=
  [mkRow 1 10; mkRow 2 20; mkRow 3 30; mkRow 4 40; mkRow 5 50].

Definition incoming : Row := mkRow 6 60.

End Logging.

(* ===================================================================== *)
(** ** Quota period ([getRefreshPeriodRange], admin key listing)          *)
(* ===================================================================== *)

Module RefreshPeriod.

Local Open Scope Z_scope.

(** A [Date] is its time value: milliseconds since the epoch. *)
Definition hour : Z := 60 * 60 * 1000.
Definition day : Z := 24 * hour.

Definition getUTCHours (t : Z) : Z := (t / hour) mod 24.

(** [d.setUTCHours(h, m, s, ms)]: the same UTC day, the given time. *)
Definition setUTCHours (h m s ms : Z) (t : Z) : Z :=
  t - t mod day + h * hour + m * 60000 + s * 1000 + ms.

(** [d.setUTCDate(d.getUTCDate() + n)]: [n] days later, same time. *)
Definition shiftUTCDate (n : Z) (t : Z) : Z := t + n * day.

(** [getRefreshPeriodRange] at the instant [now]: the two ends it
    returns, as time values. *)
Definition getRefreshPeriodRange (now : Z) : Z * Z :=
  let shanghaiTime := now + 8 * 60 * 60 * 1000 in
  let (startTime, endTime) :=
    if getUTCHours shanghaiTime <? 14 then
      (setUTCHours 14 0 0 0 (shiftUTCDate (-1) shanghaiTime),
       setUTCHours 13 59 59 999 shanghaiTime)
    else
      (setUTCHours 14 0 0 0 shanghaiTime,
       setUTCHours 13 59 59 999 (shiftUTCDate 1 shanghaiTime)) in
  (startTime - 8 * 60 * 60 * 1000, endTime - 8 * 60 * 60 * 1000).

End RefreshPeriod.

(* ===================================================================== *)
(** ** The serverless handler in front of its loop                        *)
(* ===================================================================== *)

Module Serverless.

(** What the handler sends: the empty 200 of a preflight, the edge
    function's response passed on, or a response of its own. *)
Inductive Answer : Type :=
| Preflight
| Relayed (r : Reply)
| Local (r : Reply).

Section Handler.

Variable World : Type.

Definition refuse (statusCode : Z) (message : option string) (w : World)
  : Answer * Poll World :=
  (Local (Failed (Config.newApiError statusCode message)), start World w).

(** What [fetch(edgeUrl, ...)] carries to the edge function: a POST with
    the caller's authorization and the body serialised again. *)
Definition forwarded (request : Front.Request)
    (requestBody : Front.RequestBody) : Front.Request :=
  Front.mkRequest "POST"
    (Some (match Front.authorization request with
           | Some a => Js.strOr a ""
           | None => ""
           end))
    (Front.BodyValue requestBody).

(** Lines 246-362: the pool, the conversion, the loop. *)
Definition serveLocally (env : Front.Env World)
    (requestBody : Front.RequestBody) (w : World) : Answer * Poll World :=
  match KeyManager.getAllAvailableGeminiKeys (Front.pool World env) with
  | inl (KeyManager.ThrownApiError sc) => refuse sc None w
  | inl KeyManager.ThrownOther => refuse 500 None w
  | inr availableKeys =>
      let model :=
        match Front.model requestBody with
        | Some m => Js.strOr m "gemini-pro"
        | None => "gemini-pro"
        end in
      match Front.serverlessMessages (Front.messages requestBody) with
      | None => refuse 500 None w            (* TypeError, outer catch *)
      | Some messages =>
          let geminiRequest :=
            Converter.convertOpenAItoGemini
              (Settings.getDisguiseEnabled (Front.disguiseLookup World env))
              (Front.draw World env)
              (Converter.mkRequest messages
                 (Front.max_tokens requestBody)
                 (Front.temperature requestBody)) in
          let (r, st) :=
            handlerServerless World
              (Front.provider World env geminiRequest model)
              (Front.stream requestBody) availableKeys w in
          (Local r, st)
      end
  end.

(** The handler, lines 133-383.  [edgeReachable] tells whether the
    request sent on to the edge function comes back; the edge function
    is the current edge handler, run against the same stores. *)
Definition handler (env : Front.Env World) (edgeReachable : bool)
    (request : Front.Request) (w : World) : Answer * Poll World :=
  if (Front.method request =? "OPTIONS")%string then (Preflight, start World w)
  else if negb (Front.method request =? "POST")%string
  then refuse 405 (Some "Method not allowed") w
  else
    match Front.authorization request with
    | None => refuse 401 None w
    | Some authHeader =>
        if (authHeader =? "")%string
           || negb (String.prefix "Bearer " authHeader)
        then refuse 401 None w
        else
          match Front.validateAccessKey (Front.substringFrom 7 authHeader)
                                        (Front.accessQuery World env) with
          | None => refuse 401 None w
          | Some accessKeyId =>
              if (accessKeyId =? "")%string then refuse 401 None w
              else
                match Front.body request with
                | Front.BodyThrows => refuse 400 None w
                | Front.BodyNull => refuse 500 None w
                | Front.BodyValue requestBody =>
                    if Front.stream requestBody
                       && enabled (Settings.getStreamingConfig
                                     (Front.parse World env)
                                     (Front.streamingLookup World env))
                       && edgeReachable
                    then
                      let (r, st) :=
                        Front.handler World env
                          (forwarded request requestBody) w in
                      (Relayed r, st)
                    else serveLocally env requestBody w
                end
          end
    end.

End Handler.

Definition streamingOn : string -> option (option StreamingConfig) :=
  fun _ => Some (Some (mkConfig true true)).

(** The sample surroundings with both streaming flags switched on. *)
Definition env : Front.Env nat :=
  Front.mkEnv nat
    (Front.accessQuery nat FrontCases.env)
    streamingOn (Settings.LookupValue "both")
    PoolCases.oneKey
    (Settings.LookupValue "false") (fun _ => 0%nat) "req_1_a" (fun _ => false)
    (fun _ _ => Demo.upstream).

Definition streamed : Front.Request :=
  Front.mkRequest "POST" (Some "Bearer sk-good")
    (Front.BodyValue
       (Front.mkBody (Some "gemini-pro") true
          (Front.MessagesArray [Some (Converter.mkMessage "user" "hi")])
          None None)).

End Serverless.

(* ===================================================================== *)
(** ** The serverless handler streaming ([callGeminiWithKey])             *)
(* ===================================================================== *)

Module ServerlessStream.

(** What [generateContentStream] gives for one key: a rejected promise,
    or a stream that yields chunk texts and then ends or throws. *)
Inductive Sdk : Type :=
| SdkRejects (e : Js.Error)
| SdkStream (texts : list string) (breaks : option Js.Error).

(** The response object of the handler: whether the head is out, the
    frames written to the body, whether the body was ended. *)
Record Res : Type := mkRes {
  headersSent : bool;
  written : list string;
  ended : bool
}.

Definition fresh : Res := mkRes false [] false.

(** ['data: [DONE]\n\n'] *)
Definition done : string :=
  "data: [DONE]" ++ String (ascii_of_nat 10) (String (ascii_of_nat 10) "").

Section Stream.

Variable World : Type.

(** The SDK call with a key; [sse] is the frame written for a chunk
    text; [headersAlreadySent] is what [res.writeHead] throws once the
    head is out. *)
Variable sdk : GeminiKey -> World -> Sdk * World.
Variable sse : string -> string.
Variable headersAlreadySent : Js.Error.

(** [callGeminiWithKey] with [isStream], lines 75-98 and 127-130. *)
Definition callGeminiWithKey (key : GeminiKey) (state : World * Res)
  : Outcome * (World * Res) :=
  let (answer, w) := sdk key (fst state) in
  let res := snd state in
  match answer with
  | SdkRejects e => (Thrown e, (w, res))
  | SdkStream texts breaks =>
      if headersSent res then (Thrown headersAlreadySent, (w, res))
      else
        let frames := map sse (filter (fun t => negb (t =? "")%string) texts) in
        match breaks with
        | Some e => (Thrown e, (w, mkRes true frames false))
        | None =>
            (Returned (EventStream (frames ++ [done])),
             (w, mkRes true (frames ++ [done]) true))
        end
  end.

(** The handler on a streaming request, from the point where the keys
    have been listed. *)
Definition handler (availableKeys : list GeminiKey) (w : World)
  : Reply * Poll (World * Res) :=
  handlerServerless (World * Res) (fun _ => callGeminiWithKey) true
                    availableKeys (w, fresh).

(** What has reached the client when the handler is through: the reply,
    or, the head being out already, status 200 and the frames written,
    whatever the handler tries to answer afterwards. *)
Inductive Delivered : Type :=
| Answered (r : Reply)
| Streamed (statusCode : Z) (frames : list string) (complete : bool).

Definition delivered (r : Reply * Poll (World * Res)) : Delivered :=
  let res := snd (world (snd r)) in
  if headersSent res then Streamed 200 (written res) (ended res)
  else Answered (fst r).

End Stream.

(** A stream that breaks after two chunks on the first key; the second
    key would stream. *)
Definition network : Js.ErrorObj :=
  Js.mkErr (Some "fetch failed") "TypeError: fetch failed"
           Js.VUndefined Js.VUndefined None.

Definition headersError : Js.ErrorObj :=
  Js.mkErr (Some "Cannot write headers after they are sent to the client")
           "Error [ERR_HTTP_HEADERS_SENT]: Cannot write headers after they are sent to the client"
           (Js.VStr "ERR_HTTP_HEADERS_SENT") Js.VUndefined None.

Definition breaking (key : GeminiKey) (w : nat) : Sdk * nat :=
  if (id key =? "key-1")%string
  then (SdkStream ["Hel"; "lo"] (Some (Some network)), S w)
  else (SdkStream ["Hello"] None, S w).

Definition frame (text : string) : string := "data: " ++ text.

End ServerlessStream.

(* ===================================================================== *)
(** ** Admin routes: key test, session, access keys, retries              *)
(* ===================================================================== *)

(** The key test route ([POST /api/admin/test-keys]). *)
Module KeyTest.

(** What the test call to the upstream gives: a response with its status
    and the [error.message] of its body, or a rejected [fetch] with the
    message of the error when it is an [Error]. *)
Inductive Probe : Type :=
| ProbeResponse (status : Z) (errorMessage : option string)
| ProbeThrows (message : option string).

Record TestResult : Type := mkResult {
  keyId : string;
  success : bool;
  statusCode : Z;
  errorMessage : string
}.

(** [response.ok] *)
Definition ok (status : Z) : bool := ((200 <=? status) && (status <=? 299))%Z.

Definition testKey (probe : GeminiKey -> Probe) (k : GeminiKey) : TestResult :=
  match probe k with
  | ProbeResponse status m =>
      if ok status then mkResult (id k) true status ""
      else
        let http := "HTTP " ++ natToString (Z.to_nat status) in
        mkResult (id k) false status
          (match m with
           | Some s => Js.strOr s http
           | None => http
           end)
  | ProbeThrows m =>
      mkResult (id k) false 500
        (match m with
         | Some s => s
         | None => "Network error"
         end)
  end.

(** [.update({ ..., is_valid: success }).eq('id', key.id)] *)
Definition setValid (keyId : string) (valid : bool) (table : list KeyStore.Row)
  : list KeyStore.Row :=
  map (fun r => if (id (KeyStore.key r) =? keyId)%string
                then KeyStore.mkRow (KeyStore.key r) (KeyStore.is_active r) valid
                else r)
      table.

(** The bookkeeping after one test; [written] tells whether the update
    of this key goes through. *)
Definition record (written : string -> bool) (table : list KeyStore.Row)
    (r : TestResult) : list KeyStore.Row :=
  if written (keyId r) then setValid (keyId r) (success r) table else table.

Inductive Reply : Type :=
| MethodNotAllowed                                            (* 405 *)
| FetchFailed                                                 (* 500 *)
| Summary (total succeeded failed : nat) (results : list TestResult).

Definition countIf (p : TestResult -> bool) (l : list TestResult) : nat :=
  List.length (filter p l).

Definition handler (method : string) (selectErrors : bool)
    (probe : GeminiKey -> Probe) (written : string -> bool)
    (s : KeyStore.Store) : Reply * KeyStore.Store :=
  if negb (method =? "POST")%string then (MethodNotAllowed, s)
  else if selectErrors then (FetchFailed, s)
  else
    let keys := map KeyStore.key (filter KeyStore.is_active (KeyStore.rows s)) in
    match keys with
    | [] => (Summary 0 0 0 [], s)
    | _ =>
        let results := map (testKey probe) keys in
        (Summary (List.length keys)
                 (countIf success results)
                 (countIf (fun r => negb (success r)) results)
                 results,
         KeyStore.mkStore (fold_left (record written) results (KeyStore.rows s))
                          (KeyStore.cache s) (KeyStore.development s))
    end.

(** What a test whose updates all go through makes of a row: an active
    row gets the verdict of its test, an inactive one is left alone. *)
Definition retested (probe : GeminiKey -> Probe) (r : KeyStore.Row)
  : KeyStore.Row :=
  if KeyStore.is_active r
  then KeyStore.mkRow (KeyStore.key r) true
                      (success (testKey probe (KeyStore.key r)))
  else r.

Definition passes (probe : GeminiKey -> Probe) (k : GeminiKey) : bool :=
  success (testKey probe k).

(** A pool of three: one valid, one marked invalid, one switched off. *)
Definition pool : KeyStore.Store :=
  KeyStore.mkStore
    [KeyStore.mkRow (mkKey "key-1" "AIza-1") true true;
     KeyStore.mkRow (mkKey "key-2" "AIza-2") true false;
     KeyStore.mkRow (mkKey "key-3" "AIza-3") false true]
    None false.

(** The upstream accepts the second key and refuses the first. *)
Definition probe (k : GeminiKey) : Probe :=
  if (id k =? "key-1")%string then ProbeResponse 400 (Some "API key not valid")
  else ProbeResponse 200 None.

End KeyTest.

(** The admin session: [middleware], the login route and the logout
    route. *)
Module Session.







End Session.

(** The access keys route and [validateAccessKey] over the same table. *)
Module AccessKeys.

Record Row : Type := mkRow {
  rowId : string;
  lpb_key : string;
  is_active : bool
}.

(** [.eq('lpb_key', apiKey).eq('is_active', true).single()]: one row, or
    an error when there are none or several. *)
Definition query (table : list Row) (apiKey : string) : Front.AccessReply :=
  match filter (fun r => (lpb_key r =? apiKey)%string && is_active r) table with
  | [r] => Front.AccessResult false (Some (rowId r))
  | _ => Front.AccessResult true None
  end.

Definition validateAccessKey (table : list Row) (apiKey : string)
  : option string :=
  Front.validateAccessKey apiKey (query table).

(** [POST { lpb_key }]: the format check, then the insert, which the
    unique constraint on [lpb_key] refuses for a key already there;
    [fresh] is the id the database generates. *)
Definition post (key : option string) (fresh : string) (insertFails : bool)
    (table : list Row) : Z * list Row :=
  match key with
  | None => (400%Z, table)
  | Some k =>
      if (k =? "")%string || negb (String.prefix "sk-" k) then (400%Z, table)
      else if existsb (fun r => (lpb_key r =? k)%string) table
      then (400%Z, table)                                   (* 23505 *)
      else if insertFails then (500%Z, table)
      else (201%Z, (table ++ [mkRow fresh k true])%list)
  end.

(** [PUT { id, is_active }]: [.single()] makes an update that touches no
    row, or several, an error. *)
Definition put (keyId : string) (active : bool) (table : list Row)
  : Z * list Row :=
  let table' :=
    map (fun r => if (rowId r =? keyId)%string
                  then mkRow (rowId r) (lpb_key r) active else r) table in
  match filter (fun r => (rowId r =? keyId)%string) table with
  | [_] => (200%Z, table')
  | _ => (500%Z, table')
  end.

(** [DELETE { id }] *)
Definition delete (keyId : option string) (deleteFails : bool)
    (table : list Row) : Z * list Row :=
  match keyId with
  | None => (400%Z, table)
  | Some i =>
      if (i =? "")%string then (400%Z, table)
      else if deleteFails then (500%Z, table)
      else (200%Z, filter (fun r => negb (rowId r =? i)%string) table)
  end.

Definition seeded : list Row := [mkRow "id-0" "sk-laopobao12345" true].

End AccessKeys.

(** [retryOperation] of the dashboard route. *)
Module Retry.

Section Retry.

Variable World : Type.
Variable T : Type.

(** One run of [operation]: it returns a value or throws. *)
Variable operation : World -> (T + Js.Error) * World.

(** The world, how often [operation] has run, and the delays slept. *)
Record Run : Type := mkRun {
  world : World;
  attempts : nat;
  waits : list nat
}.

(** The [for] loop from index [i], [remaining] being [maxRetries - i];
    it ends with the value returned or with [lastError] thrown. *)
Fixpoint retryFrom (maxRetries delay : nat) (remaining i : nat)
    (lastError : Js.Error) (st : Run) : (T + Js.Error) * Run :=
  match remaining with
  | O => (inr lastError, st)                              (* throw lastError! *)
  | S rest =>
      match operation (world st) with
      | (inl v, w) => (inl v, mkRun w (S (attempts st)) (waits st))
      | (inr error, w) =>
          retryFrom maxRetries delay rest (S i) error
            (mkRun w (S (attempts st))
               (if (i <? maxRetries - 1)%nat
                then (waits st ++ [delay * (i + 1)])%list
                else waits st))
      end
  end.

Definition retryOperation (maxRetries delay : nat) (w : World)
  : (T + Js.Error) * Run :=
  retryFrom maxRetries delay maxRetries 0 None (mkRun w 0 []).

End Retry.

Arguments world {World}.
Arguments attempts {World}.
Arguments waits {World}.

(** The delays [delay * 1], ..., [delay * n]. *)
Definition backoff (delay n : nat) : list nat :=
  map (fun i => delay * (i + 1))%nat (seq 0 n).

(** A database that answers on the third query. *)
Definition thirdTime (w : nat) : (string + Js.Error) * nat :=
  if (w <? 2)%nat then (inr None, S w) else (inl "rows", S w).

End Retry.


(* ===================================================================== *)
(** ** Retryability (C3)                                                  *)
(* ===================================================================== *)

Lemma strictEqNum_spec (v : Js.Val) (n : Z) :
  Js.strictEqNum v n = true <-> v = Js.VNum n.
Proof.
  destruct v as [ | m | s]; simpl; split; intro H; try discriminate.
  - apply Z.eqb_eq in H. now subst.
  - inversion H. apply Z.eqb_refl.
Qed.

Lemma isRetryableError_false_iff (e : Js.ErrorObj) :
  isRetryableError (Some e) = false <-> terminalSignal e.
Proof.
  unfold isRetryableError, terminalSignal.
  destruct (Js.strictEqNum (Js.errorCode e) 401) eqn:H401.
  - apply strictEqNum_spec in H401. split; auto.
  - destruct (Js.strictEqNum (Js.errorCode e) 403) eqn:H403; simpl.
    + apply strictEqNum_spec in H403.
      destruct (Js.includes "API key" (Js.messageOf e)) eqn:Hk; simpl.
      * split; [discriminate|].
        intros [H | (_ & H & _)]; [rewrite H in H403|]; discriminate.
      * destruct (Js.includes "API_KEY" (Js.messageOf e)) eqn:HK; simpl.
        -- split; [discriminate|].
           intros [H | (_ & _ & H)]; [rewrite H in H403|]; discriminate.
        -- split; auto.
    + split; [discriminate|].
      intros [H | (H & _)];
        apply strictEqNum_spec in H; congruence.
Qed.

(** C3, as stated, fails: a thrown [null] is classified non-retryable by
    the guard [if (!error) return false] although it carries neither a
    401 nor a 403 code. *)
Lemma null_error_not_retryable :
  isRetryableError None = false /\ ~ carriesTerminalSignal None.
Proof. split; [reflexivity | simpl; tauto]. Qed.

(** C3 (amended): for every thrown error object, the classifier answers
    non-retryable exactly when the object carries a 401 code, or a 403
    code with a message mentioning neither "API key" nor "API_KEY"; any
    other thrown object is retryable, and the loop then goes on with the
    remaining candidates. *)
Theorem retryable_unless_terminal_signal :
  forall (World : Type)
         (attempt : GeminiKey -> Poll World -> Outcome * Poll World)
         (isStream : bool) (key : GeminiKey) (rest : list GeminiKey)
         (st st1 : Poll World) (e : Js.ErrorObj),
    (isRetryableError (Some e) = false <-> terminalSignal e)
    /\ (~ terminalSignal e -> isRetryableError (Some e) = true)
    /\ (attempt key (enter World key st) = (Thrown (Some e), st1) ->
        ~ terminalSignal e ->
        poll World attempt isStream (key :: rest) st
        = poll World attempt isStream rest
            (onFailure World isStream key (Some e) st1)).
Proof.
  intros World attempt isStream key rest st st1 e.
  assert (Hr : ~ terminalSignal e -> isRetryableError (Some e) = true).
  { intro Hno. destruct (isRetryableError (Some e)) eqn:E; [reflexivity|].
    apply isRetryableError_false_iff in E. contradiction. }
  split; [apply isRetryableError_false_iff|].
  split; [exact Hr|].
  intros Hrun Hno. simpl. rewrite Hrun, (Hr Hno). reflexivity.
Qed.

Lemma retryable_unless_terminal_signal_witness :
  isRetryableError (Some Demo.quotaError) = true
  /\ poll nat (attemptServerless nat Demo.upstream false) false
          [Demo.k1; Demo.k3] (start nat 0)
     = poll nat (attemptServerless nat Demo.upstream false) false [Demo.k3]
         (onFailure nat false Demo.k1 (Some Demo.quotaError)
            (snd (attemptServerless nat Demo.upstream false Demo.k1
                    (enter nat Demo.k1 (start nat 0))))).
Proof.
  assert (Hno : ~ terminalSignal Demo.quotaError).
  { unfold terminalSignal. simpl. intros [H | (H & _)]; discriminate. }
  destruct (retryable_unless_terminal_signal nat
              (attemptServerless nat Demo.upstream false) false Demo.k1
              [Demo.k3] (start nat 0)
              (snd (attemptServerless nat Demo.upstream false Demo.k1
                      (enter nat Demo.k1 (start nat 0))))
              Demo.quotaError) as (_ & Hretry & Hloop).
  split.
  - exact (Hretry Hno).
  - exact (Hloop eq_refl Hno).
Defined.

(* ===================================================================== *)
(** ** Strategy selection (C4)                                            *)
(* ===================================================================== *)

(** The current edge handler follows the selection table in all eight
    cases. *)
Lemma selectStrategy_table (isStream : bool) (cfg : StreamingConfig) :
  selectStrategy isStream cfg
  = tableStrategy isStream (enabled cfg) (fake_stream_enabled cfg).
Proof. destruct isStream, cfg as [[|] [|]]; reflexivity. Qed.

Section LegacySelection.

Context {World : Type}.
Variable upstream : Strategy -> GeminiKey -> World -> Outcome * World.

(** The fallback inside the legacy handler's inner [catch] is dead: it
    asks for [fake_stream_enabled] in a branch taken only when that flag
    is off.  Each attempt is therefore exactly one upstream call. *)
Lemma attemptLegacy_single_call isStream cfg key (st : Poll World) :
  attemptLegacy World upstream isStream cfg key st
  = call World upstream (legacyStrategy isStream cfg) key st.
Proof.
  unfold attemptLegacy, legacyStrategy, tableStrategy.
  destruct isStream, cfg as [[|] [|]]; simpl; try reflexivity.
  destruct (call World upstream handleRealStream key st) as [[p|e] st'];
    reflexivity.
Qed.

End LegacySelection.

(** C4 (divergence of the legacy copy): with streaming requested and both
    flags on, the current handler picks the real stream, as the table
    asks, while the legacy handler of the same file calls the fake
    stream; the current handler follows the table on every input, the
    legacy handler on every other input. *)
Theorem legacy_conflict_calls_fake_stream :
  forall (World : Type)
         (upstream : Strategy -> GeminiKey -> World -> Outcome * World)
         (key : GeminiKey) (st : Poll World),
    tableStrategy true true true = handleRealStream
    /\ attemptEdge World upstream true (mkConfig true true) key st
       = call World upstream handleRealStream key st
    /\ attemptLegacy World upstream true (mkConfig true true) key st
       = call World upstream handleFakeStream key st
    /\ (forall isStream cfg,
           attemptEdge World upstream isStream cfg key st
           = call World upstream
               (tableStrategy isStream (enabled cfg) (fake_stream_enabled cfg))
               key st)
    /\ (forall isStream cfg,
           attemptLegacy World upstream isStream cfg key st
           = call World upstream
               (if isStream && enabled cfg && fake_stream_enabled cfg
                then handleFakeStream
                else tableStrategy isStream (enabled cfg)
                                   (fake_stream_enabled cfg))
               key st).
Proof.
  intros World upstream key st.
  repeat split; try reflexivity.
  - intros isStream cfg. unfold attemptEdge.
    now rewrite selectStrategy_table.
  - intros isStream cfg.
    apply (attemptLegacy_single_call upstream).
Qed.

(* ===================================================================== *)
(** ** The loop: first success stops it (C1)                              *)
(* ===================================================================== *)

Section LoopFacts.

Context {World : Type}.
Variable attempt : GeminiKey -> Poll World -> Outcome * Poll World.
Variable isStream : bool.

Lemma poll_after_failures pre :
  forall rest st st',
    FailedThrough attempt isStream pre st st' ->
    poll World attempt isStream (pre ++ rest)%list st
    = poll World attempt isStream rest st'.
Proof.
  induction pre as [|key pre IH]; intros rest st st' H; inversion H; subst.
  - reflexivity.
  - simpl.
    match goal with
    | Hrun : attempt _ _ = _, Hr : isRetryableError _ = true |- _ =>
        rewrite Hrun, Hr
    end.
    now apply IH.
Qed.

(** Whenever the loop comes back with a payload, that payload was
    returned by the attempt on some key reached after a run of
    retryable failures, and the final state is the one that attempt
    left, plus its log row. *)
Lemma poll_success_inv keys :
  forall st p st',
    poll World attempt isStream keys st = (Some p, st') ->
    exists pre key post st_k st1,
      keys = (pre ++ key :: post)%list
      /\ FailedThrough attempt isStream pre st st_k
      /\ attempt key (enter World key st_k) = (Returned p, st1)
      /\ st' = onSuccess World isStream key st1.
Proof.
  induction keys as [|key keys IH]; intros st p st' H; simpl in H.
  - discriminate.
  - destruct (attempt key (enter World key st)) as [[q|e] st1] eqn:Hrun.
    + inversion H; subst.
      exists [], key, keys, st, st1. repeat split; auto. constructor.
    + destruct (isRetryableError e) eqn:Hr; [|discriminate].
      destruct (IH _ _ _ H) as (pre & k & post & st_k & s1 & -> & Hft & Hk & ->).
      exists (key :: pre), k, post, st_k, s1.
      repeat split; auto. econstructor; eauto.
Qed.

End LoopFacts.

(** C1: once the attempt on a candidate returns a payload (the candidates
    before it having failed with retryable errors), the handler answers
    200 with exactly that payload, and the state it ends in (the outside
    world and the list of upstream calls included) is the one that
    attempt left: nothing is done for the candidates after it. *)
Theorem first_success_ends_polling :
  forall (World : Type)
         (attempt : GeminiKey -> Poll World -> Outcome * Poll World)
         (isStream emptyBranch : bool)
         (pre post : list GeminiKey) (key : GeminiKey)
         (st st_k st1 : Poll World) (p : Payload),
    FailedThrough attempt isStream pre st st_k ->
    attempt key (enter World key st_k) = (Returned p, st1) ->
    let r := finish World emptyBranch
               (poll World attempt isStream (pre ++ key :: post)%list st) in
    fst r = Ok200 p
    /\ snd r = onSuccess World isStream key st1
    /\ world (snd r) = world st1
    /\ calls (snd r) = calls st1.
Proof.
  intros World attempt isStream emptyBranch pre post key st st_k st1 p Hpre Hkey.
  rewrite (poll_after_failures attempt isStream pre _ _ _ Hpre).
  simpl. rewrite Hkey. simpl. repeat split; reflexivity.
Qed.

Lemma first_success_ends_polling_witness :
  let r := finish nat false
             (poll nat (attemptServerless nat Demo.upstream false) false
                   ([Demo.k1; Demo.k2] ++ Demo.k3 :: [Demo.k4])%list (start nat 0)) in
  fst r = Ok200 (Completion "Hello")
  /\ snd r = onSuccess nat false Demo.k3
               (snd (attemptServerless nat Demo.upstream false Demo.k3
                       (enter nat Demo.k3
                          (snd (poll nat (attemptServerless nat Demo.upstream false)
                                     false [Demo.k1; Demo.k2] (start nat 0))))))
  /\ world (snd r) = 3%nat
  /\ calls (snd r) = [(handleNonStream, "key-1"); (handleNonStream, "key-2");
                      (handleNonStream, "key-3")].
Proof.
  apply (first_success_ends_polling nat
           (attemptServerless nat Demo.upstream false) false false
           [Demo.k1; Demo.k2] [Demo.k4] Demo.k3 (start nat 0)
           (snd (poll nat (attemptServerless nat Demo.upstream false)
                      false [Demo.k1; Demo.k2] (start nat 0)))).
  - eapply ft_cons; [reflexivity | reflexivity |].
    eapply ft_cons; [reflexivity | reflexivity |].
    apply ft_nil.
  - reflexivity.
Defined.

(* ===================================================================== *)
(** ** The loop: every key is tried once when all fail (C2)               *)
(* ===================================================================== *)

Section ShuffleFacts.

Variable coin : nat -> bool.

Lemma insertBy_perm {A : Type} (x : A) (sorted : list A) :
  forall k, Permutation (fst (insertBy coin x sorted k)) (x :: sorted).
Proof.
  induction sorted as [|y ys IH]; intro k; simpl.
  - apply Permutation_refl.
  - destruct (coin k); simpl.
    + apply Permutation_refl.
    + specialize (IH (S k)).
      destruct (insertBy coin x ys (S k)) as [r k']; simpl in *.
      apply perm_trans with (y :: x :: ys).
      * now apply perm_skip.
      * apply perm_swap.
Qed.

Lemma sortBy_perm {A : Type} (l : list A) :
  forall k, Permutation (fst (sortBy coin l k)) l.
Proof.
  induction l as [|x xs IH]; intro k; simpl.
  - apply Permutation_refl.
  - specialize (IH k).
    destruct (sortBy coin xs k) as [s k1]; simpl in IH.
    apply perm_trans with (x :: s).
    + apply insertBy_perm.
    + now apply perm_skip.
Qed.

Lemma shuffledKeys_perm (availableKeys : list GeminiKey) :
  Permutation (shuffledKeys coin availableKeys) availableKeys.
Proof. apply sortBy_perm. Qed.

End ShuffleFacts.

Section AllFail.

Context {World : Type}.
Variable upstream : Strategy -> GeminiKey -> World -> Outcome * World.
Variable attempt : GeminiKey -> Poll World -> Outcome * Poll World.
Variable strategy : Strategy.
Variable isStream : bool.

Hypothesis attempt_is_one_call :
  forall key st, attempt key st = call World upstream strategy key st.

Lemma poll_all_fail keys :
  (forall key w, In key keys ->
      exists e w', upstream strategy key w = (Thrown e, w')
                   /\ isRetryableError e = true) ->
  forall st,
  exists st',
    poll World attempt isStream keys st = (None, st')
    /\ triedKeys st' = (triedKeys st ++ map id keys)%list
    /\ calls st' = (calls st ++ map (fun k => (strategy, id k)) keys)%list.
Proof.
  induction keys as [|key keys IH]; intros Hfail st.
  - exists st. simpl. now rewrite !app_nil_r.
  - destruct (Hfail key (world (enter World key st)) (or_introl eq_refl))
      as (e & w' & Hup & Hr).
    simpl poll. rewrite attempt_is_one_call. unfold call.
    rewrite Hup, Hr.
    match goal with
    | |- exists _, poll _ _ _ _ ?s = _ /\ _ =>
        destruct (IH (fun k w H => Hfail k w (or_intror H)) s)
          as (st' & Hpoll & Htried & Hcalls)
    end.
    exists st'. split; [exact Hpoll|].
    rewrite Htried, Hcalls. simpl.
    now rewrite <- !app_assoc.
Qed.

End AllFail.

(** C2: when every attempt on an eligible key throws a retryable error,
    the current edge handler tries the keys in a shuffled order that is a
    permutation of the eligible list, makes exactly one upstream call per
    key (so as many calls as there are keys), and tries no id twice when
    the eligible ids are distinct; the serverless and the legacy handler
    do the same in the order of the list itself. *)
Theorem all_retryable_failures_try_each_key_once :
  forall (World : Type)
         (upstream : Strategy -> GeminiKey -> World -> Outcome * World)
         (coin : nat -> bool) (isStream : bool) (cfg : StreamingConfig)
         (availableKeys : list GeminiKey) (w : World),
    (forall s key w0, In key availableKeys ->
        exists e w', upstream s key w0 = (Thrown e, w')
                     /\ isRetryableError e = true) ->
    let edge := snd (handlerEdge World upstream coin isStream cfg availableKeys w) in
    let serverless := snd (handlerServerless World upstream isStream availableKeys w) in
    let legacy := snd (handlerLegacy World upstream isStream cfg availableKeys w) in
    (Permutation (triedKeys edge) (map id availableKeys)
     /\ map snd (calls edge) = triedKeys edge
     /\ List.length (calls edge) = List.length availableKeys
     /\ (NoDup (map id availableKeys) -> NoDup (triedKeys edge)))
    /\ (triedKeys serverless = map id availableKeys
        /\ map snd (calls serverless) = map id availableKeys)
    /\ (triedKeys legacy = map id availableKeys
        /\ map snd (calls legacy) = map id availableKeys).
Proof.
  intros World upstream coin isStream cfg availableKeys w Hfail.
  assert (Hsnd : forall (s : Strategy) (l : list GeminiKey),
             map snd (map (fun k => (s, id k)) l) = map id l).
  { intros s l. rewrite map_map. reflexivity. }
  split; [|split].
  - pose proof (shuffledKeys_perm coin availableKeys) as Hperm.
    destruct (poll_all_fail upstream (attemptEdge World upstream isStream cfg)
                (selectStrategy isStream cfg) isStream
                (fun _ _ => eq_refl) (shuffledKeys coin availableKeys)
                (fun key w0 H => Hfail _ key w0 (Permutation_in _ Hperm H))
                (start World w))
      as (st' & Hpoll & Htried & Hcalls).
    cbv zeta. unfold handlerEdge. rewrite Hpoll. simpl in *.
    rewrite Htried, Hcalls, Hsnd.
    repeat split.
    + now apply Permutation_map.
    + rewrite length_map. now apply Permutation_length.
    + intro Hnd. apply (Permutation_NoDup (l := map id availableKeys)); auto.
      apply Permutation_sym. now apply Permutation_map.
  - destruct (poll_all_fail upstream (attemptServerless World upstream isStream)
                (if isStream then handleRealStream else handleNonStream) isStream
                (fun _ _ => eq_refl) availableKeys
                (fun key w0 H => Hfail _ key w0 H) (start World w))
      as (st' & Hpoll & Htried & Hcalls).
    cbv zeta. unfold handlerServerless. rewrite Hpoll. simpl in *.
    rewrite Htried, Hcalls, Hsnd. split; reflexivity.
  - destruct (poll_all_fail upstream (attemptLegacy World upstream isStream cfg)
                (legacyStrategy isStream cfg) isStream
                (attemptLegacy_single_call upstream isStream cfg) availableKeys
                (fun key w0 H => Hfail _ key w0 H) (start World w))
      as (st' & Hpoll & Htried & Hcalls).
    cbv zeta. unfold handlerLegacy. rewrite Hpoll. simpl in *.
    rewrite Htried, Hcalls, Hsnd. split; reflexivity.
Qed.

Lemma all_retryable_failures_try_each_key_once_witness :
  let keys := [Demo.k1; Demo.k2; Demo.k4] in
  let edge := snd (handlerEdge nat Demo.upstream Nat.even true
                     (mkConfig false true) keys 0%nat) in
  let serverless := snd (handlerServerless nat Demo.upstream true keys 0%nat) in
  let legacy := snd (handlerLegacy nat Demo.upstream true
                       (mkConfig false true) keys 0%nat) in
  (Permutation (triedKeys edge) (map id keys)
   /\ map snd (calls edge) = triedKeys edge
   /\ List.length (calls edge) = List.length keys
   /\ (NoDup (map id keys) -> NoDup (triedKeys edge)))
  /\ (triedKeys serverless = map id keys
      /\ map snd (calls serverless) = map id keys)
  /\ (triedKeys legacy = map id keys
      /\ map snd (calls legacy) = map id keys).
Proof.
  apply (all_retryable_failures_try_each_key_once nat Demo.upstream Nat.even
           true (mkConfig false true) [Demo.k1; Demo.k2; Demo.k4] 0%nat).
  intros s key w0 Hin. simpl in Hin.
  destruct Hin as [<- | [<- | [<- | []]]];
    exists (Some Demo.quotaError), (S w0); split; reflexivity.
Defined.

(* ===================================================================== *)
(** ** Exhaustion (C6)                                                    *)
(* ===================================================================== *)

(** C6, as stated, fails on the serverless handler: its tail has no
    empty-response case, so a last error carrying that text surfaces as
    503, not 502. *)
Lemma serverless_empty_response_is_503 :
  fst (handlerServerless nat Demo.allEmpty false [Demo.k1] 0%nat)
  = Failed (mkApiError 503
      "All 1 API keys failed. Last error: Empty response from Gemini API")
  /\ emptyText (Js.errorMsg (Some Demo.emptyError)) = true.
Proof. split; reflexivity. Qed.

Section ExhaustionFacts.

Context {World : Type}.
Variable upstream : Strategy -> GeminiKey -> World -> Outcome * World.
Variable attempt : GeminiKey -> Poll World -> Outcome * Poll World.
Variable strategy : Strategy.
Variable isStream : bool.

Hypothesis attempt_is_one_call :
  forall key st, attempt key st = call World upstream strategy key st.

Lemma failedThrough_tried pre :
  forall st st',
    FailedThrough attempt isStream pre st st' ->
    triedKeys st' = (triedKeys st ++ map id pre)%list.
Proof.
  induction pre as [|key pre IH]; intros st st' H; inversion H; subst.
  - now rewrite app_nil_r.
  - match goal with
    | Hrun : attempt _ _ = _,
      Hrest : FailedThrough _ _ _ _ _ |- _ =>
        rewrite attempt_is_one_call in Hrun; unfold call in Hrun;
        destruct (upstream strategy key (world (enter World key st)))
          as [o w'];
        inversion Hrun; subst; rewrite (IH _ _ Hrest)
    end.
    simpl. now rewrite <- app_assoc.
Qed.

(** A run that ends without a payload keeps the error of the attempt it
    ended on, has tried the keys up to that attempt, and is answered
    with the error synthesized from that error and that count. *)
Lemma ends_failing_reply (emptyBranch : bool) (order pre : list GeminiKey)
    (key : GeminiKey) (e : Js.Error) (w : World) :
  EndsFailing attempt isStream order pre key e w ->
  let r := finish World emptyBranch
             (poll World attempt isStream order (start World w)) in
  lastError (snd r) = e
  /\ triedKeys (snd r) = map id (pre ++ [key])%list
  /\ (isRetryableError e = true ->
      S (List.length pre) = List.length order)
  /\ fst r = Failed (exhaustionError emptyBranch e (S (List.length pre))).
Proof.
  intros (post & st_k & st1 & -> & Hpre & Hkey & Hlast).
  pose proof (failedThrough_tried pre _ _ Hpre) as Htried.
  cbn [triedKeys start app] in Htried.
  assert (Hst1 : triedKeys st1 = (map id pre ++ [id key])%list).
  { rewrite attempt_is_one_call in Hkey. unfold call in Hkey.
    destruct (upstream strategy key (world (enter World key st_k)))
      as [o w'].
    inversion Hkey; subst. cbn [triedKeys enter]. now rewrite Htried. }
  assert (Hlen : List.length (triedKeys st1) = S (List.length pre)).
  { rewrite Hst1, length_app, length_map. simpl. lia. }
  cbv zeta. rewrite (poll_after_failures attempt isStream pre _ _ _ Hpre).
  cbn [poll]. rewrite Hkey.
  destruct (isRetryableError e) eqn:Hr.
  - rewrite (Hlast eq_refl). cbn [poll finish fst snd lastError triedKeys
                                  onFailure enter].
    rewrite Hlen, Hst1, map_app.
    repeat split. intros _. rewrite length_app. simpl. lia.
  - cbn [finish fst snd lastError triedKeys onFailure enter].
    rewrite Hlen, Hst1, map_app.
    repeat split. discriminate.
Qed.

(** Conversely, a run over at least one key that yields no payload ended
    that way. *)
Lemma poll_failure_inv keys :
  forall st st',
    poll World attempt isStream keys st = (None, st') ->
    keys = []
    \/ exists pre key post e st_k st1,
         keys = (pre ++ key :: post)%list
         /\ FailedThrough attempt isStream pre st st_k
         /\ attempt key (enter World key st_k) = (Thrown e, st1)
         /\ (isRetryableError e = true -> post = []).
Proof.
  induction keys as [|key keys IH]; intros st st' H; [now left|].
  right. cbn [poll] in H.
  destruct (attempt key (enter World key st)) as [[p|e] st1] eqn:Hrun;
    [discriminate|].
  destruct (isRetryableError e) eqn:Hr.
  - destruct (IH _ _ H)
      as [-> | (pre & k & post & e' & st_k & s1 & -> & Hft & Hk & Hlast)].
    + exists [], key, [], e, st, st1.
      repeat split; auto. constructor.
    + exists (key :: pre), k, post, e', st_k, s1.
      repeat split; auto. econstructor; eauto.
  - exists [], key, keys, e, st, st1.
    repeat split; auto; [constructor | congruence].
Qed.

Lemma failed_reply_ends_failing (emptyBranch : bool)
    (order : list GeminiKey) (w : World) (err : ApiError) :
  order <> [] ->
  fst (finish World emptyBranch
         (poll World attempt isStream order (start World w))) = Failed err ->
  exists pre key e, EndsFailing attempt isStream order pre key e w.
Proof.
  intros Hne Hfail.
  destruct (poll World attempt isStream order (start World w))
    as [[p|] st'] eqn:Hpoll; [discriminate|].
  destruct (poll_failure_inv order _ _ Hpoll)
    as [-> | (pre & key & post & e & st_k & st1 & Horder & Hft & Hk & Hlast)];
    [now elim Hne|].
  exists pre, key, e, post, st_k, st1. auto.
Qed.

End ExhaustionFacts.

(** How [exhaustionError] reads the text of an error that is not an
    [ApiError]. *)
Lemma exhaustionError_by_text (emptyBranch : bool) (e : Js.Error) (n : nat) :
  isApiError e = false ->
  let m := Js.errorMsg e in
  let fallback :=
    mkApiError 503
      ("All " ++ natToString n ++ " API keys failed. Last error: " ++ m) in
  (quotaText m = true ->
   exhaustionError emptyBranch e n
   = mkApiError 429 "All API keys have exceeded quota limits")
  /\ (quotaText m = false -> invalidKeyText m = true ->
      exhaustionError emptyBranch e n
      = mkApiError 401 "All API keys are invalid")
  /\ (quotaText m = false -> invalidKeyText m = false -> emptyText m = true ->
      exhaustionError emptyBranch e n
      = if emptyBranch
        then mkApiError 502 "All API keys returned empty responses"
        else fallback)
  /\ (quotaText m = false -> invalidKeyText m = false -> emptyText m = false ->
      exhaustionError emptyBranch e n = fallback).
Proof.
  intros Hapi m fallback. subst fallback m.
  unfold exhaustionError, quotaText, invalidKeyText, emptyText.
  destruct e as [[msg str c s [sc|]]|]; simpl in *;
    try discriminate;
    repeat split; intros;
    repeat match goal with H : _ = _ |- _ => rewrite H end;
    try discriminate; simpl; destruct emptyBranch; reflexivity.
Qed.

(** C6 (amended): in the current edge handler, the legacy edge handler
    and, for a request that does not stream, the serverless handler, a
    loop that ends without a payload ends on a failed attempt: the keys
    before it threw retryable errors, and it threw an error that is not
    retryable or it was the last key.  The handler then keeps exactly
    that error as its last error, has tried exactly the keys up to that
    attempt (all of them when the error is retryable), and, the error
    not being an [ApiError], answers by the text of that error: quota
    text gives 429; otherwise invalid-key text gives 401; otherwise
    empty-response text gives 502 in the current edge handler and 503 in
    the two handlers without that case; otherwise 503 with a message
    naming the number of keys tried and that error.  Every answer other
    than a 200 to a request with a key to try comes out of such a
    run. *)
Theorem exhaustion_error_from_last_failure :
  forall (World : Type)
         (upstream : Strategy -> GeminiKey -> World -> Outcome * World)
         (coin : nat -> bool) (isStream : bool) (cfg : StreamingConfig)
         (availableKeys : list GeminiKey) (w : World),
    let edge := handlerEdge World upstream coin isStream cfg availableKeys w in
    let legacy := handlerLegacy World upstream isStream cfg availableKeys w in
    let serverless := handlerServerless World upstream false availableKeys w in
    let edgeEnds :=
      EndsFailing (attemptEdge World upstream isStream cfg) isStream
                  (shuffledKeys coin availableKeys) in
    let legacyEnds :=
      EndsFailing (attemptLegacy World upstream isStream cfg) isStream
                  availableKeys in
    let serverlessEnds :=
      EndsFailing (attemptServerless World upstream false) false
                  availableKeys in
    let fromLast (emptyBranch : bool) (pre : list GeminiKey)
                 (key : GeminiKey) (e : Js.Error) (r : Reply * Poll World)
        : Prop :=
      let m := Js.errorMsg e in
      let n := S (List.length pre) in
      let fallback :=
        Failed (mkApiError 503
                  ("All " ++ natToString n
                   ++ " API keys failed. Last error: " ++ m)) in
      lastError (snd r) = e
      /\ triedKeys (snd r) = map id (pre ++ [key])%list
      /\ (isRetryableError e = true -> n = List.length availableKeys)
      /\ (isApiError e = false ->
          (quotaText m = true ->
           fst r = Failed (mkApiError 429
                             "All API keys have exceeded quota limits"))
          /\ (quotaText m = false -> invalidKeyText m = true ->
              fst r = Failed (mkApiError 401 "All API keys are invalid"))
          /\ (quotaText m = false -> invalidKeyText m = false ->
              emptyText m = true ->
              fst r = if emptyBranch
                      then Failed (mkApiError 502
                                     "All API keys returned empty responses")
                      else fallback)
          /\ (quotaText m = false -> invalidKeyText m = false ->
              emptyText m = false ->
              fst r = fallback)) in
    (forall pre key e, edgeEnds pre key e w -> fromLast true pre key e edge)
    /\ (forall pre key e,
           legacyEnds pre key e w -> fromLast false pre key e legacy)
    /\ (forall pre key e,
           serverlessEnds pre key e w -> fromLast false pre key e serverless)
    /\ (availableKeys <> [] ->
        (forall err, fst edge = Failed err ->
                     exists pre key e, edgeEnds pre key e w)
        /\ (forall err, fst legacy = Failed err ->
                        exists pre key e, legacyEnds pre key e w)
        /\ (forall err, fst serverless = Failed err ->
                        exists pre key e, serverlessEnds pre key e w)).
Proof.
  intros World upstream coin isStream cfg availableKeys w
         edge legacy serverless edgeEnds legacyEnds serverlessEnds fromLast.
  assert (Hfrom :
    forall attempt strategy stream emptyBranch order pre key e,
      (forall k st, attempt k st = call World upstream strategy k st) ->
      List.length order = List.length availableKeys ->
      EndsFailing attempt stream order pre key e w ->
      fromLast emptyBranch pre key e
        (finish World emptyBranch
           (poll World attempt stream order (start World w)))).
  { intros attempt strategy stream emptyBranch order pre key e Hcall Hlen Hends.
    destruct (ends_failing_reply upstream attempt strategy stream Hcall
                emptyBranch order pre key e w Hends)
      as (Hlast & Htried & Hall & Hreply).
    unfold fromLast. cbv zeta.
    split; [exact Hlast|]. split; [exact Htried|].
    split; [intro Hr; rewrite <- Hlen; now apply Hall|].
    intro Hapi. rewrite Hreply.
    destruct (exhaustionError_by_text emptyBranch e (S (List.length pre)) Hapi)
      as (Hq & Hi & He & Ho).
    split; [|split; [|split]].
    - intro H1. now rewrite (Hq H1).
    - intros H1 H2. now rewrite (Hi H1 H2).
    - intros H1 H2 H3. rewrite (He H1 H2 H3). now destruct emptyBranch.
    - intros H1 H2 H3. now rewrite (Ho H1 H2 H3). }
  assert (Hshuffle : List.length (shuffledKeys coin availableKeys)
                     = List.length availableKeys).
  { apply Permutation_length, shuffledKeys_perm. }
  split; [|split; [|split]].
  - intros pre key e Hends.
    apply (Hfrom _ (selectStrategy isStream cfg) isStream true
             (shuffledKeys coin availableKeys)); auto.
  - intros pre key e Hends.
    apply (Hfrom _ (legacyStrategy isStream cfg) isStream false availableKeys);
      auto.
    apply attemptLegacy_single_call.
  - intros pre key e Hends.
    apply (Hfrom _ handleNonStream false false availableKeys); auto.
  - intro Hne. split; [|split]; intros err Hfail.
    + apply (failed_reply_ends_failing _ _ true _ w err); [|exact Hfail].
      intro Hnil. apply Hne.
      pose proof (shuffledKeys_perm coin availableKeys) as Hperm.
      rewrite Hnil in Hperm. now apply Permutation_nil in Hperm.
    + now apply (failed_reply_ends_failing _ _ false _ w err).
    + now apply (failed_reply_ends_failing _ _ false _ w err).
Qed.

Lemma exhaustion_error_from_last_failure_witness :
  fst (handlerEdge nat Demo.allEmpty Nat.even false (mkConfig true false)
         [Demo.k1; Demo.k2] 0%nat)
  = Failed (mkApiError 502 "All API keys returned empty responses")
  /\ fst (handlerServerless nat Demo.allEmpty false [Demo.k1; Demo.k2] 0%nat)
     = Failed (mkApiError 503
         "All 2 API keys failed. Last error: Empty response from Gemini API").
Proof.
  destruct (exhaustion_error_from_last_failure nat Demo.allEmpty Nat.even
              false (mkConfig true false) [Demo.k1; Demo.k2] 0%nat)
    as (Hedge & _ & Hserverless & _).
  assert (Hrun : forall attempt,
             attempt = call nat Demo.allEmpty handleNonStream ->
             EndsFailing attempt false [Demo.k1; Demo.k2] [Demo.k1] Demo.k2
                         (Some Demo.emptyError) 0%nat).
  { intros attempt ->. exists [].
    eexists. eexists. split; [reflexivity|]. split; [|split].
    - eapply ft_cons; [reflexivity | reflexivity | apply ft_nil].
    - reflexivity.
    - reflexivity. }
  split.
  - destruct (Hedge [Demo.k1] Demo.k2 (Some Demo.emptyError))
      as (_ & _ & _ & Htext).
    + apply Hrun. reflexivity.
    + destruct (Htext eq_refl) as (_ & _ & Hempty & _).
      apply Hempty; reflexivity.
  - destruct (Hserverless [Demo.k1] Demo.k2 (Some Demo.emptyError))
      as (_ & _ & _ & Htext).
    + apply Hrun. reflexivity.
    + destruct (Htext eq_refl) as (_ & _ & Hempty & _).
      apply Hempty; reflexivity.
Defined.

(** The scenarios of the specification, run on the current edge
    handler. *)
Example scenario_third_key_answers :
  let r := handlerEdge nat Demo.upstream (fun _ => false) false
             (mkConfig true false) [Demo.k3; Demo.k2; Demo.k1] 0%nat in
  fst r = Ok200 (Completion "Hello")
  /\ triedKeys (snd r) = ["key-1"; "key-2"; "key-3"]
  /\ map response_status_code (logs (snd r)) = [429; 429; 200]%Z
  /\ invalid (snd r) = [].
Proof. repeat split; reflexivity. Qed.

Example scenario_single_invalid_key :
  let r := handlerEdge nat Demo.allInvalid (fun _ => false) false
             (mkConfig true false) [Demo.k1] 0%nat in
  fst r = Failed (mkApiError 401 "All API keys are invalid")
  /\ map response_status_code (logs (snd r)) = [401]%Z
  /\ invalid (snd r) = ["key-1"].
Proof. repeat split; reflexivity. Qed.

(* ===================================================================== *)
(** ** Credential pool (C7)                                               *)
(* ===================================================================== *)

(** C7, as stated, fails: a storage failure and an empty pool are not
    told apart; both end in the same thrown [ApiError(503)]. *)
Lemma storage_failure_same_as_empty_pool :
  KeyManager.getAllAvailableGeminiKeys PoolCases.storageFails
  = inl (KeyManager.ThrownApiError 503)
  /\ KeyManager.getAllAvailableGeminiKeys PoolCases.noEligibleKeys
     = KeyManager.getAllAvailableGeminiKeys PoolCases.storageFails.
Proof. split; reflexivity. Qed.

Lemma fetchKeysFromDb_error :
  KeyManager.fetchKeysFromDb KeyManager.DbError = inr []
  /\ KeyManager.fetchKeysFromDb (KeyManager.DbData (Some [])) = inr [].
Proof. split; reflexivity. Qed.

Lemma loadKeys_no_api_error (env : KeyManager.Env) :
  forall sc, KeyManager.loadKeys env <> inl (KeyManager.ThrownApiError sc).
Proof.
  intros sc. unfold KeyManager.loadKeys, KeyManager.fetchKeysFromDb.
  destruct (KeyManager.development env).
  - destruct (KeyManager.db env 0%nat) as [[d|]| |]; discriminate.
  - destruct (KeyManager.kvGet env) as [[[|k ks]|]|];
      destruct (KeyManager.db env 0%nat) as [[d|]| |]; simpl;
      try discriminate;
      try (destruct (KeyManager.db env 1%nat) as [[d1|]| |]; discriminate);
      destruct ((0 <? List.length d)%nat && KeyManager.kvSetexThrows env);
      try discriminate;
      destruct (KeyManager.db env 1%nat) as [[d1|]| |]; discriminate.
Qed.

(** C7 (amended): the listing operation never returns an empty list; it
    either returns a non-empty list or throws.  When every storage query
    answers with an error and the cache holds nothing usable, the error
    is swallowed into an empty result and the operation throws the same
    503 as when storage works and holds no eligible key; only an
    exception out of the storage client surfaces differently, as 500. *)
Theorem pool_listing_outcomes :
  forall env : KeyManager.Env,
    KeyManager.getAllAvailableGeminiKeys env <> inr []
    /\ (exists keys,
           KeyManager.getAllAvailableGeminiKeys env = inr keys /\ keys <> []
        \/ KeyManager.getAllAvailableGeminiKeys env
           = inl (KeyManager.ThrownApiError 503)
        \/ KeyManager.getAllAvailableGeminiKeys env
           = inl (KeyManager.ThrownApiError 500))
    /\ (forall reply,
           (reply = KeyManager.DbError
            \/ reply = KeyManager.DbData (Some [])
            \/ reply = KeyManager.DbData None) ->
           (forall n, KeyManager.db env n = reply) ->
           (KeyManager.development env = true
            \/ KeyManager.kvGet env = KeyManager.KvValue None
            \/ KeyManager.kvGet env = KeyManager.KvValue (Some [])
            \/ KeyManager.kvGet env = KeyManager.KvThrows) ->
           KeyManager.getAllAvailableGeminiKeys env
           = inl (KeyManager.ThrownApiError 503))
    /\ ((forall n, KeyManager.db env n = KeyManager.DbThrows) ->
        (KeyManager.development env = true
         \/ KeyManager.kvGet env = KeyManager.KvValue None
         \/ KeyManager.kvGet env = KeyManager.KvValue (Some [])
         \/ KeyManager.kvGet env = KeyManager.KvThrows) ->
        KeyManager.getAllAvailableGeminiKeys env
        = inl (KeyManager.ThrownApiError 500)).
Proof.
  intro env.
  pose proof (loadKeys_no_api_error env) as Hno.
  split; [|split; [|split]].
  - unfold KeyManager.getAllAvailableGeminiKeys.
    destruct (KeyManager.loadKeys env) as [[sc|]|[|k ks]]; discriminate.
  - unfold KeyManager.getAllAvailableGeminiKeys.
    destruct (KeyManager.loadKeys env) as [[sc|]|[|k ks]] eqn:E.
    + exfalso. apply (Hno sc). reflexivity.
    + exists []. right; right; reflexivity.
    + exists []. right; left; reflexivity.
    + exists (k :: ks). left. split; [reflexivity | discriminate].
  - intros reply Hreply Hdb Hcache.
    unfold KeyManager.getAllAvailableGeminiKeys, KeyManager.loadKeys.
    rewrite !Hdb.
    destruct Hreply as [-> | [-> | ->]];
      destruct Hcache as [-> | [-> | [-> | ->]]]; simpl;
      try reflexivity;
      destruct (KeyManager.development env); simpl; try reflexivity;
      destruct (KeyManager.kvGet env) as [[[|k ks]|]|]; simpl;
      rewrite ?Hdb; simpl; try reflexivity.
    all: fail.
  - intros Hdb Hcache.
    unfold KeyManager.getAllAvailableGeminiKeys, KeyManager.loadKeys.
    rewrite !Hdb.
    destruct Hcache as [-> | [-> | [-> | ->]]]; simpl;
      try reflexivity;
      destruct (KeyManager.development env); simpl; try reflexivity;
      destruct (KeyManager.kvGet env) as [[[|k ks]|]|]; simpl;
      rewrite ?Hdb; simpl; try reflexivity.
Qed.

Lemma pool_listing_outcomes_witness :
  KeyManager.getAllAvailableGeminiKeys PoolCases.storageFails
  = inl (KeyManager.ThrownApiError 503)
  /\ KeyManager.getAllAvailableGeminiKeys PoolCases.oneKey = inr [Demo.k1].
Proof.
  split.
  - destruct (pool_listing_outcomes PoolCases.storageFails) as (_ & _ & H & _).
    apply (H KeyManager.DbError).
    + left; reflexivity.
    + reflexivity.
    + right; left; reflexivity.
  - reflexivity.
Defined.

(* ===================================================================== *)
(** ** Models endpoint (C9)                                               *)
(* ===================================================================== *)

(** C9, as stated, fails: an invocation with another method than GET is
    answered 405 with an error body. *)
Lemma models_post_is_405 :
  Models.handler "POST" (Models.DbResult false (Some ["AIza-1"]))
                 (fun _ => Models.FetchThrows) 0
  = (405%Z, Models.ErrorBody "Method not allowed").
Proof. reflexivity. Qed.

Lemma reshapeAll_entries (now : Z) (models : list Models.GoogleModel) :
  Forall (fun m => Models.object m = "model"
                   /\ Models.owned_by m = "google"
                   /\ Models.created m = (now / 1000)%Z
                   /\ Models.root m = Models.id m
                   /\ exists g n, In g models
                                  /\ Models.name g = Some n
                                  /\ Js.includes "gemini" n = true
                                  /\ Models.id m
                                     = Models.replaceFirst "models/" "" n)
         (Models.reshapeAll now models).
Proof.
  induction models as [|g models IH]; simpl.
  - constructor.
  - assert (IH' : Forall (fun m => Models.object m = "model"
                   /\ Models.owned_by m = "google"
                   /\ Models.created m = (now / 1000)%Z
                   /\ Models.root m = Models.id m
                   /\ exists g0 n, (g = g0 \/ In g0 models)
                                  /\ Models.name g0 = Some n
                                  /\ Js.includes "gemini" n = true
                                  /\ Models.id m
                                     = Models.replaceFirst "models/" "" n)
         (Models.reshapeAll now models)).
    { eapply Forall_impl; [|exact IH].
      intros m (H1 & H2 & H3 & H4 & g0 & n & Hin & Hn & Hg & Hid).
      repeat split; auto. exists g0, n. auto. }
    unfold Models.reshape.
    destruct (Models.name g) as [n|] eqn:Hname; [|exact IH'].
    destruct (negb (n =? "")%string) eqn:Hne; simpl; [|exact IH'].
    destruct (Js.includes "gemini" n) eqn:Hg; [|exact IH'].
    constructor; [|exact IH'].
    simpl. repeat split. exists g, n. auto.
Qed.

(** C9 (amended): every GET invocation of the models endpoint is answered
    200 with a list body; the list is empty when the key query fails,
    throws or finds no key, and when the upstream listing throws, is not
    ok, or cannot be parsed; on success every entry has object "model",
    owner "google", the creation time in seconds, and the upstream name
    without its "models/" prefix as id. *)
Theorem models_get_always_200_list :
  forall (method : string) (db : Models.DbReply)
         (fetch : string -> Models.FetchReply) (now : Z),
    method = "GET" ->
    (exists data,
        Models.handler method db fetch now = (200%Z, Models.ListBody data)
        /\ Forall (fun m => Models.object m = "model"
                            /\ Models.owned_by m = "google"
                            /\ Models.created m = (now / 1000)%Z) data)
    /\ (db = Models.DbThrows
        \/ (exists d, db = Models.DbResult true d)
        \/ db = Models.DbResult false None
        \/ db = Models.DbResult false (Some []) ->
        Models.handler method db fetch now = (200%Z, Models.ListBody []))
    /\ (forall apiKey rest,
           db = Models.DbResult false (Some (apiKey :: rest)) ->
           (fetch apiKey = Models.FetchThrows
            \/ (exists j, fetch apiKey = Models.FetchResponse false j)
            \/ fetch apiKey = Models.FetchResponse true None ->
            Models.handler method db fetch now = (200%Z, Models.ListBody []))
           /\ (forall models,
                  fetch apiKey = Models.FetchResponse true (Some (Some models)) ->
                  Models.handler method db fetch now
                  = (200%Z, Models.ListBody (Models.reshapeAll now models)))).
Proof.
  intros method db fetch now ->.
  split; [|split].
  - unfold Models.handler. simpl.
    destruct db as [|[|] [[|apiKey rest]|]];
      try (exists []; split; [reflexivity | constructor]).
    destruct (fetch apiKey) as [|[|] [models|]];
      try (exists []; split; [reflexivity | constructor]).
    eexists; split; [reflexivity|].
    eapply Forall_impl; [|apply reshapeAll_entries].
    intros m (H1 & H2 & H3 & _). auto.
  - intros [-> | [[d ->] | [-> | ->]]]; reflexivity.
  - intros apiKey rest ->. split.
    + unfold Models.handler. simpl.
      intros [-> | [[j ->] | ->]]; reflexivity.
    + intros models Hf. unfold Models.handler. simpl. rewrite Hf. reflexivity.
Qed.

Lemma models_get_always_200_list_witness :
  Models.handler "GET" (Models.DbResult false (Some ["AIza-1"]))
    (fun _ => Models.FetchResponse true
                (Some (Some [Models.mkGoogleModel (Some "models/gemini-pro");
                             Models.mkGoogleModel (Some "models/embedding-001");
                             Models.mkGoogleModel None])))
    1700000000999
  = (200%Z, Models.ListBody
              [Models.mkModel "gemini-pro" "model" 1700000000 "google"
                              "gemini-pro"]).
Proof.
  destruct (models_get_always_200_list "GET"
              (Models.DbResult false (Some ["AIza-1"]))
              (fun _ => Models.FetchResponse true
                (Some (Some [Models.mkGoogleModel (Some "models/gemini-pro");
                             Models.mkGoogleModel (Some "models/embedding-001");
                             Models.mkGoogleModel None])))
              1700000000999 eq_refl) as (_ & _ & H).
  destruct (H "AIza-1" [] eq_refl) as (_ & H').
  rewrite (H' _ eq_refl). reflexivity.
Defined.

(* ===================================================================== *)
(** ** Generation parameters (C10)                                        *)
(* ===================================================================== *)

Lemma numOr_not_zero (x : option Q) (d : Q) :
  ~ (d == 0)%Q -> ~ (Converter.numOr x d == 0)%Q.
Proof.
  intros Hd. unfold Converter.numOr.
  destruct x as [q|]; [|exact Hd].
  destruct (Qeq_bool q 0) eqn:E; [exact Hd|].
  now apply Qeq_bool_neq.
Qed.

(** C10: the converter replaces a falsy [max_tokens] or [temperature],
    not only an absent one: temperature 0 is converted to 0.7 and
    max_tokens 0 to 2048, so the converted temperature is never 0. *)
Theorem falsy_parameters_get_defaults :
  forall (disguiseEnabled : bool) (draw : nat -> nat)
         (req : Converter.OpenAIRequest),
    let cfg := Converter.generationConfig
                 (Converter.convertOpenAItoGemini disguiseEnabled draw req) in
    (forall t, Converter.temperature req = Some t -> (t == 0)%Q ->
               Converter.geminiTemperature cfg = (7 # 10)%Q)
    /\ (forall n, Converter.max_tokens req = Some n -> (n == 0)%Q ->
                  Converter.maxOutputTokens cfg = 2048%Q)
    /\ (Converter.temperature req = None ->
        Converter.geminiTemperature cfg = (7 # 10)%Q)
    /\ (Converter.max_tokens req = None ->
        Converter.maxOutputTokens cfg = 2048%Q)
    /\ (forall t, Converter.temperature req = Some t -> ~ (t == 0)%Q ->
                  Converter.geminiTemperature cfg = t)
    /\ ~ (Converter.geminiTemperature cfg == 0)%Q
    /\ ~ (Converter.maxOutputTokens cfg == 0)%Q.
Proof.
  intros disguiseEnabled draw req cfg. subst cfg. simpl.
  repeat split.
  - intros t -> Ht. simpl. apply Qeq_bool_iff in Ht. now rewrite Ht.
  - intros n -> Hn. simpl. apply Qeq_bool_iff in Hn. now rewrite Hn.
  - intros ->. reflexivity.
  - intros ->. reflexivity.
  - intros t -> Ht. simpl.
    destruct (Qeq_bool t 0) eqn:E; [|reflexivity].
    apply Qeq_bool_iff in E. contradiction.
  - apply numOr_not_zero. discriminate.
  - apply numOr_not_zero. discriminate.
Qed.

Lemma falsy_parameters_get_defaults_witness :
  let req := Converter.mkRequest [Converter.mkMessage "user" "hi"]
                                 (Some 0%Q) (Some 0%Q) in
  let cfg := Converter.generationConfig
               (Converter.convertOpenAItoGemini false (fun _ => 0%nat) req) in
  Converter.geminiTemperature cfg = (7 # 10)%Q
  /\ Converter.maxOutputTokens cfg = 2048%Q.
Proof.
  pose proof (falsy_parameters_get_defaults false (fun _ => 0%nat)
                (Converter.mkRequest [Converter.mkMessage "user" "hi"]
                                     (Some 0%Q) (Some 0%Q))) as H.
  destruct H as (Ht & Hn & _).
  split.
  - apply (Ht 0%Q); reflexivity.
  - apply (Hn 0%Q); reflexivity.
Defined.

(* ===================================================================== *)
(** ** Disguise token (C8)                                                *)
(* ===================================================================== *)

Lemma string_length_app (s t : string) :
  String.length (s ++ t) = (String.length s + String.length t)%nat.
Proof. induction s as [|c s IH]; simpl; [reflexivity | now rewrite IH]. Qed.

Lemma string_app_neq (s t : string) :
  t <> "" -> (s ++ t =? s)%string = false.
Proof.
  intro Ht. apply String.eqb_neq. intro H.
  apply (f_equal String.length) in H. rewrite string_length_app in H.
  destruct t; [now apply Ht|]. simpl in H. lia.
Qed.

Lemma charAt_chars_length (i : nat) :
  (i < 62)%nat -> String.length (Converter.charAt Converter.chars i) = 1%nat.
Proof.
  intro H. unfold Converter.charAt, Converter.chars.
  do 62 (destruct i as [|i]; [reflexivity|]). lia.
Qed.

Lemma disguiseLoop_length (draw : nat -> nat) :
  (forall i, (draw i < 62)%nat) ->
  forall rounds i result,
    String.length (Converter.disguiseLoop draw i rounds result)
    = (String.length result + rounds)%nat.
Proof.
  intros Hdraw rounds.
  induction rounds as [|rounds IH]; intros i result; simpl.
  - lia.
  - rewrite IH, string_length_app, charAt_chars_length by apply Hdraw. lia.
Qed.

Lemma disguised_changes_iff disguiseEnabled draw first index msg :
  negb (Converter.disguised disguiseEnabled draw first index msg
        =? Converter.content msg)%string
  = disguiseEnabled && (Converter.role msg =? "user")%string
    && Converter.isIndex first index.
Proof.
  unfold Converter.disguised.
  destruct (disguiseEnabled && (Converter.role msg =? "user")%string
            && Converter.isIndex first index).
  - rewrite string_app_neq; [reflexivity | discriminate].
  - now rewrite String.eqb_refl.
Qed.

Lemma findIndexFrom_spec (ms : list Converter.Message) :
  forall off,
    match Converter.findIndexFrom off ms with
    | Some j => exists i m, j = (off + i)%nat
                            /\ nth_error ms i = Some m
                            /\ Converter.role m = "user"
                            /\ forall i' m', (i' < i)%nat ->
                                             nth_error ms i' = Some m' ->
                                             Converter.role m' <> "user"
    | None => hasUserMessage ms = false
    end.
Proof.
  induction ms as [|m ms IH]; intro off; simpl.
  - reflexivity.
  - destruct (Converter.role m =? "user")%string eqn:E.
    + exists 0%nat, m. apply String.eqb_eq in E.
      split; [lia|]. split; [reflexivity|]. split; [exact E|].
      intros; lia.
    + specialize (IH (S off)).
      destruct (Converter.findIndexFrom (S off) ms) as [j|].
      * destruct IH as (i & m0 & -> & Hn & Hr & Hmin).
        exists (S i), m0.
        split; [lia|]. split; [exact Hn|]. split; [exact Hr|].
        intros [|i'] m' Hlt Hn'; simpl in Hn'.
        -- inversion Hn'; subst. now apply String.eqb_neq.
        -- apply (Hmin i' m'); [lia | exact Hn'].
      * exact IH.
Qed.

Lemma count_changed_from (ms : list Converter.Message) :
  forall off first,
    first = Converter.findIndexFrom off ms ->
    List.length
      (filter (fun im => (Converter.role (snd im) =? "user")%string
                         && Converter.isIndex first (fst im))
              (combine (seq off (List.length ms)) ms))
    = if hasUserMessage ms then 1%nat else 0%nat.
Proof.
  induction ms as [|m ms IH]; intros off first Hfirst; simpl.
  - reflexivity.
  - simpl in Hfirst.
    destruct (Converter.role m =? "user")%string eqn:E; simpl.
    + subst first. simpl. rewrite Nat.eqb_refl. simpl. f_equal.
      rewrite (filter_ext_in _ (fun _ => false)).
      * now rewrite filter_false.
      * intros [i m'] Hin. apply in_combine_l in Hin. apply in_seq in Hin.
        simpl. replace (i =? off)%nat with false.
        -- apply andb_false_r.
        -- symmetry. apply Nat.eqb_neq. lia.
    + now apply IH.
Qed.

Lemma findIndexFrom_ge (ms : list Converter.Message) :
  forall off j, Converter.findIndexFrom off ms = Some j -> (off <= j)%nat.
Proof.
  induction ms as [|m ms IH]; intros off j H; simpl in H.
  - discriminate.
  - destruct (Converter.role m =? "user")%string.
    + inversion H. lia.
    + apply IH in H. lia.
Qed.

(** Past the first user message nothing is touched. *)
Lemma convertFrom_untouched disguiseEnabled draw (ms : list Converter.Message) :
  forall off first,
    (forall j, first = Some j -> (j < off)%nat) ->
    Converter.convertFrom disguiseEnabled draw first off ms = plainContents ms.
Proof.
  induction ms as [|m ms IH]; intros off first Hlt; simpl.
  - reflexivity.
  - unfold Converter.convertMessage, Converter.disguised.
    replace (Converter.isIndex first off) with false.
    + rewrite andb_false_r.
      rewrite (IH (S off) first) by (intros j Hj; specialize (Hlt j Hj); lia).
      destruct (Converter.role m =? "system")%string; [reflexivity|].
      destruct (Converter.role m =? "user")%string; [reflexivity|].
      destruct (Converter.role m =? "assistant")%string; reflexivity.
    + destruct first as [j|]; [|reflexivity]. simpl.
      symmetry. apply Nat.eqb_neq. specialize (Hlt j eq_refl). lia.
Qed.

Lemma convertFrom_off draw (ms : list Converter.Message) :
  forall off first,
    Converter.convertFrom false draw first off ms = plainContents ms.
Proof.
  induction ms as [|m ms IH]; intros off first; simpl.
  - reflexivity.
  - unfold Converter.convertMessage, Converter.disguised. simpl.
    rewrite IH.
    destruct (Converter.role m =? "system")%string; [reflexivity|].
    destruct (Converter.role m =? "user")%string; [reflexivity|].
    destruct (Converter.role m =? "assistant")%string; reflexivity.
Qed.

Lemma convertFrom_on draw (ms : list Converter.Message) :
  forall off,
    Converter.convertFrom true draw (Converter.findIndexFrom off ms) off ms
    = plainContents
        match Converter.findIndexFrom off ms with
        | Some j => appendAt (j - off)
                      (" [" ++ Converter.generateDisguiseString draw ++ "]") ms
        | None => ms
        end.
Proof.
  induction ms as [|m ms IH]; intro off; simpl.
  - reflexivity.
  - destruct (Converter.role m =? "user")%string eqn:Hu.
    + rewrite Nat.sub_diag. simpl.
      unfold Converter.convertMessage, Converter.disguised.
      rewrite Hu. simpl. rewrite Nat.eqb_refl.
      apply String.eqb_eq in Hu.
      assert (Hs : (Converter.role m =? "system")%string = false)
        by (rewrite Hu; reflexivity).
      rewrite Hs.
      rewrite convertFrom_untouched; [reflexivity|].
      intros j Hj. inversion Hj. lia.
    + unfold Converter.convertMessage, Converter.disguised.
      rewrite Hu. simpl. rewrite IH.
      destruct (Converter.findIndexFrom (S off) ms) as [j|] eqn:Hf.
      * apply findIndexFrom_ge in Hf.
        replace (j - off)%nat with (S (j - S off)) by lia. simpl.
        rewrite Hu.
        destruct (Converter.role m =? "system")%string; [reflexivity|].
        destruct (Converter.role m =? "assistant")%string; reflexivity.
      * simpl. rewrite Hu.
        destruct (Converter.role m =? "system")%string; [reflexivity|].
        destruct (Converter.role m =? "assistant")%string; reflexivity.
Qed.

(** C8, as stated, fails twice over: in the current edge handler the last
    user message gets a request tag appended although the disguise
    feature is off; and with the feature on, a list without a user
    message has no message changed at all. *)
Lemma disguise_off_still_mutates :
  Converter.contents
    (Converter.edgeRequest false (fun _ => 0%nat) "req_1700000000000_k3j5h2x9q"
       (Converter.mkRequest [Converter.mkMessage "user" "hi"] None None))
  = [Converter.mkContent "user"
       ("hi" ++ String (ascii_of_nat 10) "<!-- req_1700000000000_k3j5h2x9q -->")]
  /\ mutatedCount true (fun _ => 0%nat) [Converter.mkMessage "system" "be brief"]
     = 0%nat.
Proof. split; reflexivity. Qed.

(** C8 (amended): in the converter, with draws inside the alphabet, the
    disguise step changes a message only when the feature is on, and then
    exactly the first message with role 'user', whose content grows by
    exactly 9 characters (a space, the bracketed 6-character token); so
    the number of changed messages is 1 when the list has a user message
    and 0 otherwise, and 0 whenever the feature is off; the converted
    contents are the plain role mapping of the list, with that one
    message extended when the feature is on.  Apart from the converter, the current edge handler appends its request tag to the
    last message when that is a user message, whatever the flag. *)
Theorem disguise_touches_first_user_message_only :
  forall (draw : nat -> nat) (ms : list Converter.Message),
    (forall i, (draw i < 62)%nat) ->
    let first := Converter.firstUserMessageIndex ms in
    (forall i msg,
        Converter.disguised false draw first i msg = Converter.content msg)
    /\ mutatedCount false draw ms = 0%nat
    /\ (forall i msg,
           nth_error ms i = Some msg ->
           (first = Some i ->
              Converter.role msg = "user"
              /\ (forall j m, (j < i)%nat -> nth_error ms j = Some m ->
                              Converter.role m <> "user")
              /\ Converter.disguised true draw first i msg
                 = Converter.content msg ++ " ["
                   ++ Converter.generateDisguiseString draw ++ "]"
              /\ String.length (Converter.generateDisguiseString draw) = 6%nat
              /\ String.length (Converter.disguised true draw first i msg)
                 = (String.length (Converter.content msg) + 9)%nat)
           /\ (first <> Some i ->
               Converter.disguised true draw first i msg = Converter.content msg))
    /\ mutatedCount true draw ms = (if hasUserMessage ms then 1 else 0)%nat
    /\ (forall mt t,
           Converter.contents
             (Converter.convertOpenAItoGemini false draw
                (Converter.mkRequest ms mt t))
           = plainContents ms
           /\ Converter.contents
                (Converter.convertOpenAItoGemini true draw
                   (Converter.mkRequest ms mt t))
              = plainContents
                  match first with
                  | Some j =>
                      appendAt j
                        (" [" ++ Converter.generateDisguiseString draw ++ "]") ms
                  | None => ms
                  end)
    /\ (forall tag m,
           Converter.enhanceMessages tag (ms ++ [m])%list
           = (ms ++ [if (Converter.role m =? "user")%string
                     then Converter.mkMessage (Converter.role m)
                            (Converter.content m
                             ++ String (ascii_of_nat 10) ("<!-- " ++ tag ++ " -->"))
                     else m])%list).
Proof.
  intros draw ms Hdraw first.
  assert (Hlen : String.length (Converter.generateDisguiseString draw) = 6%nat).
  { unfold Converter.generateDisguiseString.
    now rewrite disguiseLoop_length. }
  split; [|split; [|split; [|split; [|split]]]].
  - intros i msg. reflexivity.
  - unfold mutatedCount.
    rewrite (filter_ext _ (fun _ => false)); [now rewrite filter_false|].
    intros [i m]. now rewrite disguised_changes_iff.
  - intros i msg Hnth. split.
    + intro Hfirst.
      pose proof (findIndexFrom_spec ms 0) as Hspec.
      unfold first, Converter.firstUserMessageIndex in Hfirst.
      rewrite Hfirst in Hspec.
      destruct Hspec as (i0 & m0 & Hi & Hn0 & Hr & Hmin). simpl in Hi. subst i0.
      rewrite Hnth in Hn0. inversion Hn0; subst m0.
      assert (Hd : Converter.disguised true draw first i msg
                   = Converter.content msg ++ " ["
                     ++ Converter.generateDisguiseString draw ++ "]").
      { unfold Converter.disguised, first, Converter.firstUserMessageIndex.
        rewrite Hfirst, Hr. simpl. now rewrite Nat.eqb_refl. }
      repeat split; auto.
      rewrite Hd, !string_length_app, Hlen. simpl. lia.
    + intro Hne. unfold Converter.disguised.
      replace (Converter.isIndex first i) with false;
        [now rewrite andb_false_r|].
      destruct first as [j|]; [|reflexivity]. simpl.
      symmetry. apply Nat.eqb_neq. congruence.
  - unfold mutatedCount.
    rewrite (filter_ext _ (fun im => (Converter.role (snd im) =? "user")%string
                                     && Converter.isIndex first (fst im))).
    + now apply count_changed_from.
    + intros [i m]. now rewrite disguised_changes_iff.
  - intros mt t. unfold Converter.convertOpenAItoGemini. simpl. split.
    + apply convertFrom_off.
    + unfold first, Converter.firstUserMessageIndex.
      rewrite convertFrom_on.
      destruct (Converter.findIndexFrom 0 ms) as [j|]; [|reflexivity].
      now rewrite Nat.sub_0_r.
  - intros tag m. clear.
    induction ms as [|m0 ms IH]; simpl.
    + destruct (Converter.role m =? "user")%string; reflexivity.
    + rewrite IH. destruct (ms ++ [m])%list eqn:E; [|reflexivity].
      destruct ms; discriminate.
Qed.

Lemma disguise_touches_first_user_message_only_witness :
  let draw := fun i => Nat.min (i * 7) 61 in
  let ms := [Converter.mkMessage "system" "be brief";
             Converter.mkMessage "user" "hello";
             Converter.mkMessage "assistant" "hi";
             Converter.mkMessage "user" "again"] in
  Converter.disguised true draw (Converter.firstUserMessageIndex ms) 1
                      (Converter.mkMessage "user" "hello")
  = "hello [AHOVcj]"
  /\ mutatedCount true draw ms = 1%nat.
Proof.
  pose proof (disguise_touches_first_user_message_only
                (fun i => Nat.min (i * 7) 61)
                [Converter.mkMessage "system" "be brief";
                 Converter.mkMessage "user" "hello";
                 Converter.mkMessage "assistant" "hi";
                 Converter.mkMessage "user" "again"]) as H.
  destruct H as (_ & _ & H1 & H2 & _).
  - intro i. lia.
  - split.
    + destruct (H1 1%nat (Converter.mkMessage "user" "hello") eq_refl)
        as ((_ & _ & Hd & _) & _); [reflexivity|].
      rewrite Hd. reflexivity.
    + exact H2.
Defined.

(* ===================================================================== *)
(** ** Fake-stream reassembly (C5)                                        *)
(* ===================================================================== *)

Section SplitterFacts.

Import FakeStream.

Variable fullText : Text.

Lemma slice_skipn (a b : nat) :
  (a <= b)%nat ->
  (slice fullText a b ++ skipn b fullText)%list = skipn a fullText.
Proof.
  intro Hab. unfold slice.
  replace (skipn b fullText) with (skipn (b - a) (skipn a fullText)).
  - apply firstn_skipn.
  - rewrite skipn_skipn. f_equal. lia.
Qed.

Lemma seekBack_bounds (currentIndex endIndex : nat) :
  (currentIndex <= endIndex)%nat ->
  (currentIndex <= seekBack fullText currentIndex endIndex <= endIndex)%nat.
Proof.
  induction endIndex as [|e IH]; intro H; cbn [seekBack].
  - lia.
  - destruct (currentIndex <? S e)%nat eqn:Hlt; cbn [andb]; [|lia].
    apply Nat.ltb_lt in Hlt.
    destruct (nth_error fullText (S e)) as [c|]; [|lia].
    destruct ((127 <? c)%Z && negb (isBreak c)); [|lia].
    assert (currentIndex <= e)%nat by lia.
    specialize (IH H0). lia.
Qed.

(** Where the backward walk stops above [currentIndex], the unit under
    it is ASCII or a separator. *)
Lemma seekBack_stops (currentIndex endIndex : nat) :
  let e := seekBack fullText currentIndex endIndex in
  (currentIndex < e)%nat ->
  forall c, nth_error fullText e = Some c ->
            (c <= 127)%Z \/ isBreak c = true.
Proof.
  induction endIndex as [|e' IH]; cbn [seekBack]; cbv zeta.
  - lia.
  - destruct (currentIndex <? S e')%nat eqn:Hlt; cbn [andb].
    + destruct (nth_error fullText (S e')) as [c0|] eqn:Hn.
      * destruct ((127 <? c0)%Z && negb (isBreak c0)) eqn:Hc.
        -- exact IH.
        -- intros _ c Hc'. rewrite Hn in Hc'. inversion Hc'; subst c0.
           apply andb_false_iff in Hc. destruct Hc as [Hc | Hc].
           ++ left. apply Z.ltb_ge in Hc. exact Hc.
           ++ right. now apply negb_false_iff in Hc.
      * intros _ c Hc'. rewrite Hn in Hc'. discriminate.
    + apply Nat.ltb_ge in Hlt. lia.
Qed.

Lemma nextEnd_bounds (currentIndex : nat) :
  (currentIndex <= List.length fullText)%nat ->
  (currentIndex <= nextEnd fullText currentIndex <= List.length fullText)%nat.
Proof.
  intro Hcur. unfold nextEnd.
  set (endIndex := Nat.min (currentIndex + chunkSize fullText)
                           (List.length fullText)).
  assert (Hend : (currentIndex <= endIndex <= List.length fullText)%nat)
    by (unfold endIndex; lia).
  destruct (endIndex <? List.length fullText)%nat eqn:Hlt; [|lia].
  apply Nat.ltb_lt in Hlt.
  destruct (nth_error fullText endIndex) as [c|]; [|lia].
  destruct (127 <? c)%Z; [|lia].
  pose proof (seekBack_bounds currentIndex endIndex (proj1 Hend)) as Hb.
  destruct ((currentIndex <? seekBack fullText currentIndex endIndex)%nat
            && match nth_error fullText
                       (seekBack fullText currentIndex endIndex) with
               | Some c' => isBreak c'
               | None => false
               end); lia.
Qed.

(** A cut strictly inside the text sits right before an ASCII unit or
    right after a separator. *)
Lemma nextEnd_cut (currentIndex : nat) :
  let b := nextEnd fullText currentIndex in
  (currentIndex < b)%nat -> (b < List.length fullText)%nat ->
  (exists c, nth_error fullText b = Some c /\ (c <= 127)%Z)
  \/ (exists c, nth_error fullText (b - 1) = Some c /\ isBreak c = true).
Proof.
  unfold nextEnd.
  set (endIndex := Nat.min (currentIndex + chunkSize fullText)
                           (List.length fullText)).
  destruct (endIndex <? List.length fullText)%nat eqn:Hlt;
    [|apply Nat.ltb_ge in Hlt; simpl; lia].
  destruct (nth_error fullText endIndex) as [c|] eqn:Hn.
  - destruct (127 <? c)%Z eqn:Hc.
    + set (e := seekBack fullText currentIndex endIndex).
      pose proof (seekBack_stops currentIndex endIndex) as Hstop.
      fold e in Hstop. simpl in Hstop.
      destruct (currentIndex <? e)%nat eqn:He; simpl.
      * apply Nat.ltb_lt in He.
        destruct (nth_error fullText e) as [c'|] eqn:Hn'.
        -- destruct (isBreak c') eqn:Hb.
           ++ intros _ _. right. exists c'.
              replace (S e - 1)%nat with e by lia. auto.
           ++ intros _ _. left. exists c'. split; [exact Hn'|].
              destruct (Hstop He c' eq_refl) as [H|H]; [exact H|congruence].
        -- intros _ Hlen. apply nth_error_None in Hn'. lia.
      * intros H _. apply Nat.ltb_ge in He. lia.
    + intros _ _. left. exists c. split; [exact Hn|].
      now apply Z.ltb_ge in Hc.
  - intros _ H. apply nth_error_None in Hn. lia.
Qed.

Lemma isBreak_not_high (c : Z) : isBreak c = true -> isHighSurrogate c = false.
Proof.
  unfold isBreak, isSpace, isHighSurrogate. intro H.
  destruct ((55296 <=? c)%Z && (c <=? 56319)%Z) eqn:E; [|reflexivity].
  exfalso. apply andb_true_iff in E. destruct E as [E1 E2].
  apply Z.leb_le in E1. apply Z.leb_le in E2.
  repeat (apply orb_true_iff in H; destruct H as [H | H]);
    try (apply andb_true_iff in H; destruct H as [H H']);
    try apply Z.eqb_eq in H; try apply Z.leb_le in H;
    try apply Z.leb_le in H'; lia.
Qed.

Lemma ascii_not_low (c : Z) : (c <= 127)%Z -> isLowSurrogate c = false.
Proof.
  unfold isLowSurrogate. intro H.
  destruct (56320 <=? c)%Z eqn:E; [|reflexivity].
  apply Z.leb_le in E. lia.
Qed.

Lemma nextEnd_keeps_pairs (currentIndex : nat) :
  let b := nextEnd fullText currentIndex in
  (currentIndex < b)%nat -> (b < List.length fullText)%nat ->
  splitsPair fullText b = false.
Proof.
  intros b Hlt Hlen.
  destruct (nextEnd_cut currentIndex Hlt Hlen) as [(c & Hc & Hle) | (c & Hc & Hbr)];
    fold b in Hc; unfold splitsPair; destruct b as [|a]; try reflexivity.
  - rewrite Hc. destruct (nth_error fullText a); [|reflexivity].
    rewrite (ascii_not_low c Hle). apply andb_false_r.
  - replace (S a - 1)%nat with a in Hc by lia. rewrite Hc.
    destruct (nth_error fullText (S a)); [|reflexivity].
    now rewrite (isBreak_not_high c Hbr).
Qed.

(** Partial correctness of the outer loop: whatever it slices, in
    order, is the rest of the text. *)
Lemma ranges_concat (fuel : nat) :
  forall currentIndex rs,
    (currentIndex <= List.length fullText)%nat ->
    ranges fuel fullText currentIndex = Some rs ->
    List.concat (pieces fullText rs) = skipn currentIndex fullText.
Proof.
  induction fuel as [|fuel IH]; intros cur rs Hcur H; simpl in H.
  - destruct (List.length fullText <=? cur)%nat eqn:E; [|discriminate].
    inversion H; subst. simpl. apply Nat.leb_le in E.
    symmetry. now apply skipn_all2.
  - destruct (List.length fullText <=? cur)%nat eqn:E.
    + inversion H; subst. simpl. apply Nat.leb_le in E.
      symmetry. now apply skipn_all2.
    + destruct (ranges fuel fullText (nextEnd fullText cur)) as [rs'|] eqn:Hr;
        [|discriminate].
      inversion H; subst. simpl.
      pose proof (nextEnd_bounds cur Hcur) as Hb.
      rewrite (IH _ _ (proj2 Hb) Hr).
      apply slice_skipn. lia.
Qed.

(** A step that does not move never will: the loop spins. *)
Lemma ranges_stuck (currentIndex : nat) :
  (currentIndex < List.length fullText)%nat ->
  nextEnd fullText currentIndex = currentIndex ->
  forall fuel, ranges fuel fullText currentIndex = None.
Proof.
  intros Hlt Hfix fuel.
  induction fuel as [|fuel IH]; simpl;
    (replace (List.length fullText <=? currentIndex)%nat with false
      by (symmetry; apply Nat.leb_gt; exact Hlt)).
  - reflexivity.
  - rewrite Hfix, IH. reflexivity.
Qed.

(** Every range of a finished run is a real step forward, cut where
    [nextEnd] says. *)
Lemma ranges_cuts (fuel : nat) :
  forall currentIndex rs,
    (currentIndex <= List.length fullText)%nat ->
    ranges fuel fullText currentIndex = Some rs ->
    forall a b, In (a, b) rs ->
                (a < b <= List.length fullText)%nat /\ b = nextEnd fullText a.
Proof.
  induction fuel as [|fuel IH]; intros cur rs Hcur H a b Hin; simpl in H;
    destruct (List.length fullText <=? cur)%nat eqn:E;
    try discriminate; try (inversion H; subst; contradiction).
  destruct (ranges fuel fullText (nextEnd fullText cur)) as [rs'|] eqn:Hr;
    [|discriminate].
  inversion H; subst. apply Nat.leb_gt in E.
  pose proof (nextEnd_bounds cur Hcur) as Hb.
  destruct Hin as [Heq | Hin].
  - inversion Heq; subst. split; [|reflexivity].
    destruct (Nat.eq_dec (nextEnd fullText a) a) as [Hfix | Hne]; [|lia].
    rewrite Hfix in Hr. rewrite (ranges_stuck a E Hfix fuel) in Hr.
    discriminate.
  - apply (IH _ _ (proj2 Hb) Hr a b Hin).
Qed.

(** Total correctness needs the steps to advance. *)
Lemma ranges_terminates :
  advances fullText ->
  forall fuel currentIndex,
    (List.length fullText - currentIndex <= fuel)%nat ->
    exists rs, ranges fuel fullText currentIndex = Some rs.
Proof.
  intros Hadv fuel.
  induction fuel as [|fuel IH]; intros cur Hfuel; simpl.
  - replace (List.length fullText <=? cur)%nat with true; [eauto|].
    symmetry. apply Nat.leb_le. lia.
  - destruct (List.length fullText <=? cur)%nat eqn:E; [eauto|].
    apply Nat.leb_gt in E. specialize (Hadv cur E).
    destruct (IH (nextEnd fullText cur)) as [rs Hrs]; [lia|].
    rewrite Hrs. simpl. eauto.
Qed.

Lemma ascii_text_advances :
  Forall (fun c => (c <= 127)%Z) fullText -> advances fullText.
Proof.
  intros Hascii cur Hcur. unfold nextEnd.
  set (endIndex := Nat.min (cur + chunkSize fullText) (List.length fullText)).
  assert (Hend : (cur < endIndex)%nat) by (unfold endIndex, chunkSize; lia).
  destruct (endIndex <? List.length fullText)%nat; [|exact Hend].
  destruct (nth_error fullText endIndex) as [c|] eqn:Hn; [|exact Hend].
  apply nth_error_In in Hn.
  rewrite Forall_forall in Hascii. specialize (Hascii c Hn).
  replace (127 <? c)%Z with false; [exact Hend|].
  symmetry. apply Z.ltb_ge. exact Hascii.
Qed.

Lemma sendChunk_concat :
  forall fuel currentIndex,
    (List.length fullText - currentIndex <= fuel)%nat ->
    exists chunks,
      sendChunk fuel fullText currentIndex = Some chunks
      /\ List.concat chunks = skipn currentIndex fullText
      /\ Forall (fun chunk => chunk <> []) chunks.
Proof.
  induction fuel as [|fuel IH]; intros cur Hfuel; cbn [sendChunk].
  - replace (cur <? List.length fullText)%nat with false
      by (symmetry; apply Nat.ltb_ge; lia).
    exists []. repeat split; [|constructor].
    symmetry. apply skipn_all2. lia.
  - destruct (cur <? List.length fullText)%nat eqn:E.
    + destruct (IH (cur + 3)%nat) as (rest & Hrest & Hcat & Hne); [lia|].
      rewrite Hrest. simpl.
      assert (Hsl : (slice fullText cur (cur + 3) ++ skipn (cur + 3) fullText)%list
                    = skipn cur fullText) by (apply slice_skipn; lia).
      destruct (slice fullText cur (cur + 3)) as [|c chunk] eqn:Hs.
      * exists rest. repeat split; auto. now rewrite Hcat.
      * exists ((c :: chunk) :: rest). repeat split.
        -- simpl. rewrite Hcat. exact Hsl.
        -- constructor; [discriminate | exact Hne].
    + apply Nat.ltb_ge in E.
      exists []. repeat split; [|constructor].
      symmetry. now apply skipn_all2.
Qed.

End SplitterFacts.

(** The current splitter never finishes on seventeen CJK units: the
    backward walk reaches [currentIndex], the slice is empty, and the
    index does not move. *)
Lemma cjk_run_never_finishes :
  forall fuel, FakeStream.ranges fuel Texts.zhong17 0 = None.
Proof. apply ranges_stuck; [simpl; lia | reflexivity]. Qed.

(** The legacy splitter cuts every three units, also inside a surrogate
    pair. *)
Lemma legacy_splits_surrogate_pair :
  FakeStream.sendChunk 4 Texts.smiley 0 = Some [[97; 98; 55357]; [56832]]%Z
  /\ FakeStream.splitsPair Texts.smiley 3 = true.
Proof. split; reflexivity. Qed.

(** C5, as stated, fails on the current splitter: a slice made of
    whitespace only is not emitted, so the emitted chunks of
    ["Hello, world!!!\n"] concatenate to the text without its final line
    feed. *)
Lemma blank_slice_is_dropped :
  option_map (fun rs => List.concat (FakeStream.emitted
                                  (FakeStream.pieces Texts.hello rs)))
             (FakeStream.ranges (List.length Texts.hello) Texts.hello 0)
  = Some (firstn 15 Texts.hello)
  /\ firstn 15 Texts.hello <> Texts.hello
  /\ FakeStream.blank Texts.hello = false.
Proof. split; [reflexivity | split; [discriminate | reflexivity]]. Qed.

(** C5 (amended): whenever the loop of the current splitter ends, the
    slices it has cut, in order, concatenate to the full text; the
    emitted chunks are those slices without the whitespace-only ones, so
    they concatenate to the full text whenever no slice is
    whitespace-only; every slice is non-empty, and no cut falls between
    the two halves of a surrogate pair.  The loop does end, within as
    many rounds as the text has units, on every text on which each step
    advances, which includes every ASCII text.  The legacy splitter, on
    every text, emits non-empty chunks that concatenate to the full
    text. *)
Theorem fake_stream_chunks_reassemble :
  forall fullText : FakeStream.Text,
    (forall fuel rs,
        FakeStream.ranges fuel fullText 0 = Some rs ->
        List.concat (FakeStream.pieces fullText rs) = fullText
        /\ FakeStream.emitted (FakeStream.pieces fullText rs)
           = filter (fun chunk => negb (FakeStream.blank chunk))
                    (FakeStream.pieces fullText rs)
        /\ (forallb (fun chunk => negb (FakeStream.blank chunk))
                    (FakeStream.pieces fullText rs) = true ->
            List.concat (FakeStream.emitted (FakeStream.pieces fullText rs))
            = fullText)
        /\ (forall a b, In (a, b) rs ->
               (a < b <= List.length fullText)%nat
               /\ ((b < List.length fullText)%nat ->
                   FakeStream.splitsPair fullText b = false)))
    /\ (advances fullText ->
        exists rs,
          FakeStream.ranges (List.length fullText) fullText 0 = Some rs)
    /\ (Forall (fun c => (c <= 127)%Z) fullText -> advances fullText)
    /\ (exists chunks,
           FakeStream.sendChunk (List.length fullText) fullText 0 = Some chunks
           /\ List.concat chunks = fullText
           /\ Forall (fun chunk => chunk <> []) chunks).
Proof.
  intro fullText. split; [|split; [|split]].
  - intros fuel rs Hrs.
    pose proof (ranges_concat fullText _ 0 rs (Nat.le_0_l _) Hrs) as Hcat.
    simpl in Hcat.
    split; [exact Hcat|]. split; [reflexivity|]. split.
    + intro Hall. unfold FakeStream.emitted.
      rewrite (forallb_filter_id _ _ Hall). exact Hcat.
    + intros a b Hin.
      destruct (ranges_cuts fullText _ 0 rs (Nat.le_0_l _) Hrs a b Hin)
        as [Hab ->].
      split; [exact Hab|].
      intro Hlen. apply nextEnd_keeps_pairs; [lia | exact Hlen].
  - intro Hadv.
    apply (ranges_terminates fullText Hadv (List.length fullText) 0). lia.
  - apply ascii_text_advances.
  - destruct (sendChunk_concat fullText (List.length fullText) 0)
      as (chunks & H1 & H2 & H3); [lia|].
    exists chunks. auto.
Qed.

Lemma fake_stream_chunks_reassemble_witness :
  FakeStream.ranges (List.length Texts.zhongComma) Texts.zhongComma 0
  = Some [(0, 11); (11, 21)]%nat
  /\ List.concat (FakeStream.pieces Texts.zhongComma [(0, 11); (11, 21)]%nat)
     = Texts.zhongComma
  /\ List.concat (FakeStream.emitted
                    (FakeStream.pieces Texts.zhongComma [(0, 11); (11, 21)]%nat))
     = Texts.zhongComma
  /\ FakeStream.splitsPair Texts.zhongComma 11 = false
  /\ advances Texts.hello.
Proof.
  destruct (fake_stream_chunks_reassemble Texts.zhongComma) as (Hrun & _).
  destruct (Hrun (List.length Texts.zhongComma) [(0, 11); (11, 21)]%nat eq_refl)
    as (Hcat & _ & Hemit & Hcuts).
  destruct (fake_stream_chunks_reassemble Texts.hello) as (_ & _ & Hascii & _).
  split; [reflexivity|].
  split; [exact Hcat|].
  split; [apply Hemit; reflexivity|].
  split.
  - apply (Hcuts 0%nat 11%nat); [left; reflexivity | simpl; lia].
  - apply Hascii. unfold Texts.hello.
    repeat (constructor; [lia|]). constructor.
Defined.

(* ===================================================================== *)
(** ** The loop: bookkeeping                                              *)
(* ===================================================================== *)

Section Bookkeeping.

Context {World : Type}.
Variable upstream : Strategy -> GeminiKey -> World -> Outcome * World.
Variable attempt : GeminiKey -> Poll World -> Outcome * Poll World.
Variable strategy : Strategy.
Variable isStream : bool.

Hypothesis attempt_is_one_call :
  forall key st, attempt key st = call World upstream strategy key st.

Lemma logStatus_failure (m : string) : failureStatus (logStatus m).
Proof.
  unfold logStatus, failureStatus.
  destruct (Js.includes "quota" m); [auto|].
  destruct (Js.includes "API_KEY_INVALID" m); [auto|].
  destruct (Js.includes "Not Found" m); auto.
Qed.

(** What one run of the loop adds to the state. *)
Lemma poll_trace keys :
  forall st,
  exists done rest,
    keys = (done ++ rest)%list
    /\ let st' := snd (poll World attempt isStream keys st) in
       triedKeys st' = (triedKeys st ++ map id done)%list
       /\ usage st' = (usage st ++ map id done)%list
       /\ calls st' = (calls st ++ map (fun k => (strategy, id k)) done)%list
       /\ map gemini_key_id (logs st')
          = (map gemini_key_id (logs st) ++ map id done)%list.
Proof.
  induction keys as [|key keys IH]; intro st.
  - exists [], []. simpl. rewrite !app_nil_r. auto.
  - simpl poll. rewrite attempt_is_one_call. unfold call.
    destruct (upstream strategy key (world (enter World key st)))
      as [[p|e] w'] eqn:Hup.
    + exists [key], keys. simpl. rewrite map_app. auto.
    + destruct (isRetryableError e).
      * match goal with
        | |- context [poll _ _ _ keys ?s] =>
            destruct (IH s) as (done & rest & -> & Ht & Hu & Hc & Hl)
        end.
        exists (key :: done), rest. split; [reflexivity|].
        cbv zeta in *. rewrite Ht, Hu, Hc, Hl. simpl.
        rewrite map_app. simpl. rewrite <- !app_assoc. auto.
      * exists [key], keys. simpl. rewrite map_app. auto.
Qed.

(** The rows the loop writes: failure rows, closed by one success row
    exactly when a payload comes back. *)
Lemma poll_rows keys :
  forall st,
    let r := poll World attempt isStream keys st in
    exists rows,
      Forall failureRow rows
      /\ match fst r with
         | Some _ => exists key,
             logs (snd r)
             = (logs st ++ rows ++ [mkLog (id key) 200 isStream None])%list
         | None => logs (snd r) = (logs st ++ rows)%list
         end.
Proof.
  induction keys as [|key keys IH]; intro st.
  - exists []. simpl. split; [constructor | now rewrite app_nil_r].
  - simpl poll. rewrite attempt_is_one_call. unfold call.
    destruct (upstream strategy key (world (enter World key st)))
      as [[p|e] w'] eqn:Hup.
    + exists []. simpl. split; [constructor | exists key; reflexivity].
    + assert (Hrow : failureRow (mkLog (id key) (logStatus (Js.errorMsg e))
                                       isStream (Some (Js.errorMsg e)))).
      { split; [apply logStatus_failure | eexists; split; reflexivity]. }
      destruct (isRetryableError e).
      * match goal with
        | |- context [poll _ _ _ keys ?s] =>
            destruct (IH s) as (rows & Hrows & Hlogs)
        end.
        exists (mkLog (id key) (logStatus (Js.errorMsg e)) isStream
                      (Some (Js.errorMsg e)) :: rows).
        split; [constructor; assumption|].
        cbv zeta in *.
        match goal with
        | |- match fst ?r with _ => _ end =>
            destruct (fst r) as [q|]
        end.
        -- destruct Hlogs as [k Hk]. exists k. rewrite Hk. simpl.
           now rewrite <- app_assoc.
        -- rewrite Hlogs. simpl. now rewrite <- app_assoc.
      * exists [mkLog (id key) (logStatus (Js.errorMsg e)) isStream
                      (Some (Js.errorMsg e))].
        split; [constructor; [assumption | constructor] | reflexivity].
Qed.

(** Who gets marked invalid: only keys of the list on which an upstream
    call threw a retryable error with invalid-key text. *)
Lemma poll_invalid keys :
  forall st,
    let st' := snd (poll World attempt isStream keys st) in
    exists marked,
      invalid st' = (invalid st ++ marked)%list
      /\ Forall (fun k =>
                   exists key e w w',
                     In key keys /\ id key = k
                     /\ upstream strategy key w = (Thrown e, w')
                     /\ isRetryableError e = true
                     /\ looksInvalidKey (Js.errorMsg e) = true)
                marked.
Proof.
  induction keys as [|key keys IH]; intro st.
  - exists []. simpl. split; [now rewrite app_nil_r | constructor].
  - simpl poll. rewrite attempt_is_one_call. unfold call.
    destruct (upstream strategy key (world (enter World key st)))
      as [[p|e] w'] eqn:Hup.
    + exists []. simpl. split; [now rewrite app_nil_r | constructor].
    + destruct (isRetryableError e) eqn:Hr.
      * match goal with
        | |- context [poll _ _ _ keys ?s] =>
            destruct (IH s) as (marked & Hinv & Hall)
        end.
        cbv zeta in *. rewrite Hinv. cbn [invalid onFailure enter].
        rewrite Hr. cbn [andb].
        assert (Hlater :
                  Forall (fun k =>
                   exists key0 e0 w w'0,
                     In key0 (key :: keys) /\ id key0 = k
                     /\ upstream strategy key0 w = (Thrown e0, w'0)
                     /\ isRetryableError e0 = true
                     /\ looksInvalidKey (Js.errorMsg e0) = true)
                marked).
        { eapply Forall_impl; [|exact Hall].
          intros k (k0 & e0 & w0 & w1 & Hin & H1 & H2 & H3 & H4).
          exists k0, e0, w0, w1. repeat split; auto. now right. }
        destruct (looksInvalidKey (Js.errorMsg e)) eqn:Hk.
        -- exists (id key :: marked). split.
           ++ now rewrite <- app_assoc.
           ++ constructor; [|exact Hlater].
              exists key, e, (world (enter World key st)), w'.
              repeat split; auto. now left.
        -- exists marked. split; [reflexivity | exact Hlater].
      * exists []. cbn [snd invalid onFailure enter]. rewrite Hr. cbn [andb].
        split; [now rewrite app_nil_r | constructor].
Qed.

(** The last error kept by the loop is [null] or something thrown by the
    upstream during this run. *)
Lemma poll_lastError keys :
  forall st,
    let st' := snd (poll World attempt isStream keys st) in
    lastError st' = lastError st
    \/ exists key w w', In key keys
                        /\ upstream strategy key w = (Thrown (lastError st'), w').
Proof.
  induction keys as [|key keys IH]; intro st.
  - left. reflexivity.
  - simpl poll. rewrite attempt_is_one_call. unfold call.
    destruct (upstream strategy key (world (enter World key st)))
      as [[p|e] w'] eqn:Hup.
    + left. reflexivity.
    + destruct (isRetryableError e).
      * match goal with
        | |- context [poll _ _ _ keys ?s] => destruct (IH s) as [H | H]
        end.
        -- right. cbv zeta in *. rewrite H. simpl.
           exists key, (world (enter World key st)), w'. split; [now left|].
           exact Hup.
        -- right. destruct H as (k & w0 & w1 & Hin & Hk).
           exists k, w0, w1. split; [now right | exact Hk].
      * right. simpl.
        exists key, (world (enter World key st)), w'. split; [now left|].
        exact Hup.
Qed.

End Bookkeeping.

Lemma finish_snd {World : Type} (b : bool) (r : option Payload * Poll World) :
  snd (finish World b r) = snd r.
Proof. destruct r as [[p|] st]; reflexivity. Qed.

Lemma finish_fst_ok {World : Type} (b : bool) (r : option Payload * Poll World) :
  match fst (finish World b r), fst r with
  | Ok200 _, Some _ => True
  | Failed _, None => True
  | _, _ => False
  end.
Proof. destruct r as [[p|] st]; exact I. Qed.

Section HandlerBookkeeping.

Context {World : Type}.
Variable upstream : Strategy -> GeminiKey -> World -> Outcome * World.

Lemma poll_recordedOnce attempt strategy isStream
    (H : forall key st, attempt key st = call World upstream strategy key st)
    (order : list GeminiKey) (w : World) :
  recordedOnce order (snd (poll World attempt isStream order (start World w))).
Proof.
  destruct (poll_trace upstream attempt strategy isStream H order (start World w))
    as (done & rest & Horder & Ht & Hu & Hc & Hl).
  simpl in Ht, Hu, Hc, Hl. unfold recordedOnce.
  rewrite Ht, Hu, Hc, Hl, map_map. simpl.
  repeat split; auto. exists done, rest. auto.
Qed.

Lemma poll_rowsMatchReply attempt strategy isStream b
    (H : forall key st, attempt key st = call World upstream strategy key st)
    (order : list GeminiKey) (w : World) :
  rowsMatchReply isStream
    (finish World b (poll World attempt isStream order (start World w))).
Proof.
  destruct (poll_rows upstream attempt strategy isStream H order (start World w))
    as (rows & Hrows & Hlogs).
  cbv zeta in Hlogs. unfold rowsMatchReply.
  destruct (poll World attempt isStream order (start World w)) as [[p|] st];
    simpl in *.
  - destruct Hlogs as [key Hk]. exists rows, key. auto.
  - now rewrite Hlogs.
Qed.

End HandlerBookkeeping.

(** X1: in all three handlers, whatever the upstream does, every key
    entered by the loop leaves exactly one usage update, one upstream
    call and one log row, in the order of the attempts, and the keys
    entered are an initial stretch of the order the handler follows. *)
Theorem every_attempt_is_recorded_once :
  forall (World : Type)
         (upstream : Strategy -> GeminiKey -> World -> Outcome * World)
         (coin : nat -> bool) (isStream : bool) (cfg : StreamingConfig)
         (availableKeys : list GeminiKey) (w : World),
    recordedOnce (shuffledKeys coin availableKeys)
      (snd (handlerEdge World upstream coin isStream cfg availableKeys w))
    /\ recordedOnce availableKeys
         (snd (handlerLegacy World upstream isStream cfg availableKeys w))
    /\ recordedOnce availableKeys
         (snd (handlerServerless World upstream isStream availableKeys w)).
Proof.
  intros. unfold handlerEdge, handlerLegacy, handlerServerless.
  rewrite !finish_snd. split; [|split].
  - apply (poll_recordedOnce upstream _ (selectStrategy isStream cfg)).
    reflexivity.
  - apply (poll_recordedOnce upstream _ (legacyStrategy isStream cfg)).
    apply attemptLegacy_single_call.
  - apply (poll_recordedOnce upstream _
             (if isStream then handleRealStream else handleNonStream)).
    reflexivity.
Qed.

(** X2: an attempt that throws a non-retryable error ends the loop at
    once: the handler answers with the error synthesized from that very
    error, and the state is the one that attempt left plus its failure
    row, so no candidate after it is touched. *)
Theorem non_retryable_failure_ends_polling :
  forall (World : Type)
         (attempt : GeminiKey -> Poll World -> Outcome * Poll World)
         (isStream emptyBranch : bool)
         (pre post : list GeminiKey) (key : GeminiKey)
         (st st_k st1 : Poll World) (e : Js.Error),
    FailedThrough attempt isStream pre st st_k ->
    attempt key (enter World key st_k) = (Thrown e, st1) ->
    isRetryableError e = false ->
    let r := finish World emptyBranch
               (poll World attempt isStream (pre ++ key :: post)%list st) in
    fst r = Failed (exhaustionError emptyBranch e (List.length (triedKeys st1)))
    /\ snd r = onFailure World isStream key e st1
    /\ world (snd r) = world st1
    /\ calls (snd r) = calls st1
    /\ invalid (snd r) = invalid st1.
Proof.
  intros World attempt isStream emptyBranch pre post key st st_k st1 e
         Hpre Hkey Hr.
  rewrite (poll_after_failures attempt isStream pre _ _ _ Hpre).
  simpl. rewrite Hkey, Hr. simpl. rewrite Hr. simpl.
  repeat split; reflexivity.
Qed.

Lemma non_retryable_failure_ends_polling_witness :
  let r := finish nat true
             (poll nat (attemptEdge nat Refusing.upstream false
                          (mkConfig true false)) false
                   ([Demo.k1] ++ Demo.k2 :: [Demo.k3])%list (start nat 0)) in
  fst r = Failed (mkApiError 401 "All API keys are invalid")
  /\ triedKeys (snd r) = ["key-1"; "key-2"]
  /\ world (snd r) = 2%nat
  /\ invalid (snd r) = [].
Proof.
  destruct (non_retryable_failure_ends_polling nat
              (attemptEdge nat Refusing.upstream false (mkConfig true false))
              false true [Demo.k1] [Demo.k3] Demo.k2 (start nat 0)
              (snd (poll nat (attemptEdge nat Refusing.upstream false
                                (mkConfig true false)) false
                         [Demo.k1] (start nat 0)))
              (snd (attemptEdge nat Refusing.upstream false (mkConfig true false)
                      Demo.k2
                      (enter nat Demo.k2
                         (snd (poll nat (attemptEdge nat Refusing.upstream false
                                           (mkConfig true false)) false
                                    [Demo.k1] (start nat 0))))))
              (Some Refusing.unauthorized))
    as (Hreply & Hstate & Hworld & _ & Hinv).
  - eapply ft_cons; [reflexivity | reflexivity | apply ft_nil].
  - reflexivity.
  - reflexivity.
  - cbv zeta. rewrite Hreply, Hstate. repeat split; reflexivity.
Defined.

(** X3: in the two edge handlers, and in the serverless handler for a
    request that does not stream, the rows written for one request are
    failure rows (status 429, 401, 404 or 500, with the error text),
    closed by exactly one status-200 row when, and only when, the reply
    is a 200: a request never logs two successes, and never logs a
    success it does not deliver.  (A streaming request to the serverless
    handler is left out: there [callGeminiWithKey] writes the head with
    status 200 before it reads the stream, so a stream that breaks is
    answered 200 with failure rows only.) *)
Theorem success_row_closes_the_log :
  forall (World : Type)
         (upstream : Strategy -> GeminiKey -> World -> Outcome * World)
         (coin : nat -> bool) (isStream : bool) (cfg : StreamingConfig)
         (availableKeys : list GeminiKey) (w : World),
    rowsMatchReply isStream
      (handlerEdge World upstream coin isStream cfg availableKeys w)
    /\ rowsMatchReply isStream
         (handlerLegacy World upstream isStream cfg availableKeys w)
    /\ rowsMatchReply false
         (handlerServerless World upstream false availableKeys w).
Proof.
  intros. unfold handlerEdge, handlerLegacy, handlerServerless.
  split; [|split].
  - apply (poll_rowsMatchReply upstream _ (selectStrategy isStream cfg)).
    reflexivity.
  - apply (poll_rowsMatchReply upstream _ (legacyStrategy isStream cfg)).
    apply attemptLegacy_single_call.
  - apply (poll_rowsMatchReply upstream _ handleNonStream).
    reflexivity.
Qed.

Section HandlerInvalidation.

Context {World : Type}.
Variable upstream : Strategy -> GeminiKey -> World -> Outcome * World.

Lemma poll_markedForCause attempt strategy isStream
    (H : forall key st, attempt key st = call World upstream strategy key st)
    (order availableKeys : list GeminiKey) (w : World) :
  (forall key, In key order -> In key availableKeys) ->
  Forall (markedForCause upstream availableKeys)
         (invalid (snd (poll World attempt isStream order (start World w)))).
Proof.
  intro Hsub.
  destruct (poll_invalid upstream attempt strategy isStream H order
              (start World w)) as (marked & Hinv & Hall).
  cbv zeta in Hinv. rewrite Hinv. simpl.
  eapply Forall_impl; [|exact Hall].
  intros k (key & e & w0 & w1 & Hin & Hid & Hup & Hr & Hk).
  exists strategy, key, e, w0, w1. repeat split; auto.
Qed.

Lemma poll_lastError_not_api attempt strategy isStream
    (H : forall key st, attempt key st = call World upstream strategy key st)
    (order : list GeminiKey) (w : World) :
  throwsNoApiError upstream ->
  isApiError (lastError (snd (poll World attempt isStream order (start World w))))
  = false.
Proof.
  intro Hno.
  destruct (poll_lastError upstream attempt strategy isStream H order
              (start World w)) as [Heq | (key & w0 & w1 & _ & Hup)].
  - cbv zeta in Heq. rewrite Heq. reflexivity.
  - exact (Hno _ _ _ _ _ Hup).
Qed.

End HandlerInvalidation.

(** X4: a key is marked invalid only for cause: every id handed to
    [markKeyAsInvalid] during a request belongs to a key of the pool on
    which an upstream call threw a retryable error whose text matches
    one of the invalid-key patterns.  A success, a quota error, or a
    non-retryable error never marks a key. *)
Theorem only_invalid_key_failures_are_marked :
  forall (World : Type)
         (upstream : Strategy -> GeminiKey -> World -> Outcome * World)
         (coin : nat -> bool) (isStream : bool) (cfg : StreamingConfig)
         (availableKeys : list GeminiKey) (w : World),
    Forall (markedForCause upstream availableKeys)
      (invalid (snd (handlerEdge World upstream coin isStream cfg
                       availableKeys w)))
    /\ Forall (markedForCause upstream availableKeys)
         (invalid (snd (handlerLegacy World upstream isStream cfg
                          availableKeys w)))
    /\ Forall (markedForCause upstream availableKeys)
         (invalid (snd (handlerServerless World upstream isStream
                          availableKeys w))).
Proof.
  intros. unfold handlerEdge, handlerLegacy, handlerServerless.
  rewrite !finish_snd. split; [|split].
  - apply (poll_markedForCause upstream _ (selectStrategy isStream cfg));
      [reflexivity|].
    intros key Hin.
    exact (Permutation_in _ (shuffledKeys_perm coin availableKeys) Hin).
  - apply (poll_markedForCause upstream _ (legacyStrategy isStream cfg));
      [apply attemptLegacy_single_call | auto].
  - apply (poll_markedForCause upstream _
             (if isStream then handleRealStream else handleNonStream));
      [reflexivity | auto].
Qed.

Lemma exhaustionError_status (b : bool) (e : Js.Error) (n : nat) :
  isApiError e = false ->
  let sc := statusCode (exhaustionError b e n) in
  sc = 429%Z \/ sc = 401%Z \/ (b = true /\ sc = 502%Z) \/ sc = 503%Z.
Proof.
  intro Hapi. unfold exhaustionError.
  destruct e as [[msg str c s [sc0|]]|]; simpl in *; try discriminate.
  - match goal with
    | |- context [if ?q then _ else _] => destruct q; simpl; auto
    end.
    match goal with
    | |- context [if ?q then _ else _] => destruct q; simpl; auto
    end.
    destruct b; simpl; auto.
    match goal with
    | |- context [if ?q then _ else _] => destruct q; simpl; auto
    end.
  - destruct b; simpl; auto.
Qed.

(** X5: when the upstream never throws an [ApiError] instance, a request
    that reaches the loop is answered 200, 429, 401, 502 or 503 by the
    current edge handler, and 200, 429, 401 or 503 by the legacy and
    serverless handlers; no other status leaves the loop. *)
Theorem loop_reply_statuses :
  forall (World : Type)
         (upstream : Strategy -> GeminiKey -> World -> Outcome * World)
         (coin : nat -> bool) (isStream : bool) (cfg : StreamingConfig)
         (availableKeys : list GeminiKey) (w : World),
    throwsNoApiError upstream ->
    In (statusOf (fst (handlerEdge World upstream coin isStream cfg
                         availableKeys w)))
       [200; 429; 401; 502; 503]%Z
    /\ In (statusOf (fst (handlerLegacy World upstream isStream cfg
                            availableKeys w)))
          [200; 429; 401; 503]%Z
    /\ In (statusOf (fst (handlerServerless World upstream isStream
                            availableKeys w)))
          [200; 429; 401; 503]%Z.
Proof.
  intros World upstream coin isStream cfg availableKeys w Hno.
  unfold handlerEdge, handlerLegacy, handlerServerless.
  split; [|split].
  - pose proof (poll_lastError_not_api upstream
                  (attemptEdge World upstream isStream cfg)
                  (selectStrategy isStream cfg)
                  isStream (fun _ _ => eq_refl)
                  (shuffledKeys coin availableKeys) w Hno) as Hl.
    destruct (poll World (attemptEdge World upstream isStream cfg) isStream
                   (shuffledKeys coin availableKeys) (start World w))
      as [[p|] st]; simpl in *; [auto|].
    destruct (exhaustionError_status true (lastError st)
                (List.length (triedKeys st)) Hl) as [H | [H | [[_ H] | H]]];
      rewrite H; auto 6.
  - pose proof (poll_lastError_not_api upstream
                  (attemptLegacy World upstream isStream cfg)
                  (legacyStrategy isStream cfg)
                  isStream (attemptLegacy_single_call upstream isStream cfg)
                  availableKeys w Hno) as Hl.
    destruct (poll World (attemptLegacy World upstream isStream cfg) isStream
                   availableKeys (start World w))
      as [[p|] st]; simpl in *; [auto|].
    destruct (exhaustionError_status false (lastError st)
                (List.length (triedKeys st)) Hl) as [H | [H | [[H _] | H]]];
      try discriminate; rewrite H; auto 6.
  - pose proof (poll_lastError_not_api upstream
                  (attemptServerless World upstream isStream)
                  (if isStream then handleRealStream else handleNonStream)
                  isStream (fun _ _ => eq_refl) availableKeys w Hno) as Hl.
    destruct (poll World (attemptServerless World upstream isStream) isStream
                   availableKeys (start World w))
      as [[p|] st]; simpl in *; [auto|].
    destruct (exhaustionError_status false (lastError st)
                (List.length (triedKeys st)) Hl) as [H | [H | [[H _] | H]]];
      try discriminate; rewrite H; auto 6.
Qed.

Lemma loop_reply_statuses_witness :
  In (statusOf (fst (handlerEdge nat Demo.allEmpty (fun _ => true) true
                       (mkConfig false true) [Demo.k1; Demo.k2] 0%nat)))
     [200; 429; 401; 502; 503]%Z
  /\ statusOf (fst (handlerEdge nat Demo.allEmpty (fun _ => true) true
                      (mkConfig false true) [Demo.k1; Demo.k2] 0%nat))
     = 502%Z.
Proof.
  split; [|reflexivity].
  apply (loop_reply_statuses nat Demo.allEmpty (fun _ => true) true
           (mkConfig false true) [Demo.k1; Demo.k2] 0%nat).
  intros s key w e w' H. inversion H. reflexivity.
Defined.

(* ===================================================================== *)
(** ** Delivery strategies                                                *)
(* ===================================================================== *)

Lemma isEmpty_blank (text : Edge.Text) :
  Edge.isEmpty text = FakeStream.blank text.
Proof. destruct text; reflexivity. Qed.

(** X6: the buffered and the fake-stream strategy of the current edge
    handler hand a text on only when it has a non-whitespace character,
    and then unchanged; an empty or whitespace-only text makes both
    throw the same 'Empty response' error, and an upstream exception is
    passed through as it is.  That error is retryable, is logged as 500
    and, when it is the last one, surfaces as 502. *)
Theorem empty_text_is_thrown_not_returned :
  forall g : Edge.Generated,
    (forall text,
        Edge.handleNonStream g = inr text ->
        g = Edge.GenText text /\ FakeStream.blank text = false)
    /\ (forall e,
           Edge.handleNonStream g = inl e ->
           g = Edge.GenThrows e
           \/ (e = Some Edge.emptyResponse
               /\ exists text, g = Edge.GenText text
                               /\ FakeStream.blank text = true))
    /\ (forall e,
           Edge.handleFakeStream g = inl e <-> Edge.handleNonStream g = inl e)
    /\ (forall text,
           Edge.handleNonStream g = inr text ->
           Edge.handleFakeStream g = inr (Edge.fakeFrames text))
    /\ isRetryableError (Some Edge.emptyResponse) = true
    /\ logStatus (Js.errorMsg (Some Edge.emptyResponse)) = 500%Z
    /\ (forall n,
           exhaustionError true (Some Edge.emptyResponse) n
           = mkApiError 502 "All API keys returned empty responses").
Proof.
  intro g.
  split; [|split; [|split; [|split; [|split; [|split]]]]];
    try reflexivity.
  - intros text H. destruct g as [e|t]; simpl in H; [discriminate|].
    destruct (Edge.isEmpty t) eqn:E; [discriminate|].
    inversion H; subst. split; [reflexivity|].
    now rewrite <- isEmpty_blank.
  - intros e H. destruct g as [e0|t]; simpl in H.
    + left. now inversion H.
    + destruct (Edge.isEmpty t) eqn:E; [|discriminate].
      inversion H; subst. right. split; [reflexivity|].
      exists t. split; [reflexivity|]. now rewrite <- isEmpty_blank.
  - intro e. destruct g as [e0|t]; simpl;
      [split; intro H; inversion H; reflexivity|].
    destruct (Edge.isEmpty t); split; intro H; try discriminate;
      inversion H; reflexivity.
  - intros text H. destruct g as [e0|t]; simpl in *; [discriminate|].
    destruct (Edge.isEmpty t); [discriminate|]. now inversion H.
Qed.

Lemma empty_text_is_thrown_not_returned_witness :
  Edge.handleNonStream (Edge.GenText Texts.hello) = inr Texts.hello
  /\ FakeStream.blank Texts.hello = false
  /\ Edge.handleFakeStream (Edge.GenText [32; 10]%Z)
     = inl (Some Edge.emptyResponse).
Proof.
  destruct (empty_text_is_thrown_not_returned (Edge.GenText Texts.hello))
    as (Hret & _).
  destruct (Hret Texts.hello eq_refl) as [_ Hblank].
  destruct (empty_text_is_thrown_not_returned (Edge.GenText [32; 10]%Z))
    as (_ & _ & Hsame & _).
  split; [reflexivity|]. split; [exact Hblank|].
  apply Hsame. reflexivity.
Defined.

Section RealStreamFacts.

Variable streamStartTime : Z.

Lemma contentOf_deltas (texts : list Edge.Text) (rest : list Edge.Frame) :
  Edge.contentOf (map Edge.Delta texts ++ rest)%list
  = (List.concat texts ++ Edge.contentOf rest)%list.
Proof.
  induction texts as [|t texts IH]; simpl.
  - reflexivity.
  - now rewrite IH, app_assoc.
Qed.

Lemma forwarded_nonempty (chunks : list (Z * option Edge.Text)) :
  Forall (fun t => t <> []) (Edge.forwarded streamStartTime chunks).
Proof.
  induction chunks as [|[now text] rest IH]; simpl.
  - constructor.
  - destruct (Edge.maxStreamDuration <? now - streamStartTime)%Z;
      [constructor|].
    destruct text as [[|c t]|]; [exact IH | | constructor].
    constructor; [discriminate | exact IH].
Qed.

Lemma forwarded_undisturbed (chunks : list (Z * option Edge.Text)) :
  Edge.undisturbed streamStartTime chunks ->
  Edge.forwarded streamStartTime chunks
  = filter (fun t => match t with [] => false | _ => true end)
           (Edge.sent chunks)
  /\ List.concat (Edge.forwarded streamStartTime chunks)
     = List.concat (Edge.sent chunks).
Proof.
  induction chunks as [|[now text] rest IH]; intro H.
  - split; reflexivity.
  - inversion H as [|c cs [Htime Htext] Hrest]; subst. simpl in Htime, Htext.
    destruct (IH Hrest) as [IH1 IH2]. simpl.
    replace (Edge.maxStreamDuration <? now - streamStartTime)%Z with false
      by (symmetry; apply Z.ltb_ge; exact Htime).
    destruct text as [[|c t]|]; [| |contradiction]; simpl.
    + split; assumption.
    + rewrite IH1, <- IH2, IH1. split; reflexivity.
Qed.

Lemma forwarded_cut_off (pre post : list (Z * option Edge.Text))
      (late : Z * option Edge.Text) :
  Edge.undisturbed streamStartTime pre ->
  (Edge.maxStreamDuration < fst late - streamStartTime)%Z \/ snd late = None ->
  Edge.forwarded streamStartTime (pre ++ late :: post)%list
  = Edge.forwarded streamStartTime pre.
Proof.
  intros Hpre Hlate.
  induction pre as [|[now text] pre IH]; simpl.
  - destruct late as [now text]. simpl in Hlate.
    destruct (Edge.maxStreamDuration <? now - streamStartTime)%Z eqn:E;
      [reflexivity|].
    destruct Hlate as [H | ->]; [|reflexivity].
    apply Z.ltb_ge in E. lia.
  - inversion Hpre as [|c cs [Htime Htext] Hrest]; subst.
    simpl in Htime, Htext.
    replace (Edge.maxStreamDuration <? now - streamStartTime)%Z with false
      by (symmetry; apply Z.ltb_ge; exact Htime).
    destruct text as [[|c t]|]; [| |contradiction]; rewrite (IH Hrest);
      reflexivity.
Qed.

Lemma blank_app (a b : Edge.Text) :
  FakeStream.blank (a ++ b)%list = FakeStream.blank a && FakeStream.blank b.
Proof. unfold FakeStream.blank. apply forallb_app. Qed.

End RealStreamFacts.

(** X7: the real stream of the current edge handler, with the client
    staying connected, always opens with the connection comment and
    closes with the stop chunk and the end marker, with nothing but
    non-empty deltas in between; what the client reads is never empty or
    whitespace-only, the apology being appended when nothing, or only
    whitespace, was forwarded.  While every round is inside the 25 s
    guard and yields its text, the client reads exactly what the
    upstream sent (followed by the apology when that is whitespace
    only); the first round beyond the guard, or the first that throws,
    ends the forwarding, and the stream is closed in the same way. *)
Theorem real_stream_never_blank :
  forall (streamStartTime : Z) (chunks : list (Z * option Edge.Text)),
    let frames := Edge.realFrames streamStartTime chunks in
    (exists deltas,
        frames = (Edge.Connected :: map Edge.Delta deltas
                  ++ [Edge.Finish "stop"; Edge.Done])%list
        /\ Forall (fun t => t <> []) deltas)
    /\ FakeStream.blank (Edge.contentOf frames) = false
    /\ (Edge.undisturbed streamStartTime chunks ->
        Edge.contentOf frames
        = if FakeStream.blank (List.concat (Edge.sent chunks))
          then (List.concat (Edge.sent chunks) ++ Edge.fallbackText)%list
          else List.concat (Edge.sent chunks))
    /\ (forall pre late post,
           chunks = (pre ++ late :: post)%list ->
           Edge.undisturbed streamStartTime pre ->
           (Edge.maxStreamDuration < fst late - streamStartTime)%Z
           \/ snd late = None ->
           frames = Edge.realFrames streamStartTime pre).
Proof.
  intros streamStartTime chunks frames. subst frames.
  unfold Edge.realFrames.
  set (texts := Edge.forwarded streamStartTime chunks).
  assert (Hne : Forall (fun t => t <> []) texts)
    by apply forwarded_nonempty.
  assert (Hfb : FakeStream.blank Edge.fallbackText = false) by reflexivity.
  assert (Hcontent :
            Edge.contentOf
              (Edge.Connected
               :: map Edge.Delta texts
               ++ (if negb match texts with [] => false | _ => true end
                      || FakeStream.blank (List.concat texts)
                   then [Edge.Delta Edge.fallbackText] else [])
               ++ [Edge.Finish "stop"; Edge.Done])%list
            = if FakeStream.blank (List.concat texts)
              then (List.concat texts ++ Edge.fallbackText)%list
              else List.concat texts).
  { cbn [Edge.contentOf]. rewrite contentOf_deltas.
    destruct texts as [|t ts]; [reflexivity|].
    cbn [negb orb].
    destruct (FakeStream.blank (List.concat (t :: ts))); simpl;
      now rewrite ?app_nil_r. }
  split; [|split; [|split]].
  - destruct (negb match texts with [] => false | _ => true end
              || FakeStream.blank (List.concat texts)).
    + exists (texts ++ [Edge.fallbackText])%list. split.
      * rewrite map_app. simpl. now rewrite <- app_assoc.
      * apply Forall_app. split; [exact Hne|].
        constructor; [discriminate | constructor].
    + exists texts. split; [reflexivity | exact Hne].
  - rewrite Hcontent.
    destruct (FakeStream.blank (List.concat texts)) eqn:E; [|exact E].
    rewrite blank_app, Hfb. apply andb_false_r.
  - intro Hund. rewrite Hcontent. unfold texts.
    destruct (forwarded_undisturbed streamStartTime chunks Hund) as [_ Hcat].
    now rewrite Hcat.
  - intros pre late post -> Hpre Hlate. unfold texts.
    now rewrite (forwarded_cut_off streamStartTime pre post late Hpre Hlate).
Qed.

Lemma real_stream_never_blank_witness :
  Edge.contentOf
    (Edge.realFrames 1000
       [(1010, Some [72; 105]); (1500, Some []); (2000, Some [33]);
        (26001, Some [63])]%Z)
  = [72; 105; 33]%Z
  /\ Edge.realFrames 1000
       [(1010, Some [72; 105]); (1500, Some []); (2000, Some [33]);
        (26001, Some [63])]%Z
     = Edge.realFrames 1000
         [(1010, Some [72; 105]); (1500, Some []); (2000, Some [33])]%Z.
Proof.
  destruct (real_stream_never_blank 1000
              [(1010, Some [72; 105]); (1500, Some []); (2000, Some [33]);
               (26001, Some [63])]%Z) as (_ & _ & _ & Hcut).
  destruct (real_stream_never_blank 1000
              [(1010, Some [72; 105]); (1500, Some []); (2000, Some [33])]%Z)
    as (_ & _ & Hrelay & _).
  assert (Hpre : Edge.undisturbed 1000
                   [(1010, Some [72; 105]); (1500, Some []); (2000, Some [33])]%Z).
  { unfold Edge.undisturbed, Edge.maxStreamDuration.
    repeat (constructor; [simpl; split; [lia | discriminate]|]).
    constructor. }
  split.
  - rewrite (Hcut [(1010, Some [72; 105]); (1500, Some []); (2000, Some [33])]%Z
                  (26001, Some [63])%Z [] eq_refl Hpre).
    + rewrite (Hrelay Hpre). reflexivity.
    + left. unfold Edge.maxStreamDuration. simpl. lia.
  - apply (Hcut [(1010, Some [72; 105]); (1500, Some []); (2000, Some [33])]%Z
                (26001, Some [63])%Z [] eq_refl Hpre).
    left. unfold Edge.maxStreamDuration. simpl. lia.
Defined.

Section FakeStreamFacts.

Variable fullText : FakeStream.Text.

(** A run that ends does so whatever fuel it is given beyond the length
    of the text. *)
Lemma ranges_fuel_irrelevant (fuel : nat) :
  forall currentIndex rs fuel',
    (currentIndex <= List.length fullText)%nat ->
    FakeStream.ranges fuel fullText currentIndex = Some rs ->
    (List.length fullText - currentIndex <= fuel')%nat ->
    FakeStream.ranges fuel' fullText currentIndex = Some rs.
Proof.
  induction fuel as [|fuel IH]; intros cur rs fuel' Hcur H Hfuel;
    simpl in H;
    destruct (List.length fullText <=? cur)%nat eqn:E; try discriminate.
  - inversion H; subst. destruct fuel'; simpl; now rewrite E.
  - inversion H; subst. destruct fuel'; simpl; now rewrite E.
  - destruct (FakeStream.ranges fuel fullText (FakeStream.nextEnd fullText cur))
      as [rs'|] eqn:Hr; [|discriminate].
    inversion H; subst. apply Nat.leb_gt in E.
    pose proof (nextEnd_bounds fullText cur Hcur) as Hb.
    assert (Hadv : (cur < FakeStream.nextEnd fullText cur)%nat).
    { destruct (Nat.eq_dec (FakeStream.nextEnd fullText cur) cur) as [Hfix|]; [|lia].
      rewrite Hfix in Hr. rewrite (ranges_stuck fullText cur E Hfix fuel) in Hr.
      discriminate. }
    destruct fuel' as [|fuel']; [lia|].
    simpl. replace (List.length fullText <=? cur)%nat with false
      by (symmetry; apply Nat.leb_gt; exact E).
    rewrite (IH _ rs' fuel' (proj2 Hb) Hr); [reflexivity | lia].
Qed.

Lemma unspaced_blank (chunk : FakeStream.Text) :
  FakeStream.blank chunk = true -> unspaced chunk = [].
Proof.
  unfold FakeStream.blank, unspaced.
  induction chunk as [|c chunk IH]; simpl; [reflexivity|].
  intro H. apply andb_true_iff in H. destruct H as [Hc Hrest].
  rewrite Hc. simpl. now apply IH.
Qed.

Lemma unspaced_emitted (ps : list FakeStream.Text) :
  unspaced (List.concat (FakeStream.emitted ps)) = unspaced (List.concat ps).
Proof.
  unfold unspaced, FakeStream.emitted.
  induction ps as [|p ps IH]; simpl; [reflexivity|].
  destruct (FakeStream.blank p) eqn:E; simpl.
  - rewrite filter_app, IH.
    pose proof (unspaced_blank p E) as Hp. unfold unspaced in Hp.
    now rewrite Hp.
  - now rewrite !filter_app, IH.
Qed.

Lemma emitted_not_blank (ps : list FakeStream.Text) :
  Forall (fun chunk => FakeStream.blank chunk = false) (FakeStream.emitted ps).
Proof.
  unfold FakeStream.emitted. apply Forall_forall.
  intros chunk Hin. apply filter_In in Hin. destruct Hin as [_ H].
  now apply negb_true_iff in H.
Qed.

End FakeStreamFacts.

(** X8: the fake stream of the current edge handler, with the client
    staying connected.  When the splitting loop ends, the stream opens
    with the connection comment, carries one delta per slice that is not
    whitespace-only, and closes with the stop chunk and the end marker;
    what the client reads is the full text up to whitespace: taking the
    whitespace out of both gives the same text.  The stream is left
    unclosed exactly when the splitting loop ends for no amount of
    rounds, which cannot happen on a text on which every step
    advances. *)
Theorem fake_stream_loses_at_most_whitespace :
  forall fullText : FakeStream.Text,
    (forall frames,
        Edge.fakeFrames fullText = Some frames ->
        (exists deltas,
            frames = (Edge.Connected :: map Edge.Delta deltas
                      ++ [Edge.Finish "stop"; Edge.Done])%list
            /\ Forall (fun chunk => FakeStream.blank chunk = false) deltas)
        /\ unspaced (Edge.contentOf frames) = unspaced fullText)
    /\ (Edge.fakeFrames fullText = None <->
        forall fuel, FakeStream.ranges fuel fullText 0 = None)
    /\ (advances fullText -> Edge.fakeFrames fullText <> None).
Proof.
  intro fullText. unfold Edge.fakeFrames. split; [|split].
  - intros frames H.
    destruct (FakeStream.ranges (List.length fullText) fullText 0)
      as [rs|] eqn:Hrs; [|discriminate].
    simpl in H. inversion H; subst. split.
    + eexists. split; [reflexivity | apply emitted_not_blank].
    + cbn [Edge.contentOf]. rewrite contentOf_deltas. simpl.
      rewrite app_nil_r, unspaced_emitted.
      pose proof (ranges_concat fullText _ 0 rs (Nat.le_0_l _) Hrs) as Hcat.
      simpl in Hcat. now rewrite Hcat.
  - split.
    + intros H fuel.
      destruct (FakeStream.ranges (List.length fullText) fullText 0)
        as [rs|] eqn:Hrs; [discriminate|].
      destruct (FakeStream.ranges fuel fullText 0) as [rs|] eqn:Hf;
        [|reflexivity].
      rewrite (ranges_fuel_irrelevant fullText fuel 0 rs (List.length fullText)
                 (Nat.le_0_l _) Hf) in Hrs by lia.
      discriminate.
    + intro H. now rewrite H.
  - intro Hadv.
    destruct (ranges_terminates fullText Hadv (List.length fullText) 0)
      as [rs Hrs]; [lia|].
    rewrite Hrs. discriminate.
Qed.

Lemma fake_stream_loses_at_most_whitespace_witness :
  Edge.fakeFrames Texts.hello
  = Some [Edge.Connected; Edge.Delta (firstn 15 Texts.hello);
          Edge.Finish "stop"; Edge.Done]
  /\ unspaced (firstn 15 Texts.hello) = unspaced Texts.hello
  /\ Edge.fakeFrames Texts.zhong17 = None.
Proof.
  destruct (fake_stream_loses_at_most_whitespace Texts.hello) as (Hshape & _).
  destruct (Hshape _ eq_refl) as (_ & Hread).
  destruct (fake_stream_loses_at_most_whitespace Texts.zhong17)
    as (_ & Hnone & _).
  split; [reflexivity|]. split; [exact Hread|].
  apply Hnone. exact cjk_run_never_finishes.
Defined.

(* ===================================================================== *)
(** ** The credential table and its cache                                 *)
(* ===================================================================== *)





(** X10: outside development a listing that misses the cache returns
    the active and valid rows of the table, in table order, and stores
    them in the cache; from then on, listings are served from the cache:
    a key deactivated through the admin route is still returned, and a
    key added to the table is not, until the cache entry goes.  In
    development every listing reads the table. *)
Theorem cache_outlives_table_changes :
  forall (s : KeyStore.Store),
    KeyStore.eligible (KeyStore.rows s) <> [] ->
    (KeyStore.development s = false ->
     KeyStore.cache s = None \/ KeyStore.cache s = Some [] ->
     KeyStore.listing s KeyStore.noFaults
     = inr (KeyStore.eligible (KeyStore.rows s))
     /\ KeyStore.cache (KeyStore.afterListing s KeyStore.noFaults)
        = Some (KeyStore.eligible (KeyStore.rows s))
     /\ KeyStore.rows (KeyStore.afterListing s KeyStore.noFaults)
        = KeyStore.rows s
     /\ (forall keyId active f,
            KeyStore.kvGetThrows f = false ->
            KeyStore.listing
              (KeyStore.setActive keyId active
                 (KeyStore.afterListing s KeyStore.noFaults)) f
            = inr (KeyStore.eligible (KeyStore.rows s)))
     /\ (forall table f,
            KeyStore.kvGetThrows f = false ->
            KeyStore.listing
              (KeyStore.mkStore table
                 (KeyStore.cache (KeyStore.afterListing s KeyStore.noFaults))
                 false) f
            = inr (KeyStore.eligible (KeyStore.rows s))))
    /\ (KeyStore.development s = true ->
        KeyStore.listing s KeyStore.noFaults
        = inr (KeyStore.eligible (KeyStore.rows s))
        /\ KeyStore.afterListing s KeyStore.noFaults = s).
Proof.
  intros s Hne. split.
  - intros Hdev Hmiss.
    assert (Hafter : KeyStore.afterListing s KeyStore.noFaults
                     = KeyStore.mkStore (KeyStore.rows s)
                         (Some (KeyStore.eligible (KeyStore.rows s))) false).
    { unfold KeyStore.afterListing. rewrite Hdev. simpl.
      destruct Hmiss as [-> | ->]; simpl;
        destruct (KeyStore.eligible (KeyStore.rows s)) as [|k ks];
        try reflexivity; now elim Hne. }
    assert (Hhit : forall table f,
               KeyStore.kvGetThrows f = false ->
               KeyStore.listing
                 (KeyStore.mkStore table
                    (Some (KeyStore.eligible (KeyStore.rows s))) false) f
               = inr (KeyStore.eligible (KeyStore.rows s))).
    { intros table f Hget.
      unfold KeyStore.listing, KeyManager.getAllAvailableGeminiKeys,
        KeyManager.loadKeys, KeyStore.envOf. simpl. rewrite Hget.
      destruct (KeyStore.eligible (KeyStore.rows s)) as [|k ks];
        [contradiction | reflexivity]. }
    rewrite Hafter. simpl.
    split; [|split; [reflexivity|split; [reflexivity|split]]].
    + unfold KeyStore.listing, KeyManager.getAllAvailableGeminiKeys,
        KeyManager.loadKeys, KeyStore.envOf. rewrite Hdev. simpl.
      destruct Hmiss as [-> | ->]; simpl;
        destruct (KeyStore.eligible (KeyStore.rows s)) as [|k ks];
        try reflexivity; now elim Hne.
    + intros keyId active f Hget. unfold KeyStore.setActive. simpl.
      now apply Hhit.
    + intros table f Hget. now apply Hhit.
  - intro Hdev. split.
    + unfold KeyStore.listing, KeyManager.getAllAvailableGeminiKeys,
        KeyManager.loadKeys, KeyStore.envOf. rewrite Hdev. simpl.
      destruct (KeyStore.eligible (KeyStore.rows s)) as [|k ks];
        [contradiction | reflexivity].
    + unfold KeyStore.afterListing. now rewrite Hdev.
Qed.

Lemma cache_outlives_table_changes_witness :
  let s := KeyStore.mkStore
             [KeyStore.mkRow Demo.k1 true true;
              KeyStore.mkRow Demo.k2 true false;
              KeyStore.mkRow Demo.k3 true true]
             None false in
  KeyStore.listing s KeyStore.noFaults = inr [Demo.k1; Demo.k3]
  /\ KeyStore.listing
       (KeyStore.setActive "key-3" false
          (KeyStore.afterListing s KeyStore.noFaults)) KeyStore.noFaults
     = inr [Demo.k1; Demo.k3].
Proof.
  destruct (cache_outlives_table_changes
              (KeyStore.mkStore
                 [KeyStore.mkRow Demo.k1 true true;
                  KeyStore.mkRow Demo.k2 true false;
                  KeyStore.mkRow Demo.k3 true true]
                 None false)) as (Hprod & _).
  - discriminate.
  - destruct (Hprod eq_refl (or_introl eq_refl)) as (Hlist & _ & _ & Hstale & _).
    split; [exact Hlist|].
    apply (Hstale "key-3" false KeyStore.noFaults). reflexivity.
Defined.

(* ===================================================================== *)
(** ** Settings                                                           *)
(* ===================================================================== *)

(** X11: the streaming configuration can always be read: when the lookup
    throws, answers an error or no data, or the stored text does not
    parse to a truthy value, it is the default (real stream on, fake
    stream off), so that a streaming request is then served by the real
    stream.  The disguise flag is off only when the lookup answers no
    data or a stored text other than "true"; on an error or an
    exception it is on. *)
Theorem settings_fall_back_to_defaults :
  forall (parse : string -> option (option StreamingConfig))
         (l : Settings.Lookup),
    (l = Settings.LookupThrows \/ l = Settings.LookupError
     \/ l = Settings.LookupNoData
     \/ (exists v, l = Settings.LookupValue v
                   /\ (parse v = None \/ parse v = Some None)) ->
     Settings.getStreamingConfig parse l = mkConfig true false
     /\ selectStrategy true (Settings.getStreamingConfig parse l)
        = handleRealStream)
    /\ (forall v config,
           l = Settings.LookupValue v -> parse v = Some (Some config) ->
           Settings.getStreamingConfig parse l = config)
    /\ (Settings.getDisguiseEnabled l = false <->
        l = Settings.LookupNoData
        \/ exists v, l = Settings.LookupValue v /\ v <> "true").
Proof.
  intros parse l. split; [|split].
  - intros [-> | [-> | [-> | (v & -> & [H | H])]]];
      unfold Settings.getStreamingConfig, Settings.getSystemSetting;
      try rewrite H; split; reflexivity.
  - intros v config -> H.
    unfold Settings.getStreamingConfig, Settings.getSystemSetting.
    now rewrite H.
  - split.
    + destruct l as [| | |v]; simpl; intro H; try discriminate.
      * now left.
      * right. exists v. split; [reflexivity|]. now apply String.eqb_neq.
    + intros [-> | (v & -> & Hv)]; simpl; [reflexivity|].
      now apply String.eqb_neq.
Qed.

Lemma settings_fall_back_to_defaults_witness :
  Settings.getStreamingConfig (fun _ => None) (Settings.LookupValue "{oops")
  = mkConfig true false
  /\ Settings.getDisguiseEnabled (Settings.LookupValue "false") = false.
Proof.
  destruct (settings_fall_back_to_defaults (fun _ => None)
              (Settings.LookupValue "{oops")) as (Hdefault & _).
  destruct (settings_fall_back_to_defaults (fun _ => None)
              (Settings.LookupValue "false")) as (_ & _ & Hoff).
  split.
  - apply Hdefault. right; right; right.
    exists "{oops". split; [reflexivity | left; reflexivity].
  - apply Hoff. right. exists "false". split; [reflexivity | discriminate].
Defined.

(** X12: the settings route never stores a configuration with both
    streaming modes on: such a request, like one with a non-boolean
    field, is answered 400 and writes nothing.  A 200 means both settings
    were written as requested, and reading them back gives the same
    values (for the streaming configuration, when parsing undoes
    serialising).  A 500 writes at most one of the two settings. *)
Theorem settings_put_never_stores_a_conflict :
  forall (stringify : StreamingConfig -> string) (body : Settings.PutBody)
         (streamingUpsertOk disguiseUpsertOk : bool) (t : Settings.Table),
    let r := Settings.handlePut stringify body streamingUpsertOk
                                disguiseUpsertOk t in
    (forall message, fst r = Settings.PutError 400 message -> snd r = t)
    /\ (Settings.streaming_config (snd r) = Settings.streaming_config t
        \/ exists enabled fake,
             enabled && fake = false
             /\ Settings.streaming_config (snd r)
                = Some (stringify (mkConfig enabled fake)))
    /\ (forall enabled fake disguise,
           fst r = Settings.PutOk enabled fake disguise ->
           enabled && fake = false
           /\ body = Settings.mkPutBody (Some enabled) (Some fake) (Some disguise)
           /\ Settings.getDisguiseEnabled
                (Settings.read (Settings.disguise_enabled (snd r)))
              = disguise
           /\ forall parse,
                parse (stringify (mkConfig enabled fake))
                = Some (Some (mkConfig enabled fake)) ->
                Settings.getStreamingConfig parse
                  (Settings.read (Settings.streaming_config (snd r)))
                = mkConfig enabled fake)
    /\ (forall message,
           fst r = Settings.PutError 500 message ->
           Settings.streaming_config (snd r) = Settings.streaming_config t
           \/ Settings.disguise_enabled (snd r) = Settings.disguise_enabled t).
Proof.
  intros stringify body ok1 ok2 t r. subst r.
  unfold Settings.handlePut.
  destruct body as [[enabled|] [fake|] [disguise|]]; simpl;
    try (repeat split; intros; try discriminate; auto; fail).
  destruct (enabled && fake) eqn:Hconflict; simpl;
    [repeat split; intros; try discriminate; auto|].
  destruct ok1, ok2; simpl.
  - split; [intros; discriminate|]. split.
    + right. exists enabled, fake. auto.
    + split; [|intros; discriminate].
      intros e f d H. inversion H; subst.
      split; [exact Hconflict|]. split; [reflexivity|]. split.
      * destruct d; reflexivity.
      * intros parse Hparse.
        unfold Settings.getStreamingConfig, Settings.getSystemSetting. simpl.
        now rewrite Hparse.
  - split; [intros; discriminate|]. split.
    + right. exists enabled, fake. auto.
    + split; [intros; discriminate|]. intros. right. reflexivity.
  - split; [intros; discriminate|]. split; [left; reflexivity|].
    split; [intros; discriminate|]. intros. left. reflexivity.
  - split; [intros; discriminate|]. split; [left; reflexivity|].
    split; [intros; discriminate|]. intros. left. reflexivity.
Qed.

Lemma settings_put_never_stores_a_conflict_witness :
  let stringify := fun c : StreamingConfig =>
                     Settings.boolToString (enabled c) ++ ","
                     ++ Settings.boolToString (fake_stream_enabled c) in
  let t := Settings.mkTable None None in
  fst (Settings.handlePut stringify
         (Settings.mkPutBody (Some true) (Some true) (Some false)) true true t)
  = Settings.PutError 400 "真实流式传输和伪装流式传输不能同时启用"
  /\ snd (Settings.handlePut stringify
            (Settings.mkPutBody (Some true) (Some true) (Some false)) true true t)
     = t
  /\ Settings.getDisguiseEnabled
       (Settings.read
          (Settings.disguise_enabled
             (snd (Settings.handlePut stringify
                     (Settings.mkPutBody (Some false) (Some true) (Some false))
                     true true t))))
     = false.
Proof.
  cbv zeta.
  destruct (settings_put_never_stores_a_conflict
              (fun c : StreamingConfig =>
                 Settings.boolToString (enabled c) ++ ","
                 ++ Settings.boolToString (fake_stream_enabled c))
              (Settings.mkPutBody (Some true) (Some true) (Some false))
              true true (Settings.mkTable None None)) as (H400 & _).
  destruct (settings_put_never_stores_a_conflict
              (fun c : StreamingConfig =>
                 Settings.boolToString (enabled c) ++ ","
                 ++ Settings.boolToString (fake_stream_enabled c))
              (Settings.mkPutBody (Some false) (Some true) (Some false))
              true true (Settings.mkTable None None)) as (_ & _ & Hok & _).
  split; [reflexivity|]. split.
  - apply (H400 "真实流式传输和伪装流式传输不能同时启用"). reflexivity.
  - destruct (Hok false true false eq_refl) as (_ & _ & Hread & _).
    exact Hread.
Defined.

(* ===================================================================== *)
(** ** The front of the current edge handler                              *)
(* ===================================================================== *)

Lemma substring_whole (s : string) : String.substring 0 (String.length s) s = s.
Proof. induction s as [|c s IH]; simpl; [reflexivity | now rewrite IH]. Qed.

Lemma prefix_split (p : string) :
  forall s, String.prefix p s = true ->
            s = p ++ Front.substringFrom (String.length p) s.
Proof.
  unfold Front.substringFrom.
  induction p as [|a p IH]; intros s H; simpl.
  - now rewrite Nat.sub_0_r, substring_whole.
  - destruct s as [|b s]; simpl in H; [discriminate|].
    destruct (ascii_dec a b) as [->|]; [|discriminate].
    simpl. f_equal. now apply IH.
Qed.

Lemma prefix_app (p s : string) : String.prefix p (p ++ s) = true.
Proof.
  induction p as [|a p IH]; simpl; [destruct s; reflexivity|].
  destruct (ascii_dec a a); [exact IH | congruence].
Qed.

Section FrontFacts.

Context {World : Type}.

Lemma poll_makes_a_call
    (upstream : Strategy -> GeminiKey -> World -> Outcome * World)
    attempt strategy isStream
    (H : forall key st, attempt key st = call World upstream strategy key st)
    (key : GeminiKey) (rest : list GeminiKey) (w : World) :
  calls (snd (poll World attempt isStream (key :: rest) (start World w))) <> [].
Proof.
  simpl poll. rewrite H. unfold call.
  destruct (upstream strategy key (world (enter World key (start World w))))
    as [[p|e] w'].
  - simpl. discriminate.
  - destruct (isRetryableError e).
    + match goal with
      | |- context [poll _ _ _ rest ?s] =>
          destruct (poll_trace upstream attempt strategy isStream H rest s)
            as (done & rest' & _ & _ & _ & Hc & _)
      end.
      cbv zeta in Hc. rewrite Hc. simpl. discriminate.
    + simpl. discriminate.
Qed.

Lemma handlerEdge_makes_a_call
    (upstream : Strategy -> GeminiKey -> World -> Outcome * World)
    coin isStream cfg (availableKeys : list GeminiKey) (w : World) :
  availableKeys <> [] ->
  calls (snd (handlerEdge World upstream coin isStream cfg availableKeys w))
  <> [].
Proof.
  intro Hne. unfold handlerEdge. rewrite finish_snd.
  pose proof (shuffledKeys_perm coin availableKeys) as Hperm.
  destruct (shuffledKeys coin availableKeys) as [|key rest] eqn:E.
  - apply Permutation_nil in Hperm. contradiction.
  - apply (poll_makes_a_call upstream _ (selectStrategy isStream cfg)).
    reflexivity.
Qed.

Lemma getAll_nonempty (env : KeyManager.Env) (keys : list GeminiKey) :
  KeyManager.getAllAvailableGeminiKeys env = inr keys -> keys <> [].
Proof.
  unfold KeyManager.getAllAvailableGeminiKeys.
  destruct (KeyManager.loadKeys env) as [[sc|]|[|k ks]]; intro H;
    inversion H; discriminate.
Qed.

Lemma getAll_status (env : KeyManager.Env) (sc : Z) :
  KeyManager.getAllAvailableGeminiKeys env = inl (KeyManager.ThrownApiError sc) ->
  sc = 503%Z \/ sc = 500%Z.
Proof.
  unfold KeyManager.getAllAvailableGeminiKeys.
  pose proof (loadKeys_no_api_error env) as Hno.
  destruct (KeyManager.loadKeys env) as [[sc0|]|[|k ks]] eqn:E; intro H;
    inversion H; auto.
  exfalso. apply (Hno sc0). reflexivity.
Qed.

End FrontFacts.

(** X13: the current edge handler reaches the upstream exactly for the
    requests that pass every check in front of the loop: method POST, an
    Authorization header "Bearer " followed by a key that starts with
    "sk-" and is found active in the access table, a body that parses
    to a value other than [null], a pool listing that succeeds, and
    messages that can be read (absent, a string, or an array without a
    [null] element).  Every other request is answered 405, 401, 400, 500
    or 503 without a single upstream call, usage update or log row; the
    method is checked before the credentials, the credentials before the
    body, and the pool is listed before any field of the body is read,
    so that with no key to list no request is answered 500; a key
    without the "sk-" prefix is refused without a query to the access
    table. *)
Theorem only_accepted_requests_reach_upstream :
  forall (World : Type) (env : Front.Env World) (request : Front.Request)
         (w : World),
    let r := Front.handler World env request w in
    (calls (snd r) <> [] <-> Front.accepted World env request)
    /\ (~ Front.accepted World env request ->
        snd r = start World w
        /\ In (statusOf (fst r)) [405; 401; 400; 500; 503]%Z)
    /\ (Front.method request <> "POST" ->
        fst r = Failed (mkApiError 405 "Method not allowed"))
    /\ (Front.method request = "POST" ->
        (forall apiKey,
            Front.authorization request = Some ("Bearer " ++ apiKey) ->
            String.prefix "sk-" apiKey = false) ->
        statusOf (fst r) = 401%Z)
    /\ (KeyManager.getAllAvailableGeminiKeys (Front.pool World env)
        = inl (KeyManager.ThrownApiError 503) ->
        In (statusOf (fst r)) [405; 401; 400; 503]%Z)
    /\ (forall query apiKey,
           String.prefix "sk-" apiKey = false ->
           Front.validateAccessKey apiKey query = None).
Proof.
  intros World env request w r.
  assert (Hfront :
            (Front.accepted World env request /\ calls (snd r) <> [])
            \/ (~ Front.accepted World env request
                /\ snd r = start World w
                /\ In (statusOf (fst r)) [405; 401; 400; 500; 503]%Z)).
  { subst r. unfold Front.handler, Front.accepted, Front.refuse.
    destruct (Front.method request =? "POST")%string eqn:Hm; simpl.
    2:{ right. apply String.eqb_neq in Hm. split; [tauto|]. simpl. auto 8. }
    apply String.eqb_eq in Hm.
    destruct (Front.authorization request) as [authHeader|] eqn:Hauth.
    2:{ right. split; [|simpl; auto 8].
        intros (_ & k & i & b & ks & H & _). discriminate. }
    destruct ((authHeader =? "")%string
              || negb (String.prefix "Bearer " authHeader)) eqn:Hbearer.
    { right. split; [|simpl; auto 8].
      intros (_ & k & i & b & ks & H & _). injection H as Heq.
      pose proof (prefix_app "Bearer " k) as Hp. cbn [append] in Hp.
      rewrite Heq, Hp in Hbearer. discriminate. }
    apply orb_false_iff in Hbearer. destruct Hbearer as [_ Hbearer].
    apply negb_false_iff in Hbearer.
    pose proof (prefix_split "Bearer " authHeader Hbearer) as Hsplit.
    simpl in Hsplit.
    remember (Front.substringFrom 7 authHeader) as apiKey eqn:HapiKey.
    assert (Hkey : forall k, Some authHeader = Some ("Bearer " ++ k) -> k = apiKey).
    { intros k Hk. inversion Hk as [Hk']. rewrite Hsplit in Hk'.
      simpl in Hk'. now inversion Hk'. }
    unfold Front.validateAccessKey.
    destruct ((apiKey =? "")%string || negb (String.prefix "sk-" apiKey)) eqn:Hsk.
    { right. split; [|simpl; auto 8].
      intros (_ & k & i & b & ks & H & Hp & _).
      apply Hkey in H. subst k. rewrite Hp in Hsk. simpl in Hsk.
      rewrite orb_false_r in Hsk. apply String.eqb_eq in Hsk.
      rewrite Hsk in Hp. discriminate. }
    apply orb_false_iff in Hsk. destruct Hsk as [_ Hsk].
    apply negb_false_iff in Hsk.
    destruct (Front.accessQuery World env apiKey) as [|[|] [accessKeyId|]] eqn:Hq;
      try (right; split; [|simpl; auto 8];
           intros (_ & k & i & b & ks & H & _ & Hq' & _);
           apply Hkey in H; subst k; rewrite Hq in Hq'; discriminate).
    destruct (accessKeyId =? "")%string eqn:Hid.
    { right. split; [|simpl; auto 8].
      intros (_ & k & i & b & ks & H & _ & Hq' & Hne & _).
      apply Hkey in H. subst k. rewrite Hq in Hq'. inversion Hq'; subst.
      apply String.eqb_eq in Hid. contradiction. }
    apply String.eqb_neq in Hid.
    destruct (Front.body request) as [| |requestBody] eqn:Hbody.
    - right. split; [|simpl; auto 8].
      intros (_ & k & i & b & ks & _ & _ & _ & _ & H & _). discriminate.
    - right. split.
      { intros (_ & k & i & b & ks & _ & _ & _ & _ & H & _). discriminate. }
      destruct (KeyManager.getAllAvailableGeminiKeys (Front.pool World env))
        as [[sc|]|availableKeys] eqn:Hpool; [|simpl; auto 8..].
      split; [reflexivity|]. simpl.
      destruct (getAll_status _ _ Hpool) as [-> | ->]; auto 8.
    - destruct (KeyManager.getAllAvailableGeminiKeys (Front.pool World env))
        as [[sc|]|availableKeys] eqn:Hpool.
      + right. split; [|split; [reflexivity|]].
        * intros (_ & k & i & b & ks & _ & _ & _ & _ & _ & H & _).
          discriminate.
        * simpl. destruct (getAll_status _ _ Hpool) as [-> | ->]; auto 8.
      + right. split; [|simpl; auto 8].
        intros (_ & k & i & b & ks & _ & _ & _ & _ & _ & H & _).
        discriminate.
      + destruct (Front.edgeMessages (Front.messages requestBody))
          as [originalMessages|] eqn:Hmsg.
        * left. split.
          -- split; [exact Hm|].
             exists apiKey, accessKeyId, requestBody, availableKeys.
             rewrite Hsplit at 1. rewrite Hmsg.
             repeat split; auto. discriminate.
          -- apply handlerEdge_makes_a_call.
             exact (getAll_nonempty _ _ Hpool).
        * right. split; [|simpl; auto 8].
          intros (_ & k & i & b & ks & _ & _ & _ & _ & Hb & _ & Hread).
          injection Hb as <-. now apply Hread. }
  split; [|split; [|split; [|split; [|split]]]].
  - destruct Hfront as [[Ha Hc] | (Hn & Hst & _)].
    + tauto.
    + rewrite Hst. simpl. split; [congruence | contradiction].
  - destruct Hfront as [[Ha _] | (_ & Hst & Hin)]; [contradiction | auto].
  - intro Hm. subst r. unfold Front.handler.
    apply String.eqb_neq in Hm. now rewrite Hm.
  - intros Hm Hnosk. subst r. unfold Front.handler, Front.refuse.
    rewrite Hm. simpl.
    destruct (Front.authorization request) as [authHeader|] eqn:Hauth;
      [|reflexivity].
    destruct ((authHeader =? "")%string
              || negb (String.prefix "Bearer " authHeader)) eqn:Hbearer;
      [reflexivity|].
    apply orb_false_iff in Hbearer. destruct Hbearer as [_ Hbearer].
    apply negb_false_iff in Hbearer.
    pose proof (prefix_split "Bearer " authHeader Hbearer) as Hsplit.
    simpl in Hsplit.
    assert (Hp : String.prefix "sk-" (Front.substringFrom 7 authHeader) = false).
    { apply Hnosk. f_equal. exact Hsplit. }
    unfold Front.validateAccessKey. rewrite Hp. simpl.
    rewrite orb_true_r. reflexivity.
  - intro Hpool. subst r. unfold Front.handler, Front.refuse.
    destruct (negb (Front.method request =? "POST")%string);
      [simpl; auto|].
    destruct (Front.authorization request) as [authHeader|]; [|simpl; auto].
    destruct ((authHeader =? "")%string
              || negb (String.prefix "Bearer " authHeader)); [simpl; auto|].
    destruct (Front.validateAccessKey _ _) as [accessKeyId|]; [|simpl; auto].
    destruct (accessKeyId =? "")%string; [simpl; auto|].
    destruct (Front.body request) as [| |requestBody];
      rewrite ?Hpool; simpl; auto.
  - intros query apiKey Hp. unfold Front.validateAccessKey.
    rewrite Hp. simpl. now rewrite orb_true_r.
Qed.

Lemma only_accepted_requests_reach_upstream_witness :
  calls (snd (Front.handler nat FrontCases.env FrontCases.good 0%nat)) <> []
  /\ statusOf (fst (Front.handler nat FrontCases.env FrontCases.wrongPrefix 0%nat))
     = 401%Z
  /\ Front.handler nat FrontCases.env FrontCases.nullMessage 0%nat
     = (Failed (Config.newApiError 500 None), start nat 0%nat)
  /\ statusOf (fst (Front.handler nat FrontCases.emptyPool
                      FrontCases.nullBody 0%nat))
     = 503%Z.
Proof.
  destruct (only_accepted_requests_reach_upstream nat FrontCases.env
              FrontCases.good 0%nat) as ([_ Hcalls] & _).
  destruct (only_accepted_requests_reach_upstream nat FrontCases.env
              FrontCases.wrongPrefix 0%nat) as (_ & _ & _ & H401 & _).
  split; [|split; [|split; reflexivity]].
  - apply Hcalls. split; [reflexivity|].
    exists "sk-good", "access-1", FrontCases.hello, [Demo.k1].
    repeat split; try reflexivity; discriminate.
  - apply H401; [reflexivity|].
    intros apiKey H. simpl in H. inversion H. reflexivity.
Defined.

(* ===================================================================== *)
(** ** Converter and models: further facts                                *)
(* ===================================================================== *)

Lemma convertFrom_roles disguiseEnabled draw (ms : list Converter.Message) :
  forall first off,
    map Converter.geminiRole
        (Converter.convertFrom disguiseEnabled draw first off ms)
    = map upstreamRole (filter knownRole ms).
Proof.
  induction ms as [|m ms IH]; intros first off; [reflexivity|].
  cbn [Converter.convertFrom filter].
  unfold Converter.convertMessage, knownRole.
  destruct (Converter.role m =? "system")%string eqn:Hs;
    [|destruct (Converter.role m =? "user")%string eqn:Hu;
      [|destruct (Converter.role m =? "assistant")%string eqn:Ha]];
    cbn [orb map Converter.geminiRole]; rewrite ?IH; try reflexivity;
    (f_equal; try reflexivity; unfold upstreamRole).
  - apply String.eqb_eq in Hs. now rewrite Hs.
  - apply String.eqb_eq in Hu. now rewrite Hu.
  - now rewrite Ha.
Qed.

Lemma filter_none {A : Type} (p : A -> bool) (l : list A) :
  Forall (fun x => p x = false) l -> filter p l = [].
Proof.
  induction 1 as [|x l Hx _ IH]; simpl; [reflexivity|].
  now rewrite Hx.
Qed.

(** X14: the converter keeps the messages with role system, user or
    assistant in their order and drops every other message without an
    error; assistant messages become model turns, system and user
    messages become user turns, whatever the disguise flag and the
    generation parameters; and without the disguise a system message's
    text is its content behind "System: ". *)
Theorem converter_keeps_known_roles_in_order :
  forall (disguiseEnabled : bool) (draw : nat -> nat)
         (req : Converter.OpenAIRequest),
    let cs := Converter.contents
                (Converter.convertOpenAItoGemini disguiseEnabled draw req) in
    map Converter.geminiRole cs
    = map upstreamRole (filter knownRole (Converter.messages req))
    /\ List.length cs
       = List.length (filter knownRole (Converter.messages req))
    /\ Forall (fun c => Converter.geminiRole c = "user"
                        \/ Converter.geminiRole c = "model") cs
    /\ (Forall (fun m => knownRole m = false) (Converter.messages req) ->
        cs = [])
    /\ (forall m,
           Converter.role m = "system" ->
           Converter.convertMessage false draw None 0 m
           = Some (Converter.mkContent "user" ("System: " ++ Converter.content m))).
Proof.
  intros disguiseEnabled draw req cs. subst cs.
  unfold Converter.convertOpenAItoGemini. simpl.
  pose proof (convertFrom_roles disguiseEnabled draw (Converter.messages req)
                (Converter.firstUserMessageIndex (Converter.messages req)) 0)
    as Hroles.
  split; [exact Hroles|]. split; [|split; [|split]].
  - apply (f_equal (@List.length string)) in Hroles.
    now rewrite !length_map in Hroles.
  - apply Forall_forall. intros c Hin.
    apply (in_map Converter.geminiRole) in Hin. rewrite Hroles in Hin.
    apply in_map_iff in Hin. destruct Hin as (m & <- & _).
    unfold upstreamRole.
    destruct (Converter.role m =? "assistant")%string; auto.
  - intro Hnone.
    rewrite (filter_none _ _ Hnone) in Hroles. simpl in Hroles.
    now apply map_eq_nil in Hroles.
  - intros m Hm. unfold Converter.convertMessage, Converter.disguised.
    simpl. rewrite Hm. reflexivity.
Qed.

Lemma converter_keeps_known_roles_in_order_witness :
  Converter.contents
    (Converter.convertOpenAItoGemini false (fun _ => 0%nat)
       (Converter.mkRequest
          [Converter.mkMessage "tool" "result";
           Converter.mkMessage "function" "f()"] None None))
  = [].
Proof.
  destruct (converter_keeps_known_roles_in_order false (fun _ => 0%nat)
              (Converter.mkRequest
                 [Converter.mkMessage "tool" "result";
                  Converter.mkMessage "function" "f()"] None None))
    as (_ & _ & _ & Hnone & _).
  apply Hnone. repeat constructor.
Defined.

Lemma charAt_chars_alnum (i : nat) :
  (i < 62)%nat -> allChars isAlnum (Converter.charAt Converter.chars i) = true.
Proof.
  intro H. unfold Converter.charAt, Converter.chars.
  do 62 (destruct i as [|i]; [reflexivity|]). lia.
Qed.

Lemma allChars_app (p : ascii -> bool) (s t : string) :
  allChars p (s ++ t) = allChars p s && allChars p t.
Proof.
  induction s as [|c s IH]; simpl; [reflexivity|].
  now rewrite IH, andb_assoc.
Qed.

Lemma disguiseLoop_alnum (draw : nat -> nat) :
  (forall i, (draw i < 62)%nat) ->
  forall rounds i result,
    allChars isAlnum result = true ->
    allChars isAlnum (Converter.disguiseLoop draw i rounds result) = true.
Proof.
  intros Hdraw rounds.
  induction rounds as [|rounds IH]; intros i result Hres; simpl; [exact Hres|].
  apply IH. rewrite allChars_app, Hres, charAt_chars_alnum by apply Hdraw.
  reflexivity.
Qed.

(** X15: with every draw inside the alphabet, as [Math.random() < 1]
    guarantees, the disguise token is six characters long, each an
    ASCII letter or digit: the character of the alphabet at the index
    drawn, in the order of the draws. *)
Theorem disguise_token_is_alphanumeric :
  forall draw : nat -> nat,
    (forall i, (draw i < 62)%nat) ->
    allChars isAlnum (Converter.generateDisguiseString draw) = true
    /\ String.length (Converter.generateDisguiseString draw) = 6%nat
    /\ Converter.generateDisguiseString draw
       = Converter.charAt Converter.chars (draw 0%nat)
         ++ Converter.charAt Converter.chars (draw 1%nat)
         ++ Converter.charAt Converter.chars (draw 2%nat)
         ++ Converter.charAt Converter.chars (draw 3%nat)
         ++ Converter.charAt Converter.chars (draw 4%nat)
         ++ Converter.charAt Converter.chars (draw 5%nat).
Proof.
  intros draw Hdraw. split; [|split].
  - unfold Converter.generateDisguiseString.
    now apply disguiseLoop_alnum.
  - unfold Converter.generateDisguiseString.
    now rewrite disguiseLoop_length.
  - unfold Converter.generateDisguiseString. simpl.
    pose proof (charAt_chars_length _ (Hdraw 0%nat)) as H0.
    pose proof (charAt_chars_length _ (Hdraw 1%nat)) as H1.
    pose proof (charAt_chars_length _ (Hdraw 2%nat)) as H2.
    pose proof (charAt_chars_length _ (Hdraw 3%nat)) as H3.
    pose proof (charAt_chars_length _ (Hdraw 4%nat)) as H4.
    destruct (Converter.charAt Converter.chars (draw 0%nat)) as [|a0 [|? ?]];
      try discriminate.
    destruct (Converter.charAt Converter.chars (draw 1%nat)) as [|a1 [|? ?]];
      try discriminate.
    destruct (Converter.charAt Converter.chars (draw 2%nat)) as [|a2 [|? ?]];
      try discriminate.
    destruct (Converter.charAt Converter.chars (draw 3%nat)) as [|a3 [|? ?]];
      try discriminate.
    destruct (Converter.charAt Converter.chars (draw 4%nat)) as [|a4 [|? ?]];
      try discriminate.
    reflexivity.
Qed.

Lemma disguise_token_is_alphanumeric_witness :
  Converter.generateDisguiseString (fun i => Nat.min (i * 12) 61) = "AMYkw8"
  /\ allChars isAlnum "AMYkw8" = true.
Proof.
  destruct (disguise_token_is_alphanumeric (fun i => Nat.min (i * 12) 61))
    as (Halnum & _).
  - intro i. lia.
  - split; [reflexivity | exact Halnum].
Defined.

Lemma substring_after_prefix (p s : string) :
  String.substring (String.length p)
                   (String.length (p ++ s) - String.length p) (p ++ s)
  = s.
Proof.
  induction p as [|a p IH]; simpl.
  - now rewrite Nat.sub_0_r, substring_whole.
  - exact IH.
Qed.

Lemma replaceFirst_eq (pat by_ s : string) :
  Models.replaceFirst pat by_ s
  = if String.prefix pat s
    then by_ ++ String.substring (String.length pat)
                                 (String.length s - String.length pat) s
    else match s with
         | EmptyString => EmptyString
         | String c rest => String c (Models.replaceFirst pat by_ rest)
         end.
Proof. destruct s; reflexivity. Qed.

Lemma replaceFirst_prefix (pat s : string) :
  Models.replaceFirst pat "" (pat ++ s) = s.
Proof.
  rewrite replaceFirst_eq, prefix_app.
  cbn [append]. apply substring_after_prefix.
Qed.

Lemma includes_eq (pat s : string) :
  Js.includes pat s
  = if String.prefix pat s then true
    else match s with
         | EmptyString => false
         | String _ rest => Js.includes pat rest
         end.
Proof. destruct s; reflexivity. Qed.

Lemma replaceFirst_absent (pat by_ : string) :
  forall s, Js.includes pat s = false -> Models.replaceFirst pat by_ s = s.
Proof.
  induction s as [|c s IH]; intro H;
    rewrite includes_eq in H; rewrite replaceFirst_eq;
    destruct (String.prefix pat _); try discriminate; [reflexivity|].
  now rewrite IH.
Qed.

(** X16: the models endpoint lists a model under its upstream name with
    the leading "models/" taken off, and only that one occurrence; a
    name without "models/" is listed as it is; a model without a name,
    or whose name does not contain "gemini", is left out, so the list
    is never longer than the upstream's. *)
Theorem model_ids_drop_the_models_prefix :
  forall (now : Z),
    (forall s,
        Js.includes "gemini" ("models/" ++ s) = true ->
        Models.reshape now (Models.mkGoogleModel (Some ("models/" ++ s)))
        = Some (Models.mkModel s "model" (now / 1000) "google" s))
    /\ (forall n,
           Js.includes "gemini" n = true -> Js.includes "models/" n = false ->
           Models.reshape now (Models.mkGoogleModel (Some n))
           = Some (Models.mkModel n "model" (now / 1000) "google" n))
    /\ (forall g,
           (forall n, Models.name g = Some n -> Js.includes "gemini" n = false) ->
           Models.reshape now g = None)
    /\ (forall models,
           (List.length (Models.reshapeAll now models) <= List.length models)%nat).
Proof.
  intro now. split; [|split; [|split]].
  - intros s Hg. unfold Models.reshape. cbn [Models.name].
    rewrite Hg.
    replace (negb ("models/" ++ s =? "")%string) with true by reflexivity.
    simpl andb. cbv iota.
    now rewrite (replaceFirst_prefix "models/" s).
  - intros n Hg Hm. unfold Models.reshape. cbn [Models.name].
    rewrite Hg, (replaceFirst_absent "models/" "" n Hm).
    destruct n as [|c n]; [discriminate | reflexivity].
  - intros g Hno. unfold Models.reshape.
    destruct (Models.name g) as [n|]; [|reflexivity].
    rewrite (Hno n eq_refl). now rewrite andb_false_r.
  - induction models as [|g models IH]; simpl; [lia|].
    destruct (Models.reshape now g); simpl; lia.
Qed.

Lemma model_ids_drop_the_models_prefix_witness :
  Models.reshape 1700000000999
    (Models.mkGoogleModel (Some ("models/" ++ "tunedModels/models/gemini-x")))
  = Some (Models.mkModel "tunedModels/models/gemini-x" "model" 1700000000
                         "google" "tunedModels/models/gemini-x").
Proof.
  apply (model_ids_drop_the_models_prefix 1700000000999).
  reflexivity.
Defined.

(* ===================================================================== *)
(** ** Quota period                                                       *)
(* ===================================================================== *)

Lemma period_ends (now : Z) :
  RefreshPeriod.getRefreshPeriodRange now
  = (now - (now - 6 * RefreshPeriod.hour) mod RefreshPeriod.day,
     now - (now - 6 * RefreshPeriod.hour) mod RefreshPeriod.day
     + RefreshPeriod.day - 1)%Z.
Proof.
  unfold RefreshPeriod.getRefreshPeriodRange, RefreshPeriod.getUTCHours,
         RefreshPeriod.setUTCHours, RefreshPeriod.shiftUTCDate,
         RefreshPeriod.day, RefreshPeriod.hour.
  destruct (_ <? 14)%Z eqn:E;
    [apply Z.ltb_lt in E | apply Z.ltb_ge in E];
    f_equal; Z.div_mod_to_equations; lia.
Qed.

(** X17: the quota period computed for the admin key listing is the
    24-hour window from 14:00 Shanghai time (06:00 UTC) that contains
    the present instant: it starts at 06:00 UTC, lasts one day less a
    millisecond, contains [now], is the same for every instant inside
    it, and the next period starts the millisecond after it ends. *)
Theorem refresh_period_is_the_window_around_now :
  forall now : Z,
    let s := fst (RefreshPeriod.getRefreshPeriodRange now) in
    let e := snd (RefreshPeriod.getRefreshPeriodRange now) in
    (s <= now <= e)%Z
    /\ (e - s = RefreshPeriod.day - 1)%Z
    /\ (s mod RefreshPeriod.day = 6 * RefreshPeriod.hour)%Z
    /\ (forall t, (s <= t <= e)%Z ->
                  RefreshPeriod.getRefreshPeriodRange t = (s, e))
    /\ fst (RefreshPeriod.getRefreshPeriodRange (e + 1)) = (e + 1)%Z.
Proof.
  intros now s e. subst s e.
  rewrite period_ends. cbn [fst snd].
  unfold RefreshPeriod.day, RefreshPeriod.hour.
  split; [|split; [|split; [|split]]].
  - Z.div_mod_to_equations; lia.
  - lia.
  - Z.div_mod_to_equations; lia.
  - intros t Ht. rewrite period_ends.
    unfold RefreshPeriod.day, RefreshPeriod.hour.
    f_equal; Z.div_mod_to_equations; lia.
  - rewrite period_ends. cbn [fst].
    unfold RefreshPeriod.day, RefreshPeriod.hour.
    Z.div_mod_to_equations; lia.
Qed.

Lemma refresh_period_is_the_window_around_now_witness :
  RefreshPeriod.getRefreshPeriodRange 1700000000000
  = (1699941600000, 1700027999999)%Z
  /\ RefreshPeriod.getRefreshPeriodRange 1700027999999
     = (1699941600000, 1700027999999)%Z.
Proof.
  split; [reflexivity|].
  destruct (refresh_period_is_the_window_around_now 1700000000000)
    as (_ & _ & _ & Hsame & _).
  apply (Hsame 1700027999999%Z). vm_compute. split; discriminate.
Defined.

(* ===================================================================== *)
(** ** Call log retention                                                 *)
(* ===================================================================== *)

Lemma insertNewest_perm (r : Logging.Row) (l : list Logging.Row) :
  Permutation (Logging.insertNewest r l) (r :: l).
Proof.
  induction l as [|x l IH]; simpl; [apply Permutation_refl|].
  destruct (Logging.timestamp x <? Logging.timestamp r)%Z.
  - apply Permutation_refl.
  - eapply Permutation_trans; [apply perm_skip, IH | apply perm_swap].
Qed.

Lemma newestFirst_perm (l : list Logging.Row) :
  Permutation (Logging.newestFirst l) l.
Proof.
  induction l as [|r l IH]; simpl; [apply Permutation_refl|].
  eapply Permutation_trans; [apply insertNewest_perm | now apply perm_skip].
Qed.

Lemma filter_length_perm {A : Type} (p : A -> bool) (l l' : list A) :
  Permutation l l' ->
  List.length (filter p l) = List.length (filter p l').
Proof.
  induction 1 as [|x l l' _ IH|x y l|l l' l'' _ IH1 _ IH2]; simpl.
  - reflexivity.
  - destruct (p x); simpl; congruence.
  - destruct (p x), (p y); reflexivity.
  - congruence.
Qed.

Lemma inIds_spec (ids : list nat) (r : Logging.Row) :
  Logging.inIds ids r = true <-> In (Logging.rowId r) ids.
Proof.
  unfold Logging.inIds. rewrite existsb_exists. split.
  - intros (x & Hin & Heq). apply Nat.eqb_eq in Heq. now subst.
  - intro Hin. exists (Logging.rowId r). split; [exact Hin|].
    apply Nat.eqb_refl.
Qed.

Lemma nodup_map_app_apart {A B : Type} (f : A -> B) (a b : list A) :
  NoDup (map f (a ++ b)%list) ->
  forall x, In x a -> ~ In (f x) (map f b).
Proof.
  induction a as [|y a IH]; intros Hnd x Hin; [contradiction|].
  simpl in Hnd. inversion Hnd as [|? ? Hnotin Hnd']; subst.
  destruct Hin as [-> | Hin]; [|now apply IH].
  intro Hb. apply Hnotin. rewrite map_app. apply in_or_app. now right.
Qed.

Lemma nodup_map_app_comm {A B : Type} (f : A -> B) (a b : list A) :
  NoDup (map f (a ++ b)%list) -> NoDup (map f (b ++ a)%list).
Proof.
  intro H. eapply Permutation_NoDup; [|exact H].
  apply Permutation_map, Permutation_app_comm.
Qed.

Lemma filter_all {A : Type} (p : A -> bool) (l : list A) :
  (forall x, In x l -> p x = true) -> filter p l = l.
Proof.
  induction l as [|x l IH]; intro H; simpl; [reflexivity|].
  rewrite (H x (or_introl eq_refl)). f_equal. apply IH.
  intros y Hy. apply H. now right.
Qed.

(** Deleting by id the middle of a table with distinct ids leaves the
    two ends. *)
Lemma delete_middle (a mid rest : list Logging.Row) :
  NoDup (map Logging.rowId (a ++ mid ++ rest)%list) ->
  filter (fun r => negb (Logging.inIds (map Logging.rowId mid) r))
         (a ++ mid ++ rest)%list
  = (a ++ rest)%list.
Proof.
  intro Hnd. rewrite !filter_app.
  replace (filter (fun r => negb (Logging.inIds (map Logging.rowId mid) r)) mid)
    with (@nil Logging.Row); [cbn [app]; f_equal|].
  - apply filter_all. intros x Hx.
    destruct (Logging.inIds (map Logging.rowId mid) x) eqn:E; [|reflexivity].
    apply inIds_spec in E. exfalso.
    apply (nodup_map_app_apart Logging.rowId a (mid ++ rest)%list Hnd x Hx).
    rewrite map_app. apply in_or_app. now left.
  - apply filter_all. intros x Hx.
    destruct (Logging.inIds (map Logging.rowId mid) x) eqn:E; [|reflexivity].
    apply inIds_spec in E. exfalso.
    apply nodup_map_app_comm in Hnd. rewrite <- app_assoc in Hnd.
    apply nodup_map_app_comm in Hnd. rewrite <- app_assoc in Hnd.
    apply (nodup_map_app_apart Logging.rowId rest (a ++ mid)%list Hnd x Hx).
    rewrite map_app. apply in_or_app. now right.
  - symmetry. apply filter_none. apply Forall_forall. intros x Hx.
    apply Bool.negb_false_iff, inIds_spec. now apply in_map.
Qed.

Lemma range_split (from to : nat) (l : list Logging.Row) :
  l = (firstn from l ++ Logging.range from to l
       ++ skipn (S to - from) (skipn from l))%list.
Proof.
  unfold Logging.range. now rewrite firstn_skipn, firstn_skipn.
Qed.

Section Retention.

Variable MAX_LOG_COUNT : nat.
Variable ordered : list Logging.Row -> list Logging.Row.
Variable newRow : Logging.Row.
Variable table : list Logging.Row.

Hypothesis ordered_perm :
  Permutation (ordered (newRow :: table)) (newRow :: table).
Hypothesis ids_distinct : NoDup (map Logging.rowId (newRow :: table)).

Lemma oldLogs_length :
  List.length (Logging.oldLogs MAX_LOG_COUNT ordered (newRow :: table))
  = Nat.min 101 (List.length table + 1 - MAX_LOG_COUNT).
Proof.
  unfold Logging.oldLogs, Logging.range.
  rewrite length_firstn, length_skipn, (Permutation_length ordered_perm).
  simpl List.length. lia.
Qed.

Lemma logApiCall_clean :
  Logging.logApiCall MAX_LOG_COUNT ordered Logging.noFaults newRow table
  = filter (fun r =>
              negb (Logging.inIds
                      (map Logging.rowId
                         (Logging.oldLogs MAX_LOG_COUNT ordered (newRow :: table)))
                      r))
           (newRow :: table).
Proof.
  unfold Logging.logApiCall. cbn [Logging.insertOp Logging.selectOp
    Logging.deleteOp Logging.noFaults].
  destruct (0 <? List.length
                   (Logging.oldLogs MAX_LOG_COUNT ordered (newRow :: table)))%nat
    eqn:E; [reflexivity|].
  apply Nat.ltb_ge in E.
  destruct (Logging.oldLogs MAX_LOG_COUNT ordered (newRow :: table));
    [|simpl in E; lia].
  symmetry. apply filter_all. reflexivity.
Qed.

Lemma ordered_distinct :
  NoDup (map Logging.rowId (ordered (newRow :: table))).
Proof.
  eapply Permutation_NoDup; [|exact ids_distinct].
  apply Permutation_map, Permutation_sym, ordered_perm.
Qed.

Lemma logApiCall_length :
  List.length
    (Logging.logApiCall MAX_LOG_COUNT ordered Logging.noFaults newRow table)
  = List.length table + 1
    - Nat.min 101 (List.length table + 1 - MAX_LOG_COUNT).
Proof.
  rewrite logApiCall_clean.
  rewrite <- (filter_length_perm _ _ _ ordered_perm).
  pose proof ordered_distinct as Hnd.
  pose proof (range_split MAX_LOG_COUNT (MAX_LOG_COUNT + 100)
                (ordered (newRow :: table))) as Hsplit.
  fold (Logging.oldLogs MAX_LOG_COUNT ordered (newRow :: table)) in Hsplit.
  rewrite Hsplit in Hnd. rewrite Hsplit at 1.
  rewrite (delete_middle _ _ _ Hnd).
  apply (f_equal (@List.length Logging.Row)) in Hsplit.
  rewrite !length_app in Hsplit. rewrite length_app.
  rewrite (Permutation_length ordered_perm) in Hsplit.
  rewrite <- oldLogs_length. cbn [List.length] in Hsplit. lia.
Qed.

Lemma logApiCall_keeps_newest (r : Logging.Row) :
  In r (firstn MAX_LOG_COUNT (ordered (newRow :: table))) ->
  In r (Logging.logApiCall MAX_LOG_COUNT ordered Logging.noFaults
          newRow table).
Proof.
  intro Hin. rewrite logApiCall_clean. apply filter_In. split.
  - apply (Permutation_in _ ordered_perm).
    rewrite <- (firstn_skipn MAX_LOG_COUNT). apply in_or_app. now left.
  - destruct (Logging.inIds
                (map Logging.rowId
                   (Logging.oldLogs MAX_LOG_COUNT ordered (newRow :: table)))
                r) eqn:E;
      [|reflexivity].
    apply inIds_spec in E. exfalso.
    pose proof ordered_distinct as Hnd.
    rewrite (range_split MAX_LOG_COUNT (MAX_LOG_COUNT + 100)
               (ordered (newRow :: table))) in Hnd.
    fold (Logging.oldLogs MAX_LOG_COUNT ordered (newRow :: table)) in Hnd.
    apply (nodup_map_app_apart Logging.rowId _ _ Hnd r Hin).
    rewrite map_app. apply in_or_app. now left.
Qed.

End Retention.

Lemma logApiCall_subset MAX_LOG_COUNT ordered faults newRow table r :
  In r (Logging.logApiCall MAX_LOG_COUNT ordered faults newRow table) ->
  In r (newRow :: table).
Proof.
  unfold Logging.logApiCall.
  destruct (Logging.insertOp faults), (Logging.selectOp faults);
    try (intro H; first [exact H | now right]);
    match goal with
    | |- context [if ?c then _ else _] => destruct c
    end;
    try (intro H; first [exact H | now right]);
    destruct (Logging.deleteOp faults);
    intro H; try apply filter_In in H;
    first [exact H | now right | destruct H as [H _]; first [exact H | now right]].
Qed.

(** X18: one call of [logApiCall] on a table with distinct ids, every
    database operation succeeding and whatever order the database gives
    to rows of equal timestamp: the new row is added and at most 101
    rows are deleted, those past position [MAX_LOG_COUNT] of the ordered
    table, so a table within the limit stays within it, a table more
    than 100 rows over it is still over it afterwards, and the first
    [MAX_LOG_COUNT] rows of the ordering are kept; and whatever fails,
    the table never holds a row other than the old ones and the new
    one. *)
Theorem call_log_cleanup_is_bounded :
  forall (MAX_LOG_COUNT : nat) (ordered : list Logging.Row -> list Logging.Row)
         (newRow : Logging.Row) (table : list Logging.Row),
    Permutation (ordered (newRow :: table)) (newRow :: table) ->
    NoDup (map Logging.rowId (newRow :: table)) ->
    let after :=
      Logging.logApiCall MAX_LOG_COUNT ordered Logging.noFaults newRow table in
    List.length after
    = (List.length table + 1
       - Nat.min 101 (List.length table + 1 - MAX_LOG_COUNT))%nat
    /\ ((List.length table <= MAX_LOG_COUNT)%nat ->
        (List.length after <= MAX_LOG_COUNT)%nat)
    /\ ((MAX_LOG_COUNT + 100 < List.length table)%nat ->
        (MAX_LOG_COUNT < List.length after)%nat)
    /\ (forall r,
           In r (firstn MAX_LOG_COUNT (ordered (newRow :: table))) ->
           In r after)
    /\ (forall faults r,
           In r (Logging.logApiCall MAX_LOG_COUNT ordered faults newRow table) ->
           In r (newRow :: table)).
Proof.
  intros MAX_LOG_COUNT ordered newRow table Hperm Hnd after.
  pose proof (logApiCall_length MAX_LOG_COUNT ordered newRow table Hperm Hnd)
    as Hlen.
  fold after in Hlen.
  split; [exact Hlen|]. split; [|split; [|split]].
  - intro H. lia.
  - intro H. lia.
  - intros r Hr.
    now apply (logApiCall_keeps_newest MAX_LOG_COUNT ordered newRow table).
  - intros faults r. apply logApiCall_subset.
Qed.

Lemma call_log_cleanup_is_bounded_witness :
  Logging.logApiCall 5 Logging.newestFirst Logging.noFaults
    Logging.incoming Logging.sample
  = [Logging.incoming; Logging.mkRow 2 20; Logging.mkRow 3 30;
     Logging.mkRow 4 40; Logging.mkRow 5 50]
  /\ (List.length
        (Logging.logApiCall 5 Logging.newestFirst Logging.noFaults
           Logging.incoming Logging.sample) <= 5)%nat.
Proof.
  split; [reflexivity|].
  apply (call_log_cleanup_is_bounded 5 Logging.newestFirst
           Logging.incoming Logging.sample).
  - apply newestFirst_perm.
  - simpl. repeat constructor; simpl; intuition discriminate.
  - simpl. lia.
Defined.

(* ===================================================================== *)
(** ** The serverless handler in front of its loop                        *)
(* ===================================================================== *)

Section ServerlessFacts.

Context {World : Type}.
Variable env : Front.Env World.

Lemma poll_calls_strategy
    (upstream : Strategy -> GeminiKey -> World -> Outcome * World)
    (attempt : GeminiKey -> Poll World -> Outcome * Poll World)
    (strategy : Strategy) (isStream : bool) (keys : list GeminiKey) (w : World) :
  (forall key st, attempt key st = call World upstream strategy key st) ->
  forall c,
    In c (calls (snd (poll World attempt isStream keys (start World w)))) ->
    fst c = strategy.
Proof.
  intros Hatt c Hin.
  destruct (poll_trace upstream attempt strategy isStream Hatt keys
              (start World w)) as (done & rest & _ & _ & _ & Hcalls & _).
  rewrite Hcalls in Hin. simpl in Hin.
  apply in_map_iff in Hin. destruct Hin as (k & <- & _). reflexivity.
Qed.

Lemma edge_calls_strategy (request : Front.Request) (w : World) :
  forall c,
    In c (calls (snd (Front.handler World env request w))) ->
    exists requestBody,
      Front.body request = Front.BodyValue requestBody
      /\ fst c = selectStrategy (Front.stream requestBody)
                   (Settings.getStreamingConfig (Front.parse World env)
                      (Front.streamingLookup World env)).
Proof.
  intros c. unfold Front.handler, Front.refuse.
  destruct (negb (Front.method request =? "POST")%string);
    [simpl; contradiction|].
  destruct (Front.authorization request) as [authHeader|];
    [|simpl; contradiction].
  destruct ((authHeader =? "")%string
            || negb (String.prefix "Bearer " authHeader));
    [simpl; contradiction|].
  destruct (Front.validateAccessKey _ _) as [accessKeyId|];
    [|simpl; contradiction].
  destruct (accessKeyId =? "")%string; [simpl; contradiction|].
  destruct (Front.body request) as [| |requestBody];
    [simpl; contradiction | |];
    (destruct (KeyManager.getAllAvailableGeminiKeys _)
       as [[sc|]|availableKeys]; try (simpl; contradiction)).
  destruct (Front.edgeMessages (Front.messages requestBody))
    as [originalMessages|]; [|simpl; contradiction].
  intro Hin. exists requestBody. split; [reflexivity|].
  unfold handlerEdge in Hin. rewrite finish_snd in Hin.
  eapply poll_calls_strategy; [|exact Hin]. reflexivity.
Qed.

Lemma local_calls_strategy (requestBody : Front.RequestBody) (w : World) :
  forall c,
    In c (calls (snd (Serverless.serveLocally World env requestBody w))) ->
    fst c = if Front.stream requestBody then handleRealStream
            else handleNonStream.
Proof.
  intros c. unfold Serverless.serveLocally, Serverless.refuse.
  destruct (KeyManager.getAllAvailableGeminiKeys _) as [[sc|]|availableKeys];
    try (simpl; contradiction).
  destruct (Front.serverlessMessages (Front.messages requestBody))
    as [messages|]; [|simpl; contradiction].
  destruct (handlerServerless _ _ _ _ _) as [r st] eqn:E.
  cbn [snd]. intro Hin.
  apply (f_equal snd) in E. cbn [snd] in E. subst st.
  unfold handlerServerless in Hin. rewrite finish_snd in Hin.
  eapply poll_calls_strategy; [|exact Hin]. reflexivity.
Qed.

Lemma enabled_streams_for_real (cfg : StreamingConfig) :
  enabled cfg = true -> selectStrategy true cfg = handleRealStream.
Proof.
  intro H. unfold selectStrategy. rewrite H.
  destruct (fake_stream_enabled cfg); reflexivity.
Qed.

End ServerlessFacts.

Lemma serverless_answers :
  forall (World : Type) (env : Front.Env World) (edgeReachable : bool)
         (request : Front.Request) (w : World),
    let result := Serverless.handler World env edgeReachable request w in
    (forall c,
        In c (calls (snd result)) ->
        exists requestBody,
          Front.body request = Front.BodyValue requestBody
          /\ fst c = if Front.stream requestBody then handleRealStream
                     else handleNonStream)
    /\ (forall r,
           fst result = Serverless.Relayed r ->
           edgeReachable = true
           /\ (exists requestBody,
                  Front.body request = Front.BodyValue requestBody
                  /\ Front.stream requestBody = true)
           /\ enabled (Settings.getStreamingConfig (Front.parse World env)
                         (Front.streamingLookup World env)) = true
           /\ Front.handler World env request w = (r, snd result))
    /\ (Front.method request = "OPTIONS" ->
        result = (Serverless.Preflight, start World w)).
Proof.
  intros World env edgeReachable request w result. subst result.
  unfold Serverless.handler, Serverless.refuse.
  destruct (Front.method request =? "OPTIONS")%string eqn:Hopt.
  { cbn [fst snd calls start]. split; [|split].
    - intros c [].
    - intros r H. discriminate.
    - reflexivity. }
  assert (Hnot : Front.method request = "OPTIONS" -> False).
  { intro H. rewrite H in Hopt. discriminate. }
  destruct (negb (Front.method request =? "POST")%string) eqn:Hpost.
  { cbn [fst snd calls start]. split; [|split].
    - intros c [].
    - intros r H. discriminate.
    - intro H. now elim Hnot. }
  apply Bool.negb_false_iff, String.eqb_eq in Hpost.
  destruct (Front.authorization request) as [authHeader|] eqn:Hauth.
  2:{ cbn [fst snd calls start]. split; [|split].
      - intros c [].
      - intros r H. discriminate.
      - intro H. now elim Hnot. }
  destruct ((authHeader =? "")%string
            || negb (String.prefix "Bearer " authHeader)) eqn:Hbearer.
  { cbn [fst snd calls start]. split; [|split].
    - intros c [].
    - intros r H. discriminate.
    - intro H. now elim Hnot. }
  destruct (Front.validateAccessKey _ _) as [accessKeyId|].
  2:{ cbn [fst snd calls start]. split; [|split].
      - intros c [].
      - intros r H. discriminate.
      - intro H. now elim Hnot. }
  destruct (accessKeyId =? "")%string.
  { cbn [fst snd calls start]. split; [|split].
    - intros c [].
    - intros r H. discriminate.
    - intro H. now elim Hnot. }
  destruct (Front.body request) as [| |requestBody] eqn:Hbody.
  1,2: cbn [fst snd calls start]; (split; [|split]);
    [intros c [] | intros r H; discriminate | intro H; now elim Hnot].
  assert (Hsame : Serverless.forwarded request requestBody = request).
  { unfold Serverless.forwarded. rewrite Hauth.
    apply Bool.orb_false_iff in Hbearer. destruct Hbearer as [Hne _].
    destruct request as [m a b]. cbn in *. subst.
    destruct authHeader; [discriminate | reflexivity]. }
  rewrite Hsame.
  destruct (Front.stream requestBody) eqn:Hstream; cbn [andb].
  2:{ split; [|split].
      - intros c Hin. exists requestBody. split; [reflexivity|].
        rewrite (local_calls_strategy env requestBody w c Hin), Hstream.
        reflexivity.
      - intros r H. exfalso. revert H.
        unfold Serverless.serveLocally, Serverless.refuse.
        destruct (KeyManager.getAllAvailableGeminiKeys _) as [[sc|]|ks];
          try discriminate.
        destruct (Front.serverlessMessages (Front.messages requestBody));
          [|discriminate].
        destruct (handlerServerless _ _ _ _ _). discriminate.
      - intro H. now elim Hnot. }
  destruct (enabled (Settings.getStreamingConfig _ _)) eqn:Hen; cbn [andb].
  2:{ split; [|split].
      - intros c Hin. exists requestBody. split; [reflexivity|].
        rewrite (local_calls_strategy env requestBody w c Hin), Hstream.
        reflexivity.
      - intros r H. exfalso. revert H.
        unfold Serverless.serveLocally, Serverless.refuse.
        destruct (KeyManager.getAllAvailableGeminiKeys _) as [[sc|]|ks];
          try discriminate.
        destruct (Front.serverlessMessages (Front.messages requestBody));
          [|discriminate].
        destruct (handlerServerless _ _ _ _ _). discriminate.
      - intro H. now elim Hnot. }
  destruct edgeReachable.
  2:{ split; [|split].
      - intros c Hin. exists requestBody. split; [reflexivity|].
        rewrite (local_calls_strategy env requestBody w c Hin), Hstream.
        reflexivity.
      - intros r H. exfalso. revert H.
        unfold Serverless.serveLocally, Serverless.refuse.
        destruct (KeyManager.getAllAvailableGeminiKeys _) as [[sc|]|ks];
          try discriminate.
        destruct (Front.serverlessMessages (Front.messages requestBody));
          [|discriminate].
        destruct (handlerServerless _ _ _ _ _). discriminate.
      - intro H. now elim Hnot. }
  destruct (Front.handler World env request w) as [r st] eqn:Hedge.
  cbn [fst snd]. split; [|split].
  - intros c Hin.
    pose proof (edge_calls_strategy env request w c) as Hc.
    rewrite Hedge in Hc. destruct (Hc Hin) as (rb & Hrb & Hfst).
    rewrite Hbody in Hrb. injection Hrb as <-.
    exists requestBody. split; [reflexivity|].
    rewrite Hfst, Hstream. now apply enabled_streams_for_real.
  - intros r' H. injection H as <-.
    split; [reflexivity|]. split; [|split; reflexivity].
    exists requestBody. split; [reflexivity | exact Hstream].
  - intro H. now elim Hnot.
Qed.


Lemma serverless_relays (World : Type) (env : Front.Env World)
    (request : Front.Request) (w : World)
    (authHeader accessKeyId : string) (requestBody : Front.RequestBody) :
  Front.method request = "POST" ->
  Front.authorization request = Some authHeader ->
  authHeader <> "" ->
  String.prefix "Bearer " authHeader = true ->
  Front.validateAccessKey (Front.substringFrom 7 authHeader)
                          (Front.accessQuery World env) = Some accessKeyId ->
  accessKeyId <> "" ->
  Front.body request = Front.BodyValue requestBody ->
  Front.stream requestBody = true ->
  enabled (Settings.getStreamingConfig (Front.parse World env)
             (Front.streamingLookup World env)) = true ->
  fst (Serverless.handler World env true request w)
  = Serverless.Relayed (fst (Front.handler World env request w)).
Proof.
  intros Hm Hauth Hne Hbearer Hvalid Hid Hbody Hstream Hen.
  assert (Hsame : Serverless.forwarded request requestBody = request).
  { unfold Serverless.forwarded. rewrite Hauth.
    destruct request as [m a b]. cbn in *. subst.
    destruct authHeader; [now elim Hne | reflexivity]. }
  unfold Serverless.handler. rewrite Hm, Hauth.
  change ("POST" =? "OPTIONS")%string with false.
  change (negb ("POST" =? "POST")%string) with false. cbv iota.
  replace (authHeader =? "")%string with false
    by (symmetry; now apply String.eqb_neq).
  rewrite Hbearer. cbn [orb negb]. rewrite Hvalid.
  replace (accessKeyId =? "")%string with false
    by (symmetry; now apply String.eqb_neq).
  rewrite Hbody, Hstream, Hen. cbn [andb]. rewrite Hsame.
  now destruct (Front.handler World env request w).
Qed.

(** X19: the serverless handler never fakes a stream and relays only
    what the edge handler said.  Every upstream call behind one of its
    answers is a real stream when the body asks for a stream and a
    plain call when it does not, whatever the fake-stream flag; an
    answer is relayed from the edge function only when the body asks
    for a stream, streaming is enabled and the edge function was
    reached, and always when, besides, the request passes the checks of
    method, header, access key and body; it is then the edge handler's
    answer to the same request; a preflight is answered without any
    upstream call. *)
Theorem serverless_relays_or_streams_for_real :
  forall (World : Type) (env : Front.Env World) (edgeReachable : bool)
         (request : Front.Request) (w : World),
    let result := Serverless.handler World env edgeReachable request w in
    (forall c,
        In c (calls (snd result)) ->
        exists requestBody,
          Front.body request = Front.BodyValue requestBody
          /\ fst c = if Front.stream requestBody then handleRealStream
                     else handleNonStream)
    /\ (forall r,
           fst result = Serverless.Relayed r ->
           edgeReachable = true
           /\ (exists requestBody,
                  Front.body request = Front.BodyValue requestBody
                  /\ Front.stream requestBody = true)
           /\ enabled (Settings.getStreamingConfig (Front.parse World env)
                         (Front.streamingLookup World env)) = true
           /\ Front.handler World env request w = (r, snd result))
    /\ (forall authHeader accessKeyId requestBody,
           Front.method request = "POST" ->
           Front.authorization request = Some authHeader ->
           authHeader <> "" ->
           String.prefix "Bearer " authHeader = true ->
           Front.validateAccessKey (Front.substringFrom 7 authHeader)
                                   (Front.accessQuery World env)
           = Some accessKeyId ->
           accessKeyId <> "" ->
           Front.body request = Front.BodyValue requestBody ->
           Front.stream requestBody = true ->
           enabled (Settings.getStreamingConfig (Front.parse World env)
                      (Front.streamingLookup World env)) = true ->
           edgeReachable = true ->
           fst result
           = Serverless.Relayed (fst (Front.handler World env request w)))
    /\ (Front.method request = "OPTIONS" ->
        result = (Serverless.Preflight, start World w)).
Proof.
  intros World env edgeReachable request w result.
  destruct (serverless_answers World env edgeReachable request w)
    as (Hcalls & Hrelayed & Hpreflight).
  split; [exact Hcalls|]. split; [exact Hrelayed|].
  split; [|exact Hpreflight].
  intros authHeader accessKeyId requestBody
         Hm Hauth Hne Hbearer Hvalid Hid Hbody Hstream Hen Hreach.
  subst result. rewrite Hreach.
  now apply (serverless_relays World env request w authHeader accessKeyId
               requestBody).
Qed.

Lemma serverless_relays_or_streams_for_real_witness :
  fst (Serverless.handler nat Serverless.env true Serverless.streamed 0%nat)
  = Serverless.Relayed
      (fst (Front.handler nat Serverless.env Serverless.streamed 0%nat))
  /\ Front.handler nat Serverless.env Serverless.streamed 0%nat
     = (fst (Front.handler nat Serverless.env Serverless.streamed 0%nat),
        snd (Serverless.handler nat Serverless.env true
               Serverless.streamed 0%nat)).
Proof.
  split; [reflexivity|].
  apply (serverless_relays_or_streams_for_real nat Serverless.env true
           Serverless.streamed 0%nat).
  reflexivity.
Defined.

(* ===================================================================== *)
(** ** Retries of the dashboard route                                     *)
(* ===================================================================== *)

Lemma backoff_snoc (delay n : nat) :
  Retry.backoff delay (S n)
  = (Retry.backoff delay n ++ [delay * (n + 1)])%list.
Proof.
  unfold Retry.backoff. rewrite seq_S, map_app. reflexivity.
Qed.

Lemma backoff_sum (delay n : nat) :
  (2 * list_sum (Retry.backoff delay n) = delay * (n * (n + 1)))%nat.
Proof.
  induction n as [|n IH]; [simpl; lia|].
  rewrite backoff_snoc, list_sum_app.
  change (list_sum [delay * (n + 1)]) with (delay * (n + 1) + 0).
  rewrite Nat.mul_add_distr_l, IH. ring.
Qed.

Section RetryFacts.

Context {World T : Type}.
Variable operation : World -> (T + Js.Error) * World.
Variable maxRetries delay : nat.

Lemma retryFrom_spec (remaining : nat) :
  forall i lastError st,
    (i + remaining = maxRetries)%nat ->
    Retry.attempts st = i ->
    Retry.waits st = Retry.backoff delay (Nat.min i (maxRetries - 1)) ->
    let result :=
      Retry.retryFrom World T operation maxRetries delay remaining i
                      lastError st in
    let n := Retry.attempts (snd result) in
    (i <= n <= maxRetries)%nat
    /\ Retry.waits (snd result) = Retry.backoff delay (n - 1)
    /\ (forall e, fst result = inr e -> n = maxRetries)
    /\ (forall v, fst result = inl v -> (i < n)%nat).
Proof.
  induction remaining as [|rest IH]; intros i lastError st Hsum Hatt Hwaits.
  - cbv zeta. cbn [Retry.retryFrom fst snd Retry.attempts Retry.waits].
    rewrite Hatt. split; [lia|]. split.
    + rewrite Hwaits. f_equal. lia.
    + split; [intros; lia | intros v Hv; discriminate].
  - cbn [Retry.retryFrom].
    destruct (operation (Retry.world st)) as [[v|error] w].
    + cbv zeta. cbn [fst snd Retry.attempts Retry.waits].
      rewrite Hatt. split; [lia|]. split.
      * rewrite Hwaits. f_equal. lia.
      * split; [intros e He; discriminate | intros; lia].
    + match goal with
      | |- context [Retry.retryFrom _ _ _ _ _ _ _ ?e ?s] =>
          specialize (IH (S i) e s)
      end.
      cbn [Retry.attempts Retry.waits] in IH.
      destruct IH as (Hn & Hw & He & Hv).
      * lia.
      * now rewrite Hatt.
      * destruct (i <? maxRetries - 1)%nat eqn:E.
        -- apply Nat.ltb_lt in E. rewrite Hwaits.
           replace (Nat.min i (maxRetries - 1)) with i by lia.
           replace (Nat.min (S i) (maxRetries - 1)) with (S i) by lia.
           now rewrite backoff_snoc.
        -- apply Nat.ltb_ge in E. rewrite Hwaits. f_equal. lia.
      * cbv zeta. split; [lia|]. split; [exact Hw|].
        split; [exact He|]. intros v Hres. specialize (Hv v Hres). lia.
Qed.

End RetryFacts.

(** X20: [retryOperation] runs the operation at most [maxRetries] times
    and sleeps [delay], [2 * delay], ... between the runs and never
    after the last one; a first run that returns ends it at once, with
    no sleep; it throws only after [maxRetries] runs, and with
    [maxRetries] zero it throws [undefined] without running the
    operation. *)
Theorem retry_runs_are_bounded_with_linear_backoff :
  forall (World T : Type) (operation : World -> (T + Js.Error) * World)
         (maxRetries delay : nat) (w : World),
    let result := Retry.retryOperation World T operation maxRetries delay w in
    let n := Retry.attempts (snd result) in
    (n <= maxRetries)%nat
    /\ Retry.waits (snd result) = Retry.backoff delay (n - 1)
    /\ (2 * list_sum (Retry.waits (snd result)) = delay * ((n - 1) * n))%nat
    /\ (forall e, fst result = inr e -> n = maxRetries)
    /\ (forall v, fst result = inl v -> (1 <= n)%nat)
    /\ (forall v w',
           operation w = (inl v, w') -> (0 < maxRetries)%nat ->
           result = (inl v, Retry.mkRun World w' 1 []))
    /\ (maxRetries = 0%nat ->
        result = (inr None, Retry.mkRun World w 0 [])).
Proof.
  intros World T operation maxRetries delay w result n.
  pose proof (retryFrom_spec operation maxRetries delay maxRetries 0 None
                (Retry.mkRun World w 0 []) eq_refl eq_refl eq_refl) as H.
  cbv zeta in H.
  change (Retry.retryFrom World T operation maxRetries delay maxRetries 0 None
            (Retry.mkRun World w 0 [])) with result in H.
  fold n in H. destruct H as (Hn & Hw & He & Hv).
  split; [lia|]. split; [exact Hw|].
  split; [|split; [exact He|split; [|split]]].
  - rewrite Hw, backoff_sum. destruct n as [|n']; simpl; [lia|].
    rewrite Nat.sub_0_r. f_equal. lia.
  - intros v Hres. specialize (Hv v Hres). lia.
  - intros v w' Hop Hpos. subst result. unfold Retry.retryOperation.
    destruct maxRetries as [|m]; [lia|].
    cbn [Retry.retryFrom Retry.world]. now rewrite Hop.
  - intro H0. subst result. rewrite H0. reflexivity.
Qed.

Lemma retry_runs_are_bounded_with_linear_backoff_witness :
  Retry.retryOperation nat string Retry.thirdTime 3 1000 0%nat
  = (inl "rows", Retry.mkRun nat 3 3 [1000; 2000]%nat)
  /\ (1 <= Retry.attempts
            (snd (Retry.retryOperation nat string Retry.thirdTime 3 1000 0%nat)))%nat.
Proof.
  split; [reflexivity|].
  destruct (retry_runs_are_bounded_with_linear_backoff nat string
              Retry.thirdTime 3 1000 0%nat) as (_ & _ & _ & _ & Hv & _ & _).
  apply (Hv "rows"). reflexivity.
Defined.

(* ===================================================================== *)
(** ** The admin session                                                  *)
(* ===================================================================== *)



(* ===================================================================== *)
(** ** Access keys                                                        *)
(* ===================================================================== *)

Lemma key_absent (k : string) (table : list AccessKeys.Row) :
  existsb (fun r => (AccessKeys.lpb_key r =? k)%string) table = false ->
  filter (fun r => (AccessKeys.lpb_key r =? k)%string && AccessKeys.is_active r)
         table = [].
Proof.
  induction table as [|r table IH]; simpl; [reflexivity|].
  destruct (AccessKeys.lpb_key r =? k)%string; simpl; [discriminate|].
  exact IH.
Qed.

Lemma key_absent_iff (k : string) (table : list AccessKeys.Row) :
  existsb (fun r => (AccessKeys.lpb_key r =? k)%string) table = false
  <-> ~ In k (map AccessKeys.lpb_key table).
Proof.
  induction table as [|r table IH]; simpl; [tauto|].
  destruct (AccessKeys.lpb_key r =? k)%string eqn:E; simpl.
  - apply String.eqb_eq in E. split; [discriminate | tauto].
  - apply String.eqb_neq in E. tauto.
Qed.

Lemma validate_without_row (k : string) (table : list AccessKeys.Row) :
  filter (fun r => (AccessKeys.lpb_key r =? k)%string && AccessKeys.is_active r)
         table = [] ->
  AccessKeys.validateAccessKey table k = None.
Proof.
  intro H. unfold AccessKeys.validateAccessKey, Front.validateAccessKey,
             AccessKeys.query.
  rewrite H. destruct (_ || _); reflexivity.
Qed.

Lemma filter_filter_nil {A : Type} (p q : A -> bool) (l : list A) :
  filter p l = [] -> filter p (filter q l) = [].
Proof.
  induction l as [|x l IH]; simpl; [reflexivity|].
  destruct (p x) eqn:Hp; [discriminate|]. intro H.
  destruct (q x); simpl; [rewrite Hp|]; now apply IH.
Qed.

Lemma post_cases (table : list AccessKeys.Row) (k fresh : string) :
  (k <> ""
   /\ String.prefix "sk-" k = true
   /\ existsb (fun r => (AccessKeys.lpb_key r =? k)%string) table = false
   /\ AccessKeys.post (Some k) fresh false table
      = (201%Z, (table ++ [AccessKeys.mkRow fresh k true])%list))
  \/ ((k = "" \/ String.prefix "sk-" k = false
       \/ existsb (fun r => (AccessKeys.lpb_key r =? k)%string) table = true)
      /\ AccessKeys.post (Some k) fresh false table = (400%Z, table)).
Proof.
  unfold AccessKeys.post.
  destruct (k =? "")%string eqn:Hk.
  { apply String.eqb_eq in Hk. right. split; [now left | reflexivity]. }
  apply String.eqb_neq in Hk.
  destruct (String.prefix "sk-" k) eqn:Hp; cbn [orb negb].
  2:{ right. split; [right; now left | reflexivity]. }
  destruct (existsb _ table) eqn:Hex.
  { right. split; [right; now right | reflexivity]. }
  left. auto.
Qed.

(** X22: the life of an access key.  The access keys route stores a key
    exactly when it is not empty, starts with [sk-] and is not in the
    table yet (the insert going through); from then on
    [validateAccessKey] answers the id of the new row for it and what it
    answered before for every other key; switching the row off, or
    deleting it (its id not being empty), makes the key invalid again;
    and a key without the prefix is never valid, whatever the table
    holds. *)
Theorem access_key_life_cycle :
  forall (table : list AccessKeys.Row) (k fresh : string),
    fresh <> "" ->
    let added := AccessKeys.post (Some k) fresh false table in
    (fst added = 201%Z <->
     k <> "" /\ String.prefix "sk-" k = true
     /\ ~ In k (map AccessKeys.lpb_key table))
    /\ (fst added <> 201%Z -> snd added = table)
    /\ (fst added = 201%Z ->
        AccessKeys.validateAccessKey (snd added) k = Some fresh
        /\ (forall other,
               other <> k ->
               AccessKeys.validateAccessKey (snd added) other
               = AccessKeys.validateAccessKey table other)
        /\ AccessKeys.validateAccessKey
             (snd (AccessKeys.put fresh false (snd added))) k = None
        /\ AccessKeys.validateAccessKey
             (snd (AccessKeys.delete (Some fresh) false (snd added))) k = None)
    /\ (String.prefix "sk-" k = false ->
        forall anyTable, AccessKeys.validateAccessKey anyTable k = None).
Proof.
  intros table k fresh Hfresh added. subst added.
  pose proof (post_cases table k fresh) as Hpost.
  split; [|split; [|split]].
  - destruct Hpost as [(Hk & Hp & Hin & ->) | (Hbad & ->)]; cbn [fst].
    + split; [intros _|reflexivity].
      split; [exact Hk|]. split; [exact Hp|]. now apply key_absent_iff.
    + split; [discriminate|]. intros (Hk & Hp & Hin).
      apply key_absent_iff in Hin. destruct Hbad as [H|[H|H]]; congruence.
  - destruct Hpost as [(_ & _ & _ & ->) | (_ & ->)]; cbn [fst snd].
    + intro H. now elim H.
    + reflexivity.
  - destruct Hpost as [(Hk & Hp & Hex & ->) | (_ & ->)]; cbn [fst snd];
      [intros _ | discriminate].
    assert (Hk' : (k =? "")%string = false) by now apply String.eqb_neq.
    split; [|split; [|split]].
    + unfold AccessKeys.validateAccessKey, Front.validateAccessKey,
        AccessKeys.query.
      rewrite Hk', Hp. cbn [orb negb].
      rewrite filter_app, (key_absent k table Hex).
      cbn [filter AccessKeys.lpb_key AccessKeys.is_active app].
      rewrite String.eqb_refl. reflexivity.
    + intros other Hother.
      unfold AccessKeys.validateAccessKey, Front.validateAccessKey,
        AccessKeys.query.
      rewrite filter_app. cbn [filter AccessKeys.lpb_key].
      replace (k =? other)%string with false
        by (symmetry; apply String.eqb_neq; congruence).
      cbn [andb]. now rewrite app_nil_r.
    + apply validate_without_row. unfold AccessKeys.put.
      set (off := fun r => if (AccessKeys.rowId r =? fresh)%string
                           then AccessKeys.mkRow (AccessKeys.rowId r)
                                  (AccessKeys.lpb_key r) false
                           else r).
      assert (Hoff : filter (fun r => (AccessKeys.lpb_key r =? k)%string
                                      && AccessKeys.is_active r)
                            (map off (table ++ [AccessKeys.mkRow fresh k true])%list)
                     = []).
      { assert (Hnew : off (AccessKeys.mkRow fresh k true)
                       = AccessKeys.mkRow fresh k false).
        { unfold off. cbn [AccessKeys.rowId AccessKeys.lpb_key].
          now rewrite String.eqb_refl. }
        rewrite map_app, filter_app. cbn [map]. rewrite Hnew.
        cbn [filter AccessKeys.lpb_key AccessKeys.is_active].
        rewrite Bool.andb_false_r, app_nil_r.
        clear - Hex. induction table as [|r table IH]; [reflexivity|].
        cbn [existsb] in Hex. apply Bool.orb_false_iff in Hex.
        destruct Hex as [Hr Hrest]. cbn [map filter].
        replace (AccessKeys.lpb_key (off r)) with (AccessKeys.lpb_key r)
          by (unfold off; destruct (AccessKeys.rowId r =? fresh)%string;
              reflexivity).
        rewrite Hr. cbn [andb]. now apply IH. }
      destruct (filter (fun r => (AccessKeys.rowId r =? fresh)%string) _)
        as [|? [|? ?]]; exact Hoff.
    + apply validate_without_row. unfold AccessKeys.delete.
      replace (fresh =? "")%string with false
        by (symmetry; now apply String.eqb_neq).
      cbn [snd]. rewrite filter_app. cbn [filter AccessKeys.rowId].
      rewrite String.eqb_refl. cbn [negb]. rewrite app_nil_r.
      apply filter_filter_nil. now apply key_absent.
  - intros Hp anyTable. unfold AccessKeys.validateAccessKey,
      Front.validateAccessKey. rewrite Hp.
    now rewrite Bool.orb_true_r.
Qed.

Lemma access_key_life_cycle_witness :
  AccessKeys.validateAccessKey
    (snd (AccessKeys.post (Some "sk-new") "id-1" false AccessKeys.seeded))
    "sk-new"
  = Some "id-1"
  /\ AccessKeys.validateAccessKey
       (snd (AccessKeys.delete (Some "id-1") false
               (snd (AccessKeys.post (Some "sk-new") "id-1" false
                       AccessKeys.seeded))))
       "sk-new"
     = None.
Proof.
  destruct (access_key_life_cycle AccessKeys.seeded "sk-new" "id-1")
    as (_ & _ & Hlife & _); [discriminate|].
  destruct (Hlife eq_refl) as (Hvalid & _ & _ & Hgone).
  split; [exact Hvalid | exact Hgone].
Defined.

(* ===================================================================== *)
(** ** The key test                                                       *)
(* ===================================================================== *)

Lemma find_snoc {A : Type} (f : A -> bool) (l : list A) (x : A) :
  find f (l ++ [x])
  = match find f l with
    | Some y => Some y
    | None => if f x then Some x else None
    end.
Proof.
  induction l as [|y l IH]; simpl; [reflexivity|].
  destruct (f y); [reflexivity | exact IH].
Qed.

(** The verdict a row ends with: that of the last test written for its
    id. *)
Lemma fold_setValid (results : list KeyTest.TestResult) :
  forall table,
    fold_left (KeyTest.record (fun _ => true)) results table
    = map (fun r =>
             match find (fun x => (id (KeyStore.key r) =? KeyTest.keyId x)%string)
                        (rev results) with
             | Some x => KeyStore.mkRow (KeyStore.key r) (KeyStore.is_active r)
                                        (KeyTest.success x)
             | None => r
             end) table.
Proof.
  induction results as [|x rest IH]; intro table.
  - simpl. symmetry. apply map_id.
  - cbn [fold_left]. rewrite IH. unfold KeyTest.record.
    unfold KeyTest.setValid. rewrite map_map. apply map_ext. intro r.
    cbn [rev]. rewrite find_snoc.
    destruct (id (KeyStore.key r) =? KeyTest.keyId x)%string eqn:E;
      cbn [KeyStore.key KeyStore.is_active].
    + now destruct (find _ (rev rest)).
    + now destruct (find _ (rev rest)).
Qed.

Lemma nodup_map_inj {A B : Type} (f : A -> B) (l : list A) :
  NoDup (map f l) ->
  forall a b, In a l -> In b l -> f a = f b -> a = b.
Proof.
  induction l as [|x l IH]; intros Hnd a b Ha Hb Hf; [contradiction|].
  simpl in Hnd. inversion Hnd as [|? ? Hnotin Hnd']; subst.
  destruct Ha as [-> | Ha], Hb as [-> | Hb].
  - reflexivity.
  - exfalso. apply Hnotin. rewrite Hf. now apply in_map.
  - exfalso. apply Hnotin. rewrite <- Hf. now apply in_map.
  - now apply IH.
Qed.

Lemma find_test (probe : GeminiKey -> KeyTest.Probe)
    (table : list KeyStore.Row) (r : KeyStore.Row) :
  NoDup (map (fun r => id (KeyStore.key r)) table) ->
  In r table ->
  let results :=
    map (KeyTest.testKey probe)
        (map KeyStore.key (filter KeyStore.is_active table)) in
  match find (fun x => (id (KeyStore.key r) =? KeyTest.keyId x)%string)
             (rev results) with
  | Some x => KeyStore.is_active r = true
              /\ x = KeyTest.testKey probe (KeyStore.key r)
  | None => KeyStore.is_active r = false
  end.
Proof.
  intros Hnd Hin results.
  assert (HkeyId : forall k, KeyTest.keyId (KeyTest.testKey probe k) = id k).
  { intro k. unfold KeyTest.testKey.
    destruct (probe k) as [status m|m]; [destruct (KeyTest.ok status)|];
      reflexivity. }
  destruct (find _ (rev results)) as [x|] eqn:E.
  - apply find_some in E. destruct E as [Hx Heq].
    apply String.eqb_eq in Heq.
    apply in_rev in Hx. unfold results in Hx.
    apply in_map_iff in Hx. destruct Hx as (k & <- & Hk).
    apply in_map_iff in Hk. destruct Hk as (r' & <- & Hr').
    apply filter_In in Hr'. destruct Hr' as [Hr' Hact].
    rewrite HkeyId in Heq.
    assert (r = r') as <-.
    { apply (nodup_map_inj (fun r => id (KeyStore.key r)) table Hnd); auto. }
    split; [exact Hact | reflexivity].
  - destruct (KeyStore.is_active r) eqn:Hact; [|reflexivity].
    exfalso.
    assert (Hx : In (KeyTest.testKey probe (KeyStore.key r)) (rev results)).
    { apply -> in_rev. unfold results.
      apply in_map, in_map. apply filter_In. auto. }
    pose proof (find_none _ _ E _ Hx) as Hno. cbv beta in Hno.
    rewrite HkeyId, String.eqb_refl in Hno. discriminate.
Qed.

Lemma eligible_retested (probe : GeminiKey -> KeyTest.Probe)
    (table : list KeyStore.Row) :
  KeyStore.eligible (map (KeyTest.retested probe) table)
  = filter (KeyTest.passes probe)
           (map KeyStore.key (filter KeyStore.is_active table)).
Proof.
  unfold KeyStore.eligible.
  induction table as [|r table IH]; [reflexivity|].
  cbn [map filter].
  destruct (KeyStore.is_active r) eqn:Hact.
  - replace (KeyTest.retested probe r)
      with (KeyStore.mkRow (KeyStore.key r) true
                           (KeyTest.passes probe (KeyStore.key r)))
      by (unfold KeyTest.retested; now rewrite Hact).
    cbn [KeyStore.is_active KeyStore.is_valid andb map filter].
    destruct (KeyTest.passes probe (KeyStore.key r));
      cbn [map KeyStore.key]; now rewrite IH.
  - replace (KeyTest.retested probe r) with r
      by (unfold KeyTest.retested; now rewrite Hact).
    rewrite Hact. cbn [andb]. exact IH.
Qed.

Lemma filter_split_length {A : Type} (p : A -> bool) (l : list A) :
  (List.length (filter p l) + List.length (filter (fun x => negb (p x)) l)
   = List.length l)%nat.
Proof.
  induction l as [|x l IH]; simpl; [reflexivity|].
  destruct (p x); simpl; lia.
Qed.

(** X23: the key test route, on a table with distinct ids.  It tests
    the active keys, valid or not, and no others; the counts of
    successes and failures add up to the number of keys tested; the
    cache of the pool is left as it is; and when the updates go through
    every active key ends valid exactly if its test succeeded, so a key
    the dispatch loop had marked invalid comes back to the table's
    eligible keys once it passes, while inactive keys keep their
    flags. *)
Theorem key_test_overwrites_validity :
  forall (probe : GeminiKey -> KeyTest.Probe) (written : string -> bool)
         (s : KeyStore.Store),
    NoDup (map (fun r => id (KeyStore.key r)) (KeyStore.rows s)) ->
    let tested := map KeyStore.key
                      (filter KeyStore.is_active (KeyStore.rows s)) in
    let reply := fst (KeyTest.handler "POST" false probe written s) in
    let after := snd (KeyTest.handler "POST" false probe written s) in
    (exists succeeded failed,
        reply = KeyTest.Summary (List.length tested) succeeded failed
                                (map (KeyTest.testKey probe) tested)
        /\ (succeeded + failed = List.length tested)%nat
        /\ succeeded = List.length (filter (KeyTest.passes probe) tested))
    /\ KeyStore.cache after = KeyStore.cache s
    /\ ((forall keyId, written keyId = true) ->
        KeyStore.rows after = map (KeyTest.retested probe) (KeyStore.rows s)
        /\ KeyStore.eligible (KeyStore.rows after)
           = filter (KeyTest.passes probe) tested).
Proof.
  intros probe written s Hnd tested reply after.
  subst reply after. unfold KeyTest.handler.
  change (negb ("POST" =? "POST")%string) with false. cbv iota.
  fold tested.
  assert (Hrows :
    (forall keyId, written keyId = true) ->
    fold_left (KeyTest.record written) (map (KeyTest.testKey probe) tested)
              (KeyStore.rows s)
    = map (KeyTest.retested probe) (KeyStore.rows s)).
  { intro Hall.
    assert (Hw : forall results table,
               fold_left (KeyTest.record written) results table
               = fold_left (KeyTest.record (fun _ => true)) results table).
    { induction results as [|x rest IH]; intro table; [reflexivity|].
      cbn [fold_left]. rewrite IH. unfold KeyTest.record.
      now rewrite Hall. }
    rewrite Hw, fold_setValid. apply map_ext_in. intros r Hin.
    pose proof (find_test probe (KeyStore.rows s) r Hnd Hin) as Hfind.
    cbv zeta in Hfind. fold tested in Hfind.
    unfold KeyTest.retested.
    destruct (find _ _) as [x|].
    - destruct Hfind as [-> ->]. reflexivity.
    - now rewrite Hfind. }
  destruct tested as [|k ks] eqn:Htested.
  - cbn [fst snd]. split; [|split].
    + exists 0%nat, 0%nat. repeat split.
    + reflexivity.
    + intro Hall. specialize (Hrows Hall). cbn [map fold_left] in Hrows.
      split; [exact Hrows|].
      rewrite Hrows at 1. rewrite eligible_retested. fold tested.
      now rewrite Htested.
  - cbn [fst snd KeyStore.cache KeyStore.rows]. split; [|split].
    + eexists _, _. split; [reflexivity|]. split.
      * unfold KeyTest.countIf.
        rewrite filter_split_length. now rewrite length_map.
      * unfold KeyTest.countIf, KeyTest.passes.
        generalize (k :: ks). intro l.
        induction l as [|x l IH]; [reflexivity|].
        cbn [map filter].
        destruct (KeyTest.success (KeyTest.testKey probe x));
          cbn [List.length]; now rewrite IH.
    + reflexivity.
    + intro Hall. specialize (Hrows Hall). split; [exact Hrows|].
      rewrite Hrows, eligible_retested. fold tested. now rewrite Htested.
Qed.

Lemma key_test_overwrites_validity_witness :
  KeyStore.eligible (KeyStore.rows KeyTest.pool) = [mkKey "key-1" "AIza-1"]
  /\ KeyStore.eligible
       (KeyStore.rows
          (snd (KeyTest.handler "POST" false KeyTest.probe (fun _ => true)
                  KeyTest.pool)))
     = [mkKey "key-2" "AIza-2"].
Proof.
  split; [reflexivity|].
  destruct (key_test_overwrites_validity KeyTest.probe (fun _ => true)
              KeyTest.pool) as (_ & _ & Hrows).
  - simpl. repeat constructor; simpl; intuition discriminate.
  - destruct (Hrows (fun _ => eq_refl)) as [_ Heligible].
    exact Heligible.
Defined.

(* ===================================================================== *)
(** ** The shuffle reaches every order                                    *)
(* ===================================================================== *)

Section ShuffleOrders.

Context {A : Type}.

(** Only the answers up to the counter reached matter. *)
Lemma insertBy_agree (coin coin' : nat -> bool) (x : A) (sorted : list A) :
  forall k,
    (forall i, (k <= i < snd (insertBy coin x sorted k))%nat ->
               coin' i = coin i) ->
    insertBy coin' x sorted k = insertBy coin x sorted k.
Proof.
  induction sorted as [|y ys IH]; intros k Hagree; [reflexivity|].
  cbn [insertBy] in *.
  destruct (coin k) eqn:Hk.
  - cbn [snd] in Hagree. rewrite (Hagree k), Hk by lia. reflexivity.
  - destruct (insertBy coin x ys (S k)) as [r k'] eqn:E.
    cbn [snd] in Hagree.
    assert (Hle : (S k <= k')%nat).
    { clear - E. revert k k' r E.
      induction ys as [|z zs IHz]; intros k k' r E; cbn [insertBy] in E.
      - inversion E. lia.
      - destruct (coin (S k)).
        + inversion E. lia.
        + destruct (insertBy coin x zs (S (S k))) as [r0 k0] eqn:E0.
          inversion E; subst. specialize (IHz _ _ _ E0). lia. }
    rewrite (Hagree k), Hk by lia.
    rewrite IH; [now rewrite E|].
    intros i Hi. rewrite E in Hi. cbn [snd] in Hi. apply Hagree. lia.
Qed.

Lemma insertBy_counter (coin : nat -> bool) (x : A) (sorted : list A) :
  forall k, (k <= snd (insertBy coin x sorted k))%nat.
Proof.
  induction sorted as [|y ys IH]; intro k; cbn [insertBy]; [simpl; lia|].
  destruct (coin k); [simpl; lia|].
  specialize (IH (S k)).
  destruct (insertBy coin x ys (S k)) as [r k']. simpl in *. lia.
Qed.

Lemma sortBy_counter (coin : nat -> bool) (l : list A) :
  forall k, (k <= snd (sortBy coin l k))%nat.
Proof.
  induction l as [|x xs IH]; intro k; cbn [sortBy]; [simpl; lia|].
  specialize (IH k).
  destruct (sortBy coin xs k) as [s k1]. cbn [snd] in IH.
  pose proof (insertBy_counter coin x s k1). lia.
Qed.

Lemma sortBy_agree (coin coin' : nat -> bool) (l : list A) :
  forall k,
    (forall i, (k <= i < snd (sortBy coin l k))%nat -> coin' i = coin i) ->
    sortBy coin' l k = sortBy coin l k.
Proof.
  induction l as [|x xs IH]; intros k Hagree; [reflexivity|].
  cbn [sortBy] in *.
  pose proof (sortBy_counter coin xs k) as Hk1.
  destruct (sortBy coin xs k) as [s k1] eqn:E. cbn [snd] in Hk1.
  pose proof (insertBy_counter coin x s k1) as Hk2.
  rewrite IH.
  - rewrite E. apply insertBy_agree. intros i Hi. apply Hagree. lia.
  - intros i Hi. rewrite E in Hi. cbn [snd] in Hi. apply Hagree. lia.
Qed.

(** Answers [false] as often as [before] is long, then [true], put the
    element between [before] and [behind]. *)
Lemma insertBy_lands (coin : nat -> bool) (x : A) (before behind : list A) :
  forall k,
    (forall i, (i < List.length before)%nat -> coin (k + i)%nat = false) ->
    coin (k + List.length before)%nat = true ->
    fst (insertBy coin x (before ++ behind)%list k)
    = (before ++ x :: behind)%list.
Proof.
  induction before as [|y ys IH]; intros k Hfalse Htrue.
  - cbn [app List.length] in *. rewrite Nat.add_0_r in Htrue.
    destruct behind as [|z zs]; cbn [insertBy]; [reflexivity|].
    now rewrite Htrue.
  - cbn [app insertBy].
    rewrite <- (Nat.add_0_r k) at 1.
    rewrite (Hfalse 0%nat) by (simpl; lia).
    specialize (IH (S k)).
    destruct (insertBy coin x (ys ++ behind)%list (S k)) as [r k'] eqn:E.
    cbn [fst] in *. f_equal. apply IH.
    + intros i Hi. replace (S k + i)%nat with (k + S i)%nat by lia.
      apply Hfalse. simpl. lia.
    + replace (S k + List.length ys)%nat
        with (k + List.length (y :: ys))%nat by (simpl; lia).
      exact Htrue.
Qed.

Lemma sortBy_any_order (l : list A) :
  forall k target,
    Permutation target l ->
    exists coin, fst (sortBy coin l k) = target.
Proof.
  induction l as [|x xs IH]; intros k target Hperm.
  - apply Permutation_sym, Permutation_nil in Hperm. subst.
    exists (fun _ => true). reflexivity.
  - assert (Hin : In x target).
    { apply (Permutation_in x (Permutation_sym Hperm)). now left. }
    destruct (in_split _ _ Hin) as (before & behind & ->).
    assert (Hrest : Permutation (before ++ behind)%list xs).
    { apply Permutation_sym.
      apply Permutation_cons_app_inv with (a := x).
      now apply Permutation_sym. }
    destruct (IH k _ Hrest) as (coin0 & Hsorted).
    set (k1 := snd (sortBy coin0 xs k)).
    exists (fun i => if (i <? k1)%nat then coin0 i
                     else negb (i <? k1 + List.length before)%nat).
    cbn [sortBy].
    rewrite (sortBy_agree coin0).
    + destruct (sortBy coin0 xs k) as [s k1'] eqn:E.
      cbn [fst snd] in *. subst s k1.
      apply insertBy_lands.
      * intros i Hi.
        replace (k1' + i <? k1')%nat with false
          by (symmetry; apply Nat.ltb_ge; lia).
        replace (k1' + i <? k1' + List.length before)%nat with true
          by (symmetry; apply Nat.ltb_lt; lia).
        reflexivity.
      * replace (k1' + List.length before <? k1')%nat with false
          by (symmetry; apply Nat.ltb_ge; lia).
        now rewrite Nat.ltb_irrefl.
    + intros i Hi. fold k1 in Hi.
      replace (i <? k1)%nat with true by (symmetry; apply Nat.ltb_lt; lia).
      reflexivity.
Qed.

End ShuffleOrders.

(** Whatever order the engine's sort leaves the keys in, the shuffle of
    the model gives it for some sequence of comparator answers. *)
Lemma shuffledKeys_any_order (availableKeys order : list GeminiKey) :
  Permutation order availableKeys ->
  exists coin, shuffledKeys coin availableKeys = order.
Proof. apply sortBy_any_order. Qed.

(* ===================================================================== *)
(** ** The serverless handler streaming                                   *)
(* ===================================================================== *)

Section StreamFacts.

Context {World : Type}.
Variable sdk : GeminiKey -> World -> ServerlessStream.Sdk * World.
Variable sse : string -> string.
Variable headersAlreadySent : Js.Error.

(** Once the head is out, no later key can stream: its call throws what
    [res.writeHead] throws, or what the SDK rejected with, and the
    response stays as it is. *)
Lemma after_the_head_every_call_throws (key : GeminiKey) (w : World)
    (res : ServerlessStream.Res) :
  ServerlessStream.headersSent res = true ->
  exists e w',
    ServerlessStream.callGeminiWithKey World sdk sse headersAlreadySent
      key (w, res)
    = (Thrown e, (w', res)).
Proof.
  intro Hsent. unfold ServerlessStream.callGeminiWithKey. cbn [fst snd].
  destruct (sdk key w) as [[e|texts breaks] w'].
  - now exists e, w'.
  - rewrite Hsent. now exists headersAlreadySent, w'.
Qed.

End StreamFacts.

(** A stream that breaks after the head: the handler goes on to the next
    key, whose call throws on [res.writeHead], and ends with a 503 in
    hand that it cannot send; the client has status 200 and two frames
    of a stream that is never completed, and both log rows are failure
    rows. *)
Example serverless_stream_cut_is_answered_200 :
  let run := ServerlessStream.handler nat ServerlessStream.breaking
               ServerlessStream.frame (Some ServerlessStream.headersError)
               [Demo.k1; Demo.k2] 0%nat in
  fst run
  = Failed (mkApiError 503
      "All 2 API keys failed. Last error: Cannot write headers after they are sent to the client")
  /\ ServerlessStream.delivered nat run
     = ServerlessStream.Streamed 200 ["data: Hel"; "data: lo"] false
  /\ map response_status_code (logs (snd run)) = [500; 500]%Z
  /\ map snd (calls (snd run)) = ["key-1"; "key-2"].
Proof. repeat split. Qed.
